(** * Asteroids: the simulation core of [asteroids.js], embedded and verified

    The development follows the source file top-down: the value types
    ([Vector], the enums), the base class [GameWorldObject] with its
    setters and its [update] (advance and wrap), the three variants
    ([Ship], [Bullet], [Asteroid]), and the [GameWorld] module with its
    object registry, score, scene state and per-tick [updateGameWorld].

    Modelling conventions.
    - A JavaScript number is an exact rational ([Q]); [NaN] and the
      infinities are not represented, and no rounding takes place.
      [Math.sqrt(a) < b] is read over the reals: [0 < b] and [a < b*b].
    - Objects live in a store ([heap]) and are named by references; the
      registry [gameWorldObjects] is an array of references, so that an
      object removed from the registry keeps its fields (and its stale
      [gameWorldIndex]) exactly as in the source.
    - An uncaught [TypeError] is the [None] of the option monad.  The
      same [None] marks what the program never does: following a
      reference that is not in the store, or running a variant's method
      on an object of another variant.
    - The host (canvas size, keyboard, clock, [Math.random], the
      trigonometric functions) is a record of parameters, [Host]. *)

From Stdlib Require Import QArith Qround Lqa ZArith Lia String.
From stdpp Require Import base option list strings.

Local Open Scope Q_scope.
Set Warnings "-register-all".

(** ** Numbers *)

(** [Math.floor] *)
Definition Math_floor (a : Q) : Q := inject_Z (Qfloor a).

(** Truncation toward zero, as used by the [%] operator. *)
Definition Qtruncate (a : Q) : Z := Z.quot (Qnum a) (Zpos (Qden a)).

(** [a % m]: the remainder has the sign of the dividend. *)
Definition js_rem (a m : Q) : Q := a - m * inject_Z (Qtruncate (a / m)).

(** The comparisons [a < b], [a > b], [a >= b] as booleans. *)
Definition Qltb (a b : Q) : bool := if Qlt_le_dec a b then true else false.
Definition Qgtb (a b : Q) : bool := Qltb b a.
Definition Qgeb (a b : Q) : bool := negb (Qltb a b).

(** [Math.sqrt(sq) < bound] for [sq >= 0], read over the reals. *)
Definition sqrt_lt (sq bound : Q) : bool :=
  Qltb 0 bound && Qltb sq (bound * bound).

(** ** Enums *)

Inductive GameState :=
| TITLE_SCREEN_SCENE
| MAIN_LEVEL_SCENE
| WIN_LEVEL_SCENE
| GAME_OVER_SCENE
| CREDITS_SCENE.

Inductive Tier := LARGE | MEDIUM | SMALL.

Definition AsteroidRadius (t : Tier) : Q :=
  match t with LARGE => 80 | MEDIUM => 40 | SMALL => 20 end.

Definition AsteroidMaxVelocity (t : Tier) : Q :=
  match t with LARGE => 3 | MEDIUM => 5 | SMALL => 7 end.

Definition AsteroidScore (t : Tier) : Z :=
  match t with LARGE => 20 | MEDIUM => 50 | SMALL => 100 end%Z.

(** ** Untyped values, for the setters' argument checks *)

Inductive jsval :=
| JUndefined
| JNull
| JBool (b : bool)
| JNum (q : Q)
| JStr (s : string)
| JObj (props : list (string * jsval)).

Definition typeof (v : jsval) : string :=
  match v with
  | JUndefined => "undefined"
  | JNull => "object"
  | JBool _ => "boolean"
  | JNum _ => "number"
  | JStr _ => "string"
  | JObj _ => "object"
  end.

Fixpoint assoc (name : string) (props : list (string * jsval)) : jsval :=
  match props with
  | [] => JUndefined
  | (k, v) :: rest => if String.eqb k name then v else assoc name rest
  end.

(** Property read [v.name]. Reading a property of [null] or [undefined]
    throws; a missing property reads as [undefined]. *)
Definition get_prop (v : jsval) (name : string) : option jsval :=
  match v with
  | JUndefined | JNull => None
  | JObj props => Some (assoc name props)
  | JBool _ | JNum _ | JStr _ => Some JUndefined
  end.

Definition is_nullish (v : jsval) : bool :=
  match v with JUndefined | JNull => true | _ => false end.

(** ** Vector *)

Record Vector := mkVector { X : Q; Y : Q }.

(** [new Vector(x, y)] with numeric arguments. *)
Definition new_Vector (x y : Q) : Vector := mkVector x y.

(** A vector whose fields may hold any value: what [this.position] can
    become once [setPosition] has copied unchecked properties into it. *)
Record jsVector := mkJsVector { jX : jsval; jY : jsval }.

Definition js_of_Vector (v : Vector) : jsVector :=
  mkJsVector (JNum (X v)) (JNum (Y v)).

(** ** GameWorldObject and its variants *)

(** References into the object store. *)
Abbreviation ref := nat (only parsing).

Record ShipSettings := mkShipSettings {
  acceleration : Q;
  rotationSpeed : Q;
  friction : Q;
  fireRate : Q;
  lastFired : Q;
  maxVelocity : Q
}.

(** The prototype an object was built from ([instanceof]) together with
    the fields only that variant has. *)
Inductive Variant :=
| Ship (s : ShipSettings)
| Bullet (bulletMaxVelocity : Q)
| Asteroid (rotation : Q).

Record GameWorldObject := mkObject {
  variant : Variant;
  gameWorldIndex : Z;
  position : Vector;
  velocity : Vector;
  angle : Q;
  radius : Q;
  geometry : list Vector;
  timesWarped : Z
}.

Definition instanceof_Asteroid (o : GameWorldObject) : bool :=
  match variant o with Asteroid _ => true | _ => false end.

Definition instanceof_Bullet (o : GameWorldObject) : bool :=
  match variant o with Bullet _ => true | _ => false end.

Definition with_variant (v : Variant) (o : GameWorldObject) :=
  mkObject v (gameWorldIndex o) (position o) (velocity o) (angle o)
           (radius o) (geometry o) (timesWarped o).
Definition with_gameWorldIndex (i : Z) (o : GameWorldObject) :=
  mkObject (variant o) i (position o) (velocity o) (angle o)
           (radius o) (geometry o) (timesWarped o).
Definition with_position (p : Vector) (o : GameWorldObject) :=
  mkObject (variant o) (gameWorldIndex o) p (velocity o) (angle o)
           (radius o) (geometry o) (timesWarped o).
Definition with_velocity (v : Vector) (o : GameWorldObject) :=
  mkObject (variant o) (gameWorldIndex o) (position o) v (angle o)
           (radius o) (geometry o) (timesWarped o).
Definition with_angle (a : Q) (o : GameWorldObject) :=
  mkObject (variant o) (gameWorldIndex o) (position o) (velocity o) a
           (radius o) (geometry o) (timesWarped o).
Definition with_radius (r : Q) (o : GameWorldObject) :=
  mkObject (variant o) (gameWorldIndex o) (position o) (velocity o) (angle o)
           r (geometry o) (timesWarped o).
Definition with_geometry (g : list Vector) (o : GameWorldObject) :=
  mkObject (variant o) (gameWorldIndex o) (position o) (velocity o) (angle o)
           (radius o) g (timesWarped o).
Definition with_timesWarped (n : Z) (o : GameWorldObject) :=
  mkObject (variant o) (gameWorldIndex o) (position o) (velocity o) (angle o)
           (radius o) (geometry o) n.

(** *** rotate, setAngle, setPosition *)

(** [GameWorldObject.prototype.rotate] *)
Definition rotate (degrees : jsval) (this : GameWorldObject) : GameWorldObject :=
  match degrees with
  | JNum d =>
      let a := angle this + d in
      if Qgeb a 360 then with_angle (js_rem a 360) this
      else if Qltb a 0 then with_angle (a + 360) this
      else with_angle a this
  | _ => this
  end.

(** [GameWorldObject.prototype.setAngle] *)
Definition setAngle (a : jsval) (this : GameWorldObject) : GameWorldObject :=
  match a with
  | JNum q => with_angle q this
  | _ => this
  end.

(** [GameWorldObject.prototype.setPosition], on the position object.
    The first branch copies [x.x] and [x.y] without looking at them. *)
Definition setPosition (x y : jsval) (pos : jsVector) : option jsVector :=
  if String.eqb (typeof x) "object" && is_nullish y then
    xx ← get_prop x "x";
    xy ← get_prop x "y";
    Some (mkJsVector xx xy)
  else if String.eqb (typeof x) "number" && String.eqb (typeof y) "number" then
    Some (mkJsVector x y)
  else Some pos.

(** *** update: advance by the velocity and wrap around the canvas *)

Record Host := mkHost {
  canvas_width : Q;
  canvas_height : Q;
  keysDown : list Z;
  Date_now : Q;
  Math_random : nat -> Q;
  sin_turns : Q -> Q;
  cos_turns : Q -> Q
}.

Definition shift_X (d : Q) (v : Vector) : Vector := mkVector (X v + d) (Y v).
Definition shift_Y (d : Q) (v : Vector) : Vector := mkVector (X v) (Y v + d).

(** The horizontal half of [GameWorldObject.prototype.update]. *)
Definition update_x (h : Host) (this : GameWorldObject) : GameWorldObject :=
  let px := X (position this) + X (velocity this) in
  let this := with_position (mkVector px (Y (position this))) this in
  if Qgtb px (canvas_width h) then
    with_timesWarped (timesWarped this + 1)
      (with_geometry (map (shift_X (- (canvas_width h - 1))) (geometry this))
         (with_position (mkVector (px - (canvas_width h - 1)) (Y (position this))) this))
  else if Qltb px 0 then
    with_timesWarped (timesWarped this + 1)
      (with_geometry (map (shift_X (canvas_width h - 1)) (geometry this))
         (with_position (mkVector (px + (canvas_width h - 1)) (Y (position this))) this))
  else this.

(** The vertical half. *)
Definition update_y (h : Host) (this : GameWorldObject) : GameWorldObject :=
  let py := Y (position this) + Y (velocity this) in
  let this := with_position (mkVector (X (position this)) py) this in
  if Qgtb py (canvas_height h) then
    with_timesWarped (timesWarped this + 1)
      (with_geometry (map (shift_Y (- (canvas_height h - 1))) (geometry this))
         (with_position (mkVector (X (position this)) (py - (canvas_height h - 1))) this))
  else if Qltb py 0 then
    with_timesWarped (timesWarped this + 1)
      (with_geometry (map (shift_Y (canvas_height h - 1)) (geometry this))
         (with_position (mkVector (X (position this)) (py + (canvas_height h - 1))) this))
  else this.

(** [GameWorldObject.prototype.update] *)
Definition GameWorldObject_update (h : Host) (this : GameWorldObject) : GameWorldObject :=
  let this := update_y h (update_x h this) in
  with_geometry
    (map (fun g => mkVector (X g + X (velocity this)) (Y g + Y (velocity this)))
         (geometry this))
    this.

(** ** The GameWorld module: object store, registry, score, scene *)

Record GameWorld := mkWorld {
  heap : list GameWorldObject;      (* every object allocated so far *)
  gameWorldObjects : list ref;      (* the registry array *)
  gameState : GameState;
  score : Z;
  ship : ref;                       (* [var ship] *)
  randomCalls : nat                 (* calls to [Math.random] so far *)
}.

Definition with_heap (hp : list GameWorldObject) (w : GameWorld) :=
  mkWorld hp (gameWorldObjects w) (gameState w) (score w) (ship w) (randomCalls w).
Definition with_gameWorldObjects (l : list ref) (w : GameWorld) :=
  mkWorld (heap w) l (gameState w) (score w) (ship w) (randomCalls w).
Definition with_score (s : Z) (w : GameWorld) :=
  mkWorld (heap w) (gameWorldObjects w) (gameState w) s (ship w) (randomCalls w).
Definition with_randomCalls (n : nat) (w : GameWorld) :=
  mkWorld (heap w) (gameWorldObjects w) (gameState w) (score w) (ship w) n.

(** [GameWorld.setGameState] *)
Definition setGameState (s : GameState) (w : GameWorld) :=
  mkWorld (heap w) (gameWorldObjects w) s (score w) (ship w) (randomCalls w).

(** [GameWorld.addToScore], called with one of the [AsteroidScore]s. *)
Definition addToScore (points : Z) (w : GameWorld) : GameWorld :=
  with_score (score w + points) w.

(** [Math.random()] *)
Definition random (h : Host) (w : GameWorld) : Q * GameWorld :=
  (Math_random h (randomCalls w), with_randomCalls (S (randomCalls w)) w).

(** Allocation of a fresh object; its reference is the next free slot. *)
Definition alloc (o : GameWorldObject) (w : GameWorld) : ref * GameWorld :=
  (length (heap w), with_heap (heap w ++ [o]) w).

(** [GameWorld.getObjects().push(r)] *)
Definition push (r : ref) (w : GameWorld) : GameWorld :=
  with_gameWorldObjects (gameWorldObjects w ++ [r]) w.

(** [GameWorld.getObjects().push(o)] for an object [o] just built. *)
Definition add_object (o : GameWorldObject) (w : GameWorld) : GameWorld :=
  let (r, w) := alloc o w in push r w.

(** In-place mutation of the object behind a reference. *)
Definition modify (r : ref) (f : GameWorldObject -> GameWorldObject)
    (w : GameWorld) : GameWorld :=
  with_heap (alter f r (heap w)) w.

(** *** The base constructor and destroy *)

(** [GameWorldObject(position, velocity, angle, radius)]: the index is
    the registry length at construction time; [radius || 15]. *)
Definition new_GameWorldObject (w : GameWorld) (v : Variant)
    (pos vel : Vector) (ang rad : Q) : GameWorldObject :=
  mkObject v (Z.of_nat (length (gameWorldObjects w))) pos vel ang
           (if Qeq_bool rad 0 then 15 else rad) [] 0.

Definition decrement_index (o : GameWorldObject) : GameWorldObject :=
  with_gameWorldIndex (gameWorldIndex o - 1) o.

(** [GameWorldObject.prototype.destroy]: [splice(this.gameWorldIndex, 1)],
    then one decrement for every entry from that slot on.  With a
    negative index the loop reads [gameWorldObjects[i]] at a negative
    [i], which is [undefined], and the decrement throws. *)
Definition destroy (this : ref) (w : GameWorld) : option GameWorld :=
  o ← heap w !! this;
  let idx := gameWorldIndex o in
  if (idx <? 0)%Z then None
  else
    let objs := delete (Z.to_nat idx) (gameWorldObjects w) in
    Some (with_heap
            (foldl (fun hp r => alter decrement_index r hp) (heap w)
                   (drop (Z.to_nat idx) objs))
            (with_gameWorldObjects objs w)).

(** *** Ship *)

(** [new Ship(position, velocity, angle, radius)] *)
Definition new_Ship (h : Host) (w : GameWorld) (pos vel : Vector)
    (ang rad : Q) : GameWorldObject :=
  let fire_rate := 2 # 10 in
  let settings :=
    mkShipSettings (4 # 10) 5 (8 # 1000) fire_rate
                   (Date_now h - fire_rate * 1000) 10 in
  let this := new_GameWorldObject w (Ship settings) pos vel ang rad in
  let r := radius this in
  with_geometry
    [ new_Vector (X pos + r) (Y pos);
      new_Vector (X pos - r) (Y pos + (r * 3) / 4);
      new_Vector (X pos - r / 2) (Y pos);
      new_Vector (X pos - r) (Y pos - (r * 3) / 4) ]
    this.

(** [new Bullet(position, angle)]; [(-Math.PI * angle) / 180] radians
    are [-angle / 360] turns. *)
Definition new_Bullet (h : Host) (w : GameWorld) (pos : Vector) (ang : Q)
    : GameWorldObject :=
  let max_velocity := 11 in
  let vel := new_Vector (cos_turns h (- ang / 360) * max_velocity)
                        (sin_turns h (- ang / 360) * max_velocity) in
  let this := new_GameWorldObject w (Bullet max_velocity) pos vel ang 3 in
  with_geometry [new_Vector (X pos) (Y pos)] this.

(** [Ship.prototype.accelerate()], called without an angle. *)
Definition accelerate (h : Host) (this : GameWorldObject) : GameWorldObject :=
  match variant this with
  | Ship s =>
      let v := velocity this in
      if sqrt_lt (X v * X v + Y v * Y v) (maxVelocity s) then
        with_velocity
          (mkVector (X v + cos_turns h (angle this / 360) * acceleration s)
                    (Y v - sin_turns h (angle this / 360) * acceleration s))
          this
      else this
  | _ => this
  end.

Definition set_lastFired (t : Q) (this : GameWorldObject) : GameWorldObject :=
  match variant this with
  | Ship s =>
      with_variant
        (Ship (mkShipSettings (acceleration s) (rotationSpeed s) (friction s)
                              (fireRate s) t (maxVelocity s)))
        this
  | _ => this
  end.

(** [Ship.prototype.fire] *)
Definition fire (h : Host) (this : ref) (w : GameWorld) : option GameWorld :=
  o ← heap w !! this;
  match variant o with
  | Ship s =>
      if negb (Qeq_bool (lastFired s) 0)
         && Qgtb (Date_now h - lastFired s) (fireRate s * 1000) then
        let b := new_Bullet h w (new_Vector (X (position o)) (Y (position o)))
                            (angle o) in
        Some (modify this (set_lastFired (Date_now h)) (add_object b w))
      else Some w
  | _ => None
  end.

(** *** Asteroid *)

Definition granularity : nat := 20.

(** One round of the outline loop of the [Asteroid] constructor, for the
    [k]-th slice: two draws, a new [this.radius], one more vertex.  The
    angle [ang + angleVaryRadians - Math.PI / granularity] is, in turns,
    [k/20 + angleVaryPc/2000 - 1/40]. *)
Definition outline_step (h : Host) (minRadius maxRadius : Q)
    (st : GameWorldObject * GameWorld) (k : nat) : GameWorldObject * GameWorld :=
  let (this, w) := st in
  let (angleVaryPc, w) := random h w in
  let angleFinal :=
    inject_Z (Z.of_nat k) / 20 + angleVaryPc / 2000 - 1 / 40 in
  let (u, w) := random h w in
  let r := Math_floor (u * (maxRadius - minRadius)) + minRadius in
  let this := with_radius r this in
  let vx := sin_turns h angleFinal * r in
  let vy := - cos_turns h angleFinal * r in
  (with_geometry
     (geometry this ++ [new_Vector (X (position this) + vx) (Y (position this) + vy)])
     this, w).

(** [new Asteroid(position, velocity, angle, radius)] *)
Definition new_Asteroid (h : Host) (w : GameWorld) (pos vel : Vector)
    (ang rad : Q) : GameWorldObject * GameWorld :=
  let (u, w) := random h w in
  let this := new_GameWorldObject w (Asteroid (u * 8 - 4)) pos vel ang rad in
  let minRadius := (radius this * 3) / 4 in
  let maxRadius := rad in
  foldl (outline_step h minRadius maxRadius) (this, w) (seq 0 granularity).

Arguments new_Asteroid : simpl never.

(** One round of the spawning loops of [explode]. *)
Definition spawn_child (h : Host) (t : Tier) (this : ref) (w : GameWorld)
    : option GameWorld :=
  let (u1, w) := random h w in
  let vx := u1 * AsteroidMaxVelocity t - AsteroidMaxVelocity t / 2 in
  let (u2, w) := random h w in
  let vy := u2 * AsteroidMaxVelocity t - AsteroidMaxVelocity t / 2 in
  o ← heap w !! this;
  let (child, w) :=
    new_Asteroid h w (new_Vector (X (position o)) (Y (position o)))
                 (new_Vector vx vy) 0 (AsteroidRadius t) in
  Some (add_object child w).

Definition spawn_children (h : Host) (t : Tier) (this : ref) (w : GameWorld)
    : option GameWorld :=
  w ← spawn_child h t this w;
  w ← spawn_child h t this w;
  spawn_child h t this w.

(** [Asteroid.prototype.explode] *)
Definition explode (h : Host) (this : ref) (w : GameWorld) : option GameWorld :=
  o ← heap w !! this;
  w ← (if Qgeb (radius o) (AsteroidRadius MEDIUM) then
         spawn_children h MEDIUM this w
       else if Qgeb (radius o) (AsteroidRadius SMALL) then
         spawn_children h SMALL this w
       else Some w);
  destroy this w.

(** *** Collision test and the per-variant update methods *)

(** [distanceApart < this.radius * 0.9 + asteroid.radius * 0.9] *)
Definition collides (this asteroid : GameWorldObject) : bool :=
  let dx := X (position this) - X (position asteroid) in
  let dy := Y (position this) - Y (position asteroid) in
  sqrt_lt (dx * dx + dy * dy)
          (radius this * (9 # 10) + radius asteroid * (9 # 10)).

(** The scan [for (i = 0; i < gameWorldObjects.length; i++)] shared by
    [Ship.prototype.update] and [Bullet.prototype.update], up to the
    first asteroid for which [collision] becomes true. *)
Fixpoint first_collision (w : GameWorld) (this : GameWorldObject)
    (rs : list ref) : option (option ref) :=
  match rs with
  | [] => Some None
  | r :: rs =>
      a ← heap w !! r;
      if instanceof_Asteroid a && collides this a then Some (Some r)
      else first_collision w this rs
  end.

Definition store (r : ref) (o : GameWorldObject) (w : GameWorld) : GameWorld :=
  with_heap (<[r := o]> (heap w)) w.

Definition apply_friction (f : Q) (this : GameWorldObject) : GameWorldObject :=
  let v := velocity this in
  with_velocity (mkVector (X v - X v * f) (Y v - Y v * f)) this.

(** [Ship.prototype.update]; only ships are dispatched to it. *)
Definition Ship_update (h : Host) (this : ref) (w : GameWorld) : option GameWorld :=
  o ← heap w !! this;
  match variant o with
  | Ship s =>
      let o := apply_friction (friction s) (GameWorldObject_update h o) in
      let w := store this o w in
      hit ← first_collision w o (gameWorldObjects w);
      match hit with
      | Some _ => Some (setGameState GAME_OVER_SCENE w)
      | None => Some w
      end
  | _ => None
  end.

(** The points for a hit, as in the [if] cascade of [Bullet.prototype.update]. *)
Definition hit_points (asteroid : GameWorldObject) : Z :=
  if Qgtb (radius asteroid) (AsteroidRadius MEDIUM) then AsteroidScore LARGE
  else if Qgtb (radius asteroid) (AsteroidRadius SMALL) then AsteroidScore MEDIUM
  else AsteroidScore SMALL.

(** The collision branch of [Bullet.prototype.update]. *)
Definition resolve_hit (h : Host) (this asteroid : ref) (w : GameWorld)
    : option GameWorld :=
  w ← explode h asteroid w;
  a ← heap w !! asteroid;
  destroy this (addToScore (hit_points a) w).

(** [Bullet.prototype.update] *)
Definition Bullet_update (h : Host) (this : ref) (w : GameWorld) : option GameWorld :=
  o ← heap w !! this;
  let o := GameWorldObject_update h o in
  let w := store this o w in
  hit ← first_collision w o (gameWorldObjects w);
  w ← match hit with
      | Some asteroid => resolve_hit h this asteroid w
      | None => Some w
      end;
  o ← heap w !! this;
  if (1 <=? timesWarped o)%Z then destroy this w else Some w.

(** [Asteroid.prototype.update]; only asteroids are dispatched to it. *)
Definition Asteroid_update (h : Host) (this : ref) (w : GameWorld) : option GameWorld :=
  o ← heap w !! this;
  match variant o with
  | Asteroid rotation =>
      Some (store this (rotate (JNum rotation) (GameWorldObject_update h o)) w)
  | _ => None
  end.

(** [gameWorldObjects[i].update()], dispatched on the prototype. *)
Definition update (h : Host) (this : ref) (w : GameWorld) : option GameWorld :=
  o ← heap w !! this;
  match variant o with
  | Ship _ => Ship_update h this w
  | Bullet _ => Bullet_update h this w
  | Asteroid _ => Asteroid_update h this w
  end.

(** *** The simulation step *)

Definition key_down (code : Z) (h : Host) : bool :=
  existsb (Z.eqb code) (keysDown h).

(** [handleUserInput(timeRegulationModifier)]; key codes 37 and 39 turn,
    38 thrusts, 32 fires.  The sounds are left out. *)
Definition handleUserInput (h : Host) (timeRegulationModifier : Q)
    (w : GameWorld) : option GameWorld :=
  o ← heap w !! ship w;
  match variant o with
  | Ship s =>
      let turn := rotationSpeed s * timeRegulationModifier * 100 in
      let w :=
        if key_down 37 h then modify (ship w) (rotate (JNum turn)) w
        else if key_down 39 h then modify (ship w) (rotate (JNum (- turn))) w
        else w in
      let w := if key_down 38 h then modify (ship w) (accelerate h) w else w in
      if key_down 32 h then fire h (ship w) w else Some w
  | _ => None
  end.

(** [isWinConditionMet] *)
Fixpoint isWinConditionMet_from (w : GameWorld) (rs : list ref) : option bool :=
  match rs with
  | [] => Some true
  | r :: rs =>
      o ← heap w !! r;
      if instanceof_Asteroid o then Some false else isWinConditionMet_from w rs
  end.

Definition isWinConditionMet (w : GameWorld) : option bool :=
  isWinConditionMet_from w (gameWorldObjects w).

(** How a run of the per-tick loop can end in the model. *)
Inductive outcome (A : Type) :=
| Done (a : A)
| Thrown
| OutOfFuel.
Arguments Done {A} a.
Arguments Thrown {A}.
Arguments OutOfFuel {A}.

(** The loop [for (i = 0; i < gameWorldObjects.length; i++)
    gameWorldObjects[i].update()] from slot [i] on.  The length is read
    again before every round.  Next to the final world the loop reports
    the references whose [update] it invoked, in order. *)
Fixpoint updateLoop (h : Host) (fuel : nat) (i : nat) (w : GameWorld)
    : outcome (GameWorld * list ref) :=
  match gameWorldObjects w !! i with
  | None => Done (w, [])
  | Some r =>
      match fuel with
      | O => OutOfFuel
      | S fuel =>
          match update h r w with
          | None => Thrown
          | Some w =>
              match updateLoop h fuel (S i) w with
              | Done (w, visited) => Done (w, r :: visited)
              | Thrown => Thrown
              | OutOfFuel => OutOfFuel
              end
          end
      end
  end.

(** Rounds that always suffice for a registry of the given length. *)
Definition loop_fuel (w : GameWorld) : nat := 4 * length (gameWorldObjects w).

(** [updateGameWorld(timeRegulationModifier)] *)
Definition updateGameWorld (h : Host) (timeRegulationModifier : Q)
    (w : GameWorld) : outcome (GameWorld * list ref) :=
  match handleUserInput h timeRegulationModifier w with
  | None => Thrown
  | Some w =>
      match updateLoop h (loop_fuel w) 0 w with
      | Done (w, visited) =>
          match isWinConditionMet w with
          | None => Thrown
          | Some true => Done (setGameState WIN_LEVEL_SCENE w, visited)
          | Some false => Done (w, visited)
          end
      | Thrown => Thrown
      | OutOfFuel => OutOfFuel
      end
  end.


(** ** pointInPolygon *)

(** The guard of the loop body of [pointInPolygon]: the edge from
    [vj] to [vi] spans the row of the point, and one of its ends is not
    to the right of the point. *)
Definition edge_in_reach (vi vj point : Vector) : bool :=
  ((Qltb (Y vi) (Y point) && Qgeb (Y vj) (Y point))
   || (Qltb (Y vj) (Y point) && Qgeb (Y vi) (Y point)))
  && (Qgeb (X point) (X vi) || Qgeb (X point) (X vj)).

(** The comparison xor-ed into [oddNodes]: the edge meets the row of
    the point to the left of the point. *)
Definition edge_left_of (vi vj point : Vector) : bool :=
  Qltb (X vi + ((Y point - Y vi) / (Y vj - Y vi)) * (X vj - X vi)) (X point).

(** The loop of [pointInPolygon] over the remaining vertices, [vj]
    being [objectGeometry[j]]. *)
Fixpoint pointInPolygon_from (point : Vector) (rest : list Vector)
    (vj : Vector) (oddNodes : bool) : bool :=
  match rest with
  | [] => oddNodes
  | vi :: rest =>
      pointInPolygon_from point rest vi
        (if edge_in_reach vi vj point
         then xorb oddNodes (edge_left_of vi vj point)
         else oddNodes)
  end.

(** [pointInPolygon(point, objectGeometry)]; the result, [false] or a
    number 0 or 1 in the source, is read as a truth value.  [j] starts
    at the last vertex. *)
Definition pointInPolygon (point : Vector) (objectGeometry : list Vector) : bool :=
  match last objectGeometry with
  | None => false
  | Some vj => pointInPolygon_from point objectGeometry vj false
  end.

(** ** Keyboard state *)

Record KeyEvent := mkKeyEvent { keyCode : Z; which : Z }.

Definition with_keysDown (keys : list Z) (h : Host) : Host :=
  mkHost (canvas_width h) (canvas_height h) keys (Date_now h)
         (Math_random h) (sin_turns h) (cos_turns h).

(** [keysDown[event.keyCode] = true] *)
Definition press (code : Z) (h : Host) : Host :=
  with_keysDown (code :: keysDown h) h.

(** The [keyup] listener: [delete keysDown[event.keyCode]] *)
Definition onKeyUp (ev : KeyEvent) (h : Host) : Host :=
  with_keysDown (filter (fun k => k <> keyCode ev) (keysDown h)) h.

(** ** Levels: clearing the registry, placing asteroids, scenes *)

(** The module state next to the world: [currentLevel] and [then]. *)
Record Session := mkSession {
  world : GameWorld;
  currentLevel : Z;
  then_ : Q
}.

Definition with_ship (r : ref) (w : GameWorld) : GameWorld :=
  mkWorld (heap w) (gameWorldObjects w) (gameState w) (score w) r (randomCalls w).

(** [while (gameWorldObjects.length > 0) gameWorldObjects[0].destroy()] *)
Fixpoint destroy_all (fuel : nat) (w : GameWorld) : outcome GameWorld :=
  match gameWorldObjects w with
  | [] => Done w
  | r :: _ =>
      match fuel with
      | O => OutOfFuel
      | S fuel =>
          match destroy r w with
          | None => Thrown
          | Some w => destroy_all fuel w
          end
      end
  end.

(** [resetGame]; the overlays are left out. *)
Definition resetGame (fuel : nat) (s : Session) : outcome Session :=
  match destroy_all fuel (world s) with
  | Done w =>
      Done (mkSession (setGameState TITLE_SCREEN_SCENE (with_score 0 w)) 1 (then_ s))
  | Thrown => Thrown
  | OutOfFuel => OutOfFuel
  end.

(** The distance test of [generateAsteroids] against one object. *)
Definition too_close (px py : Q) (o : GameWorldObject) : bool :=
  let dx := px - X (position o) in
  let dy := py - Y (position o) in
  sqrt_lt (dx * dx + dy * dy) (AsteroidRadius LARGE * 4).

(** The inner [for] of [generateAsteroids]: whether some object of the
    registry is too close, stopping at the first. *)
Fixpoint placement_too_close (w : GameWorld) (px py : Q) (rs : list ref)
    : option bool :=
  match rs with
  | [] => Some false
  | r :: rs =>
      o ← heap w !! r;
      if too_close px py o then Some true else placement_too_close w px py rs
  end.

(** The [while] of [generateAsteroids], entered with [numRetries] at
    [99 - more]: draw a position, and draw again while it is too close
    and fewer than 100 draws have failed.  The result tells whether the
    loop gave up with a position that is too close. *)
Fixpoint choose_placement (h : Host) (more : nat) (w : GameWorld)
    : option (Q * Q * bool * GameWorld) :=
  let (u1, w) := random h w in
  let px := u1 * canvas_width h in
  let (u2, w) := random h w in
  let py := u2 * canvas_height h in
  tooClose ← placement_too_close w px py (gameWorldObjects w);
  if (tooClose : bool) then
    match more with
    | O => Some (px, py, true, w)
    | S more => choose_placement h more w
    end
  else Some (px, py, false, w).

(** One round of the outer [for] of [generateAsteroids]. *)
Definition generateAsteroid (h : Host) (w : GameWorld) : option (GameWorld * bool) :=
  placed ← choose_placement h 99 w;
  let '(px, py, gave_up, w) := placed in
  let (u1, w) := random h w in
  let vx := u1 * AsteroidMaxVelocity LARGE - AsteroidMaxVelocity LARGE / 2 in
  let (u2, w) := random h w in
  let vy := u2 * AsteroidMaxVelocity LARGE - AsteroidMaxVelocity LARGE / 2 in
  let (a, w) :=
    new_Asteroid h w (new_Vector px py) (new_Vector vx vy) 0 (AsteroidRadius LARGE) in
  Some (add_object a w, gave_up).

Fixpoint generate_rounds (h : Host) (n : nat) (w : GameWorld)
    : option (GameWorld * list bool) :=
  match n with
  | O => Some (w, [])
  | S n =>
      step ← generateAsteroid h w;
      rest ← generate_rounds h n (fst step);
      Some (fst rest, snd step :: snd rest)
  end.

(** [generateAsteroids(numAsteroids)] with an integer argument; next to
    the world it reports, per asteroid, whether the placement gave up. *)
Definition generateAsteroids (h : Host) (numAsteroids : Z) (w : GameWorld)
    : option (GameWorld * list bool) :=
  generate_rounds h (Z.to_nat (if (numAsteroids =? 0)%Z then 5%Z else numAsteroids)) w.

(** [initializeGameWorldObjects] *)
Definition initializeGameWorldObjects (fuel : nat) (h : Host) (s : Session)
    : outcome (Session * list bool) :=
  match destroy_all fuel (world s) with
  | Done w =>
      let o := new_Ship h w (new_Vector (canvas_width h / 2) (canvas_height h / 2))
                        (new_Vector 0 0) 90 20 in
      let (r, w) := alloc o w in
      let w := push r (with_ship r w) in
      match generateAsteroids h (currentLevel s) w with
      | Some (w, gave_up) => Done (mkSession w (currentLevel s) (then_ s), gave_up)
      | None => Thrown
      end
  | Thrown => Thrown
  | OutOfFuel => OutOfFuel
  end.

(** What a call of [playMainLevelScene] does besides changing the state. *)
Inductive FrameAction :=
| RequestsNextFrame
| ShowsGameOver
| ShowsLevelReady
| DoesNothing.

(** [playMainLevelScene]; rendering is left out. *)
Definition playMainLevelScene (h : Host) (s : Session)
    : outcome (Session * FrameAction) :=
  match gameState (world s) with
  | MAIN_LEVEL_SCENE =>
      let now := Date_now h in
      let delta := now - then_ s in
      match updateGameWorld h (delta / 1000) (world s) with
      | Done (w, _) => Done (mkSession w (currentLevel s) now, RequestsNextFrame)
      | Thrown => Thrown
      | OutOfFuel => OutOfFuel
      end
  | GAME_OVER_SCENE => Done (s, ShowsGameOver)
  | WIN_LEVEL_SCENE => Done (s, ShowsLevelReady)
  | _ => Done (s, DoesNothing)
  end.

(** [startGame] *)
Definition startGame (fuel : nat) (h : Host) (s : Session)
    : outcome (Session * FrameAction) :=
  let s := mkSession (setGameState MAIN_LEVEL_SCENE (world s))
                     (currentLevel s) (then_ s) in
  match initializeGameWorldObjects fuel h s with
  | Done (s, _) => playMainLevelScene h s
  | Thrown => Thrown
  | OutOfFuel => OutOfFuel
  end.

(** [playNextLevel] *)
Definition playNextLevel (fuel : nat) (h : Host) (s : Session)
    : outcome (Session * FrameAction) :=
  startGame fuel h (mkSession (world s) (currentLevel s + 1) (then_ s)).

Definition which_is (ev : KeyEvent) (a b : Z) : bool :=
  (which ev =? a)%Z || (which ev =? b)%Z.

Definition forget_action (r : outcome (Session * FrameAction)) : outcome Session :=
  match r with
  | Done (s, _) => Done s
  | Thrown => Thrown
  | OutOfFuel => OutOfFuel
  end.

(** The [keydown] listener.  Enter acts on the scene, [f] toggles the
    full screen (left out), [p] calls [pauseGame], which the file does
    not define, so the call throws, and [r] resets. *)
Definition onKeyDown (fuel : nat) (ev : KeyEvent) (h : Host) (s : Session)
    : outcome (Host * Session) :=
  let h := press (keyCode ev) h in
  let after_enter :=
    if (which ev =? 13)%Z then
      match gameState (world s) with
      | TITLE_SCREEN_SCENE => forget_action (startGame fuel h s)
      | MAIN_LEVEL_SCENE => Done s
      | GAME_OVER_SCENE => resetGame fuel s
      | WIN_LEVEL_SCENE => forget_action (playNextLevel fuel h s)
      | CREDITS_SCENE => resetGame fuel s
      end
    else Done s in
  match after_enter with
  | Done s =>
      if which_is ev 80 112 then Thrown
      else if which_is ev 82 114 then
        match resetGame fuel s with
        | Done s => Done (h, s)
        | Thrown => Thrown
        | OutOfFuel => OutOfFuel
        end
      else Done (h, s)
  | Thrown => Thrown
  | OutOfFuel => OutOfFuel
  end.
(** ** A concrete host for the worked scenarios *)

Definition frac (t : Q) : Q := t - inject_Z (Qfloor t).

(** Bhaskara's rational approximation of the sine of a half turn. *)
Definition bhaskara (t : Q) : Q :=
  let d := 360 * t in
  4 * d * (180 - d) / (40500 - d * (180 - d)).

Definition approx_sin_turns (t : Q) : Q :=
  let t := frac t in
  if Qltb (1 # 2) t then - bhaskara (t - (1 # 2)) else bhaskara t.

Definition approx_cos_turns (t : Q) : Q := approx_sin_turns (t + (1 # 4)).

(** An 800 by 600 canvas, no key held, every random draw one half. *)
Definition quiet_host : Host :=
  mkHost 800 600 [] 1000000 (fun _ => 1 # 2) approx_sin_turns approx_cos_turns.

Definition default_ship : Variant :=
  Ship (mkShipSettings (4 # 10) 5 (8 # 1000) (2 # 10) 999800 10).

(** An object at rest angle with an empty outline. *)
Definition object_at (v : Variant) (i : Z) (px py vx vy r : Q) : GameWorldObject :=
  mkObject v i (mkVector px py) (mkVector vx vy) 0 r [] 0.

(** ** Vocabulary of the statements *)

(** The coordinate [p] (already advanced by the velocity) after the edge
    handling on an axis of length [edge]. *)
Definition wrapped (p edge : Q) : Q :=
  if Qgtb p edge then p - (edge - 1)
  else if Qltb p 0 then p + (edge - 1)
  else p.

(** Whether the advanced coordinate [p] lies beyond an edge of the axis. *)
Definition beyond_edge (p edge : Q) : bool := Qgtb p edge || Qltb p 0.

(** Number of axes on which one call of [update] wraps the object. *)
Definition axes_crossed (h : Host) (this : GameWorldObject) : Z :=
  ((if beyond_edge (X (position this) + X (velocity this)) (canvas_width h)
    then 1 else 0)
   + (if beyond_edge (Y (position this) + Y (velocity this)) (canvas_height h)
      then 1 else 0))%Z.

(** The radius an asteroid is left with by its constructor when called
    with the nominal radius of tier [t]: the last outline vertex's
    radius, from the draw [u]. *)
Definition tier_radius (t : Tier) (u : Q) : Q :=
  let minRadius := (AsteroidRadius t * 3) / 4 in
  Math_floor (u * (AsteroidRadius t - minRadius)) + minRadius.

(** An object whose radius is the one a [t]-tier constructor call leaves. *)
Definition built_at_tier (o : GameWorldObject) (t : Tier) : Prop :=
  exists u, 0 <= u /\ u < 1 /\ radius o == tier_radius t u.


(** Every entry of the registry holds an object whose [gameWorldIndex]
    is the entry's slot. *)
Definition well_indexed (w : GameWorld) : Prop :=
  forall (i : nat) (r : ref),
    gameWorldObjects w !! i = Some r ->
    exists o, heap w !! r = Some o /\ gameWorldIndex o = Z.of_nat i.

(** The draws of [Math.random] lie in [0, 1). *)
Definition random_in_unit (h : Host) : Prop :=
  forall n, 0 <= Math_random h n /\ Math_random h n < 1.

Definition alter_all (f : GameWorldObject -> GameWorldObject)
    (hp : list GameWorldObject) (l : list ref) : list GameWorldObject :=
  foldl (fun hp r => alter f r hp) hp l.

(** [evolves w w']: the store only grows, old objects keep their variant
    and radius, objects allocated in between are not bullets, and the
    registry of [w'] is a sublist of the old registry followed by the
    references allocated in between. *)
Definition evolves (w w' : GameWorld) : Prop :=
  (length (heap w) <= length (heap w'))%nat
  /\ gameWorldObjects w'
     `sublist_of` gameWorldObjects w
                  ++ seq (length (heap w)) (length (heap w') - length (heap w))
  /\ (forall r o, heap w !! r = Some o ->
        exists o', heap w' !! r = Some o'
                   /\ variant o' = variant o /\ radius o' = radius o)
  /\ (forall r o', (length (heap w) <= r)%nat -> heap w' !! r = Some o' ->
        instanceof_Bullet o' = false).

(** What [explode] promises of a child of tier [t] spawned by [o]. *)
Definition child_of (h : Host) (t : Tier) (o c : GameWorldObject) : Prop :=
  instanceof_Asteroid c = true
  /\ position c = position o
  /\ angle c = 0
  /\ (random_in_unit h -> built_at_tier c t).

(** [w] is [w0] after [n] rounds of a spawning loop of [explode]. *)
Definition spawned (h : Host) (t : Tier) (o : GameWorldObject)
    (w0 w : GameWorld) (n : nat) : Prop :=
  exists cs,
    length cs = n
    /\ heap w = heap w0 ++ cs
    /\ gameWorldObjects w = gameWorldObjects w0 ++ seq (length (heap w0)) n
    /\ score w = score w0
    /\ gameState w = gameState w0
    /\ Forall (child_of h t o) cs
    /\ (forall j c, cs !! j = Some c ->
          gameWorldIndex c = Z.of_nat (length (gameWorldObjects w0) + j)).

(** [o'] is [o] up to its [gameWorldIndex]. *)
Definition same_but_index (o o' : GameWorldObject) : Prop :=
  with_gameWorldIndex (gameWorldIndex o) o' = o.

(** How many children [explode] spawns for [o], and of which tier. *)
Definition children_count (o : GameWorldObject) : nat :=
  if Qgeb (radius o) (AsteroidRadius MEDIUM) then 3
  else if Qgeb (radius o) (AsteroidRadius SMALL) then 3
  else 0.

Definition children_tier (o : GameWorldObject) : Tier :=
  if Qgeb (radius o) (AsteroidRadius MEDIUM) then MEDIUM else SMALL.

(** A decision procedure for [well_indexed], for concrete worlds. *)
Fixpoint well_indexed_from (w : GameWorld) (i : nat) (rs : list nat) : bool :=
  match rs with
  | [] => true
  | r :: rs =>
      match heap w !! r with
      | Some o => (gameWorldIndex o =? Z.of_nat i)%Z
      | None => false
      end && well_indexed_from w (S i) rs
  end.

(** A large rock, a bullet about to hit it, and a second rock far away. *)
Definition rock (t : Tier) (i : Z) (px py vx vy : Q) : GameWorldObject :=
  object_at (Asteroid 1) i px py vx vy (tier_radius t (1 # 2)).

Definition busy_world : GameWorld :=
  mkWorld [ object_at default_ship 0 400 300 0 0 20;
            rock LARGE 1 100 100 0 0;
            object_at (Bullet 11) 2 109 100 11 0 3;
            rock LARGE 3 600 500 1 1 ]
          [0; 1; 2; 3]%nat MAIN_LEVEL_SCENE 0 0%nat 0.

Definition is_bullet (w : GameWorld) (r : nat) : bool :=
  match heap w !! r with
  | Some o => instanceof_Bullet o
  | None => false
  end.

Fixpoint count_bullets (w : GameWorld) (rs : list nat) : nat :=
  match rs with
  | [] => 0
  | r :: rs => (if is_bullet w r then 1 else 0) + count_bullets w rs
  end.

(** Rounds the loop may still need from slot [i] on. *)
Definition rounds_left (i : nat) (w : GameWorld) : nat :=
  (length (gameWorldObjects w) - i)
  + 3 * count_bullets w (gameWorldObjects w).

Definition wrap_hit_world : GameWorld :=
  mkWorld [ object_at default_ship 0 400 300 0 0 20;
            rock LARGE 1 20 100 0 0;
            object_at (Bullet 11) 2 795 100 11 0 3 ]
          [0; 1; 2]%nat MAIN_LEVEL_SCENE 0 0%nat 0.

Definition doomed_world : GameWorld :=
  mkWorld [ object_at default_ship 0 100 100 0 0 20;
            rock SMALL 1 110 100 0 0;
            object_at (Bullet 11) 2 104 100 11 0 3 ]
          [0; 1; 2]%nat MAIN_LEVEL_SCENE 0 0%nat 0.

Definition calm_world : GameWorld :=
  mkWorld [ object_at default_ship 0 400 300 0 0 20;
            rock LARGE 1 100 100 0 0 ]
          [0; 1]%nat MAIN_LEVEL_SCENE 0 0%nat 0.

Definition firing_host : Host :=
  mkHost 800 600 [32%Z] 1000500 (fun _ => 1 # 2)
         approx_sin_turns approx_cos_turns.


(** ** Vocabulary of the further properties *)

(** A ship and one rock of the middle tier. *)
Definition medium_world : GameWorld :=
  mkWorld [ object_at default_ship 0 400 300 0 0 20;
            rock MEDIUM 1 100 100 0 0 ]
          [0; 1]%nat MAIN_LEVEL_SCENE 0 0%nat 0.

(** The corners of an upright rectangle, in the order of its outline. *)
Definition rectangle (x0 y0 x1 y1 : Q) : list Vector :=
  [mkVector x0 y0; mkVector x1 y0; mkVector x1 y1; mkVector x0 y1].

(** What the [update] method of [o]'s prototype makes of [o] itself. *)
Definition own_update (h : Host) (o : GameWorldObject) : GameWorldObject :=
  match variant o with
  | Ship s => apply_friction (friction s) (GameWorldObject_update h o)
  | Bullet _ => GameWorldObject_update h o
  | Asteroid rotation => rotate (JNum rotation) (GameWorldObject_update h o)
  end.

(** An object as the [Asteroid] constructor leaves it when [explode]
    calls it, up to its [gameWorldIndex]. *)
Definition fresh_asteroid (h : Host) (c : GameWorldObject) : Prop :=
  exists w pos vel t,
    same_but_index (new_Asteroid h w pos vel 0 (AsteroidRadius t)).1 c.

(** [carries h w w']: from [w] to [w'] the ship reference stays, the
    score does not drop, the scene stays or becomes the game-over scene,
    every object of [w] is still there up to its index, and every object
    allocated in between is a fresh asteroid. *)
Definition carries (h : Host) (w w' : GameWorld) : Prop :=
  ship w' = ship w
  /\ (score w <= score w')%Z
  /\ (gameState w' = gameState w \/ gameState w' = GAME_OVER_SCENE)
  /\ (forall r o, heap w !! r = Some o ->
        exists o', heap w' !! r = Some o' /\ same_but_index o o')
  /\ (forall r c, (length (heap w) <= r)%nat -> heap w' !! r = Some c ->
        fresh_asteroid h c).

(** [P] holds of every object in the registry. *)
Definition registry_all (P : GameWorldObject -> Prop) (w : GameWorld) : Prop :=
  forall r o, r ∈ gameWorldObjects w -> heap w !! r = Some o -> P o.

(** The slot of the entry at slot [i] once the entry at slot [k] is gone. *)
Definition slot_after_removal (k i : nat) : nat :=
  if decide (k < i)%nat then (i - 1)%nat else i.

(** What the turn and thrust keys of [handleUserInput] make of the ship. *)
Definition steer (h : Host) (timeRegulationModifier : Q)
    (this : GameWorldObject) : GameWorldObject :=
  match variant this with
  | Ship s =>
      let turn := rotationSpeed s * timeRegulationModifier * 100 in
      let this :=
        if key_down 37 h then rotate (JNum turn) this
        else if key_down 39 h then rotate (JNum (- turn)) this
        else this in
      if key_down 38 h then accelerate h this else this
  | _ => this
  end.

(** The bullet [fire] builds for the ship [o]. *)
Definition bullet_of (h : Host) (w : GameWorld) (o : GameWorldObject)
    : GameWorldObject :=
  new_Bullet h w (new_Vector (X (position o)) (Y (position o))) (angle o).

(** The registry during play: well indexed, with the ship in slot 0. *)
Definition in_play (w : GameWorld) : Prop :=
  well_indexed w
  /\ gameWorldObjects w !! 0%nat = Some (ship w)
  /\ exists o s, heap w !! ship w = Some o /\ variant o = Ship s.

(** A bullet that has not crossed an edge. *)
Definition unwrapped_bullet (o : GameWorldObject) : Prop :=
  instanceof_Bullet o = true -> timesWarped o = 0%Z.

(** An angle in [0, 360); a ship turns at the constructor's speed and an
    asteroid by a rotation the constructor can draw. *)
Definition normalised (o : GameWorldObject) : Prop :=
  (0 <= angle o /\ angle o < 360)
  /\ match variant o with
     | Ship s => rotationSpeed s == 5
     | Bullet _ => True
     | Asteroid rotation => -4 <= rotation /\ rotation < 4
     end.

(** An asteroid has the radius of one of the three tiers. *)
Definition tiered (o : GameWorldObject) : Prop :=
  instanceof_Asteroid o = true -> exists t, built_at_tier o t.

(** Centres at least four large radii apart, the distance
    [generateAsteroids] asks for. *)
Definition far_apart (c o : GameWorldObject) : Prop :=
  let dx := X (position c) - X (position o) in
  let dy := Y (position c) - Y (position o) in
  (AsteroidRadius LARGE * 4) * (AsteroidRadius LARGE * 4) <= dx * dx + dy * dy.

(** What [generateAsteroids] makes of an asteroid it adds. *)
Definition level_asteroid (h : Host) (c : GameWorldObject) : Prop :=
  instanceof_Asteroid c = true
  /\ angle c = 0
  /\ timesWarped c = 0%Z
  /\ (random_in_unit h ->
      built_at_tier c LARGE
      /\ normalised c
      /\ (exists u v, (0 <= u /\ u < 1) /\ (0 <= v /\ v < 1)
            /\ position c = mkVector (u * canvas_width h) (v * canvas_height h))
      /\ (- (3 # 2) <= X (velocity c) /\ X (velocity c) < 3 # 2)
      /\ (- (3 # 2) <= Y (velocity c) /\ Y (velocity c) < 3 # 2)).

(** How many asteroids [generateAsteroids] adds for an argument. *)
Definition asteroids_for (numAsteroids : Z) : nat :=
  Z.to_nat (if (numAsteroids =? 0)%Z then 5%Z else numAsteroids).

(** The session [startGame] hands to [initializeGameWorldObjects]. *)
Definition in_main_level (s : Session) : Session :=
  mkSession (setGameState MAIN_LEVEL_SCENE (world s)) (currentLevel s) (then_ s).

(** The scene is one of those a frame of the main level can leave. *)
Definition level_scene (g : GameState) : Prop :=
  g = MAIN_LEVEL_SCENE \/ g = GAME_OVER_SCENE \/ g = WIN_LEVEL_SCENE.
(** * Properties *)

(** ** Comparisons *)

Lemma Qltb_true a b : Qltb a b = true <-> a < b.
Proof.
  unfold Qltb. destruct (Qlt_le_dec a b); split; intros; try done.
  exfalso. lra.
Qed.

Lemma Qltb_false a b : Qltb a b = false <-> b <= a.
Proof.
  unfold Qltb. destruct (Qlt_le_dec a b); split; intros; try done.
  exfalso. lra.
Qed.

Lemma Qgtb_true a b : Qgtb a b = true <-> b < a.
Proof. apply Qltb_true. Qed.

Lemma Qgtb_false a b : Qgtb a b = false <-> a <= b.
Proof. apply Qltb_false. Qed.

Lemma Qgeb_true a b : Qgeb a b = true <-> b <= a.
Proof. unfold Qgeb. rewrite negb_true_iff. apply Qltb_false. Qed.

Lemma Qgeb_false a b : Qgeb a b = false <-> a < b.
Proof. unfold Qgeb. rewrite negb_false_iff. apply Qltb_true. Qed.

(** Case analysis on every comparison in sight, leaving the order facts
    as hypotheses. *)
Ltac compare_cases :=
  repeat match goal with
  | |- context [Qltb ?a ?b] =>
      let E := fresh "E" in
      destruct (Qltb a b) eqn:E;
      [apply Qltb_true in E | apply Qltb_false in E]
  | |- context [Qgtb ?a ?b] =>
      let E := fresh "E" in
      destruct (Qgtb a b) eqn:E;
      [apply Qgtb_true in E | apply Qgtb_false in E]
  | |- context [Qgeb ?a ?b] =>
      let E := fresh "E" in
      destruct (Qgeb a b) eqn:E;
      [apply Qgeb_true in E | apply Qgeb_false in E]
  end.

Lemma sqrt_lt_true sq bound :
  sqrt_lt sq bound = true <-> 0 < bound /\ sq < bound * bound.
Proof.
  unfold sqrt_lt. rewrite andb_true_iff, !Qltb_true. tauto.
Qed.

(** ** The remainder operator on non-negative dividends *)



(** ** Advance and wrap *)

(** Case analysis on the four edge tests of one call of [update]. *)
Ltac edge_cases h this :=
  unfold GameWorldObject_update, update_y, update_x; simpl;
  destruct (Qgtb (X (position this) + X (velocity this)) (canvas_width h));
  [| destruct (Qltb (X (position this) + X (velocity this)) 0)]; simpl;
  (destruct (Qgtb (Y (position this) + Y (velocity this)) (canvas_height h));
   [| destruct (Qltb (Y (position this) + Y (velocity this)) 0)]); simpl.

Lemma update_position_X h this :
  X (position (GameWorldObject_update h this))
  = wrapped (X (position this) + X (velocity this)) (canvas_width h).
Proof. unfold wrapped. edge_cases h this; reflexivity. Qed.

Lemma update_position_Y h this :
  Y (position (GameWorldObject_update h this))
  = wrapped (Y (position this) + Y (velocity this)) (canvas_height h).
Proof. unfold wrapped. edge_cases h this; reflexivity. Qed.

Lemma update_timesWarped h this :
  timesWarped (GameWorldObject_update h this)
  = (timesWarped this + axes_crossed h this)%Z.
Proof. unfold axes_crossed, beyond_edge. edge_cases h this; lia. Qed.

Lemma update_keeps_variant h this :
  variant (GameWorldObject_update h this) = variant this.
Proof. edge_cases h this; reflexivity. Qed.

Lemma update_keeps_index h this :
  gameWorldIndex (GameWorldObject_update h this) = gameWorldIndex this.
Proof. edge_cases h this; reflexivity. Qed.

Lemma update_keeps_radius h this :
  radius (GameWorldObject_update h this) = radius this.
Proof. edge_cases h this; reflexivity. Qed.

(** A speed below the edge length bounds each velocity component. *)
Lemma component_below_magnitude a b edge :
  sqrt_lt (a * a + b * b) edge = true ->
  (- edge < a /\ a < edge) /\ (- edge < b /\ b < edge).
Proof.
  rewrite sqrt_lt_true. intros [Hpos Hsq]. repeat split; nra.
Qed.

Lemma wrapped_loose p v edge :
  0 <= p -> p < edge -> - edge < v -> v < edge ->
  -1 < wrapped (p + v) edge /\ wrapped (p + v) edge < edge + 1.
Proof.
  intros. unfold wrapped. compare_cases; split; lra.
Qed.

Lemma wrapped_closed p v edge :
  0 <= p -> p < edge -> - (edge - 1) <= v -> v <= edge - 1 ->
  0 <= wrapped (p + v) edge /\ wrapped (p + v) edge <= edge.
Proof.
  intros. unfold wrapped. compare_cases; split; lra.
Qed.

(** ** Rotation *)

Lemma rotate_angle d this :
  angle (rotate (JNum d) this)
  = if Qgeb (angle this + d) 360 then js_rem (angle this + d) 360
    else if Qltb (angle this + d) 0 then angle this + d + 360
    else angle this + d.
Proof.
  unfold rotate.
  repeat match goal with
         | |- context [if ?c then _ else _] => destruct c; simpl
         end; reflexivity.
Qed.

Lemma rotate_keeps_index d this :
  gameWorldIndex (rotate d this) = gameWorldIndex this.
Proof.
  unfold rotate. destruct d; try reflexivity.
  repeat match goal with
         | |- context [if ?c then _ else _] => destruct c; simpl
         end; reflexivity.
Qed.

Lemma rotate_keeps_variant d this : variant (rotate d this) = variant this.
Proof.
  unfold rotate. destruct d; try reflexivity.
  repeat match goal with
         | |- context [if ?c then _ else _] => destruct c; simpl
         end; reflexivity.
Qed.

Lemma rotate_keeps_radius d this : radius (rotate d this) = radius this.
Proof.
  unfold rotate. destruct d; try reflexivity.
  repeat match goal with
         | |- context [if ?c then _ else _] => destruct c; simpl
         end; reflexivity.
Qed.

(** ** The facing angle (claim C3) *)




(** ** Position after one advance (claim C7) *)

(** C7, as the code has it: under the claim's hypotheses each position
    component ends strictly between -1 and edge + 1, and within the
    closed interval [0, edge] when the velocity component on that axis
    is at most edge - 1 in absolute value. *)
Theorem position_after_update :
  forall (h : Host) (this : GameWorldObject),
    let v := velocity this in
    let p' := position (GameWorldObject_update h this) in
    sqrt_lt (X v * X v + Y v * Y v) (canvas_width h) = true ->
    sqrt_lt (X v * X v + Y v * Y v) (canvas_height h) = true ->
    0 <= X (position this) -> X (position this) < canvas_width h ->
    0 <= Y (position this) -> Y (position this) < canvas_height h ->
    (-1 < X p' /\ X p' < canvas_width h + 1
     /\ -1 < Y p' /\ Y p' < canvas_height h + 1)
    /\ (- (canvas_width h - 1) <= X v -> X v <= canvas_width h - 1 ->
        0 <= X p' /\ X p' <= canvas_width h)
    /\ (- (canvas_height h - 1) <= Y v -> Y v <= canvas_height h - 1 ->
        0 <= Y p' /\ Y p' <= canvas_height h).
Proof.
  intros h this v p' Hw Hh Hx0 Hx1 Hy0 Hy1. subst v p'.
  rewrite update_position_X, update_position_Y.
  apply component_below_magnitude in Hw, Hh.
  destruct Hw as [[Hw0 Hw1] _], Hh as [_ [Hh0 Hh1]].
  pose proof (wrapped_loose _ _ _ Hx0 Hx1 Hw0 Hw1) as [? ?].
  pose proof (wrapped_loose _ _ _ Hy0 Hy1 Hh0 Hh1) as [? ?].
  split; [tauto |].
  split; intros; apply wrapped_closed; assumption.
Qed.

Lemma position_after_update_witness :
  let this := object_at (Bullet 11) 0 795 300 11 0 3 in
  -1 < X (position (GameWorldObject_update quiet_host this))
  /\ X (position (GameWorldObject_update quiet_host this)) < 801.
Proof.
  intros this.
  assert (Hs : forall e, (e = 800 \/ e = 600) ->
                 sqrt_lt (X (velocity this) * X (velocity this)
                          + Y (velocity this) * Y (velocity this)) e = true).
  { intros e [-> | ->]; vm_compute; reflexivity. }
  destruct (position_after_update quiet_host this
              (Hs 800 (or_introl eq_refl)) (Hs 600 (or_intror eq_refl)))
    as [(H1 & H2 & _) _]; try (vm_compute; congruence).
  split; [exact H1 | exact H2].
Defined.

(** C7 as stated fails: a coordinate that lands exactly on the far edge
    is not wrapped (first object), and a fast object is still below
    zero after the wrap (second object). *)
Lemma position_reaches_the_edge :
  let h := quiet_host in
  let this := object_at (Bullet 11) 0 799 300 1 0 3 in
  let fast := object_at (Bullet 11) 0 400 0 0 (- (1199 # 2)) 3 in
  (sqrt_lt (X (velocity this) * X (velocity this)
            + Y (velocity this) * Y (velocity this)) (canvas_width h) = true
   /\ sqrt_lt (X (velocity this) * X (velocity this)
               + Y (velocity this) * Y (velocity this)) (canvas_height h) = true
   /\ 0 <= X (position this) /\ X (position this) < canvas_width h
   /\ 0 <= Y (position this) /\ Y (position this) < canvas_height h
   /\ ~ X (position (GameWorldObject_update h this)) < canvas_width h)
  /\ (sqrt_lt (X (velocity fast) * X (velocity fast)
               + Y (velocity fast) * Y (velocity fast)) (canvas_width h) = true
      /\ sqrt_lt (X (velocity fast) * X (velocity fast)
                  + Y (velocity fast) * Y (velocity fast)) (canvas_height h) = true
      /\ 0 <= X (position fast) /\ X (position fast) < canvas_width h
      /\ 0 <= Y (position fast) /\ Y (position fast) < canvas_height h
      /\ ~ 0 <= Y (position (GameWorldObject_update h fast))).
Proof. vm_compute. repeat split; congruence. Qed.

(** ** Wrap counting (claim C8) *)

(** C8: one call of [update] raises [timesWarped] by the number of axes
    on which the advanced coordinate lies beyond an edge (above the far
    edge or below zero), which are the axes on which the position is
    wrapped: by 0 when there is none, by 1 when there is exactly one,
    by 2 when both axes wrap. *)
Theorem timesWarped_counts_axes :
  forall (h : Host) (this : GameWorldObject),
    let px := X (position this) + X (velocity this) in
    let py := Y (position this) + Y (velocity this) in
    let after := timesWarped (GameWorldObject_update h this) in
    after = (timesWarped this + axes_crossed h this)%Z
    /\ (0 <= axes_crossed h this <= 2)%Z
    /\ X (position (GameWorldObject_update h this)) = wrapped px (canvas_width h)
    /\ Y (position (GameWorldObject_update h this)) = wrapped py (canvas_height h)
    /\ (beyond_edge px (canvas_width h) = false /\
        beyond_edge py (canvas_height h) = false <->
        after = timesWarped this)
    /\ (xorb (beyond_edge px (canvas_width h))
             (beyond_edge py (canvas_height h)) = true <->
        after = (timesWarped this + 1)%Z)
    /\ (beyond_edge px (canvas_width h) = true /\
        beyond_edge py (canvas_height h) = true <->
        after = (timesWarped this + 2)%Z).
Proof.
  intros h this px py after. subst after.
  rewrite update_timesWarped, update_position_X, update_position_Y.
  unfold axes_crossed. fold px py.
  destruct (beyond_edge px (canvas_width h)),
           (beyond_edge py (canvas_height h)); simpl;
    repeat split; intros; try lia; try tauto; try discriminate;
    destruct_and?; discriminate.
Qed.

Lemma timesWarped_counts_axes_witness :
  timesWarped (GameWorldObject_update quiet_host
                 (object_at (Bullet 11) 0 795 595 11 11 3))
  = 2%Z.
Proof.
  apply (timesWarped_counts_axes quiet_host
           (object_at (Bullet 11) 0 795 595 11 11 3)).
  split; reflexivity.
Defined.

(** ** The setters on non-numeric input (claim C9) *)

(** C9, as the code has it: [setAngle] ignores every non-number;
    [setPosition(x, y)] ignores its arguments, without raising, when
    they are not both numbers and either [x] is not of type object or
    [y] is present; with a non-null object [x] and an absent [y] it
    copies [x.x] and [x.y] into the position whatever they are. *)
Theorem setters_on_non_numbers :
  forall (this : GameWorldObject) (a x y : jsval) (pos : jsVector),
    (typeof a <> "number" -> setAngle a this = this)
    /\ (typeof x <> "object" \/ is_nullish y = false ->
        typeof x <> "number" \/ typeof y <> "number" ->
        setPosition x y pos = Some pos)
    /\ (forall props, is_nullish y = true ->
        setPosition (JObj props) y pos
        = Some (mkJsVector (assoc "x" props) (assoc "y" props))).
Proof.
  intros this a x y pos. repeat split.
  - destruct a; simpl; intros; congruence.
  - intros H1 H2. unfold setPosition.
    destruct x, y; simpl in *; try reflexivity;
      destruct H1; destruct H2; congruence.
  - intros props Hy. unfold setPosition. simpl. rewrite Hy. reflexivity.
Qed.

Lemma setters_on_non_numbers_witness :
  typeof (JStr "up") <> "number"
  /\ setAngle (JStr "up") (object_at (Asteroid 0) 0 0 0 0 0 20)
     = object_at (Asteroid 0) 0 0 0 0 0 20
  /\ setPosition (JStr "left") JUndefined (js_of_Vector (mkVector 1 2))
     = Some (js_of_Vector (mkVector 1 2))
  /\ setPosition (JObj [("x", JNum 5); ("y", JNum 6)]) JUndefined
                 (js_of_Vector (mkVector 1 2))
     = Some (mkJsVector (JNum 5) (JNum 6)).
Proof.
  destruct (setters_on_non_numbers (object_at (Asteroid 0) 0 0 0 0 0 20)
              (JStr "up") (JStr "left") JUndefined
              (js_of_Vector (mkVector 1 2))) as (Ha & Hp & Ho).
  split; [discriminate |].
  split; [apply Ha; discriminate |].
  split; [apply Hp; left; discriminate |].
  apply (Ho [("x", JNum 5); ("y", JNum 6)]). reflexivity.
Defined.

(** C9 as stated fails for [setPosition]: an object without [x] and [y]
    overwrites the position with [undefined], and [null] makes the
    property read throw. *)
Lemma setPosition_not_defensive :
  let pos := js_of_Vector (mkVector 1 2) in
  setPosition (JObj []) JUndefined pos = Some (mkJsVector JUndefined JUndefined)
  /\ setPosition (JObj []) JUndefined pos <> Some pos
  /\ setPosition JNull JUndefined pos = None.
Proof. repeat split. discriminate. Qed.

(** ** Scoring (claim C6) *)

Lemma tier_radius_range t u :
  0 <= u -> u < 1 ->
  AsteroidRadius t * (3 # 4) - 1 < tier_radius t u
  /\ tier_radius t u < AsteroidRadius t.
Proof.
  intros H0 H1. unfold tier_radius, Math_floor.
  set (lo := AsteroidRadius t * 3 / 4).
  set (m := u * (AsteroidRadius t - lo)).
  pose proof (Qfloor_le m) as Hlo.
  pose proof (Qlt_floor m) as Hhi.
  rewrite inject_Z_plus in Hhi. change (inject_Z 1) with 1 in Hhi.
  set (f := inject_Z (Qfloor m)) in *.
  assert (Elo : lo == AsteroidRadius t * (3 # 4)) by (subst lo; field).
  assert (Em : m == u * (AsteroidRadius t * (1 # 4))).
  { subst m. rewrite Elo. ring. }
  destruct t; simpl in *; split; lra.
Qed.





(** ** The registry and its indices *)

Lemma well_indexed_valid w i r :
  well_indexed w -> gameWorldObjects w !! i = Some r -> (r < length (heap w))%nat.
Proof.
  intros Hw Hi. destruct (Hw i r Hi) as (o & Ho & _).
  eapply lookup_lt_Some; eauto.
Qed.

Lemma well_indexed_NoDup w : well_indexed w -> NoDup (gameWorldObjects w).
Proof.
  intros Hw. apply NoDup_alt. intros i j r Hi Hj.
  destruct (Hw i r Hi) as (o & Ho & Hio).
  destruct (Hw j r Hj) as (o' & Ho' & Hjo).
  rewrite Ho in Ho'. injection Ho' as <-. lia.
Qed.

Lemma alter_all_length f l hp : length (alter_all f hp l) = length hp.
Proof.
  revert hp. induction l as [| a l IH]; intros hp; simpl; [done |].
  unfold alter_all in *. simpl. rewrite IH. apply length_alter.
Qed.

Lemma alter_all_lookup f (l : list ref) hp (r : ref) :
  NoDup l ->
  alter_all f hp l !! r = if decide (r ∈ l) then f <$> hp !! r else hp !! r.
Proof.
  unfold alter_all. intros Hnd. revert hp.
  induction Hnd as [| a l Ha Hnd IH]; intros hp; simpl.
  - destruct (decide (r ∈ [])) as [Hin | _]; [| done]. by apply elem_of_nil in Hin.
  - rewrite IH. destruct (decide (r = a)) as [-> | Hne].
    + rewrite decide_False by done. rewrite decide_True by apply list_elem_of_here.
      apply list_lookup_alter_eq.
    + rewrite list_lookup_alter_ne by done.
      destruct (decide (r ∈ l)) as [Hin | Hnin].
      * rewrite decide_True by (by apply list_elem_of_further). done.
      * rewrite decide_False; [done |]. rewrite elem_of_cons. tauto.
Qed.


Lemma destroy_eq w this o :
  heap w !! this = Some o -> (0 <= gameWorldIndex o)%Z ->
  let k := Z.to_nat (gameWorldIndex o) in
  let objs := delete k (gameWorldObjects w) in
  destroy this w
  = Some (with_heap (alter_all decrement_index (heap w) (drop k objs))
                    (with_gameWorldObjects objs w)).
Proof.
  intros Ho Hk. unfold destroy. rewrite Ho. simpl.
  destruct (gameWorldIndex o <? 0)%Z eqn:E; [lia | reflexivity].
Qed.

Lemma NoDup_delete (l : list ref) k : NoDup l -> NoDup (delete k l).
Proof. intros. eapply sublist_NoDup; [done | apply sublist_delete]. Qed.

Lemma destroy_well_indexed w this o :
  well_indexed w -> heap w !! this = Some o -> (0 <= gameWorldIndex o)%Z ->
  exists w',
    destroy this w = Some w'
    /\ well_indexed w'
    /\ gameWorldObjects w'
       = delete (Z.to_nat (gameWorldIndex o)) (gameWorldObjects w).
Proof.
  intros Hw Ho Hk. eexists. split; [by apply (destroy_eq w this o) |].
  split; [| reflexivity].
  set (k := Z.to_nat (gameWorldIndex o)).
  pose proof (NoDup_delete _ k (well_indexed_NoDup w Hw)) as Hnd.
  intros i r Hi. simpl in *.
  rewrite alter_all_lookup by (eapply sublist_NoDup; [exact Hnd | apply sublist_drop]).
  pose proof Hi as Hi'. rewrite list_lookup_delete in Hi'.
  destruct (decide (i < k)%nat) as [Hlt | Hge].
  - destruct (Hw i r Hi') as (p & Hp & Hpi).
    rewrite decide_False; [eauto |].
    intros Hin. apply list_elem_of_lookup in Hin as [j Hj].
    rewrite lookup_drop in Hj.
    pose proof (NoDup_lookup _ _ _ _ Hnd Hi Hj). lia.
  - destruct (Hw (S i) r Hi') as (p & Hp & Hpi).
    rewrite decide_True.
    + rewrite Hp. simpl. eexists. split; [reflexivity |]. simpl. lia.
    + apply list_elem_of_lookup. exists (i - k)%nat.
      rewrite lookup_drop. replace (k + (i - k))%nat with i by lia. done.
Qed.

(** ** How one method call may change the store and the registry *)

Lemma evolves_refl w : evolves w w.
Proof.
  repeat split.
  - done.
  - rewrite Nat.sub_diag. simpl. by rewrite app_nil_r.
  - intros r o Ho. eauto.
  - intros r o' Hr Ho'. apply lookup_lt_Some in Ho'. lia.
Qed.

Lemma evolves_trans w1 w2 w3 : evolves w1 w2 -> evolves w2 w3 -> evolves w1 w3.
Proof.
  intros (Hl1 & Hs1 & Hk1 & Hf1) (Hl2 & Hs2 & Hk2 & Hf2). repeat split.
  - lia.
  - etrans; [exact Hs2 |].
    replace (length (heap w3) - length (heap w1))%nat
      with ((length (heap w2) - length (heap w1))
            + (length (heap w3) - length (heap w2)))%nat by lia.
    rewrite seq_app, app_assoc.
    replace (length (heap w1) + (length (heap w2) - length (heap w1)))%nat
      with (length (heap w2)) by lia.
    apply sublist_app; [exact Hs1 | done].
  - intros r o Ho. destruct (Hk1 r o Ho) as (o' & Ho' & Hv & Hr).
    destruct (Hk2 r o' Ho') as (o'' & Ho'' & Hv' & Hr').
    exists o''. repeat split; congruence.
  - intros r o' Hr Ho'.
    destruct (decide (r < length (heap w2))%nat) as [Hlt | Hge].
    + destruct (lookup_lt_is_Some_2 (heap w2) r Hlt) as [o Ho].
      destruct (Hk2 r o Ho) as (o'' & Ho'' & Hv & _).
      rewrite Ho' in Ho''. injection Ho'' as <-.
      unfold instanceof_Bullet. rewrite Hv.
      apply (Hf1 r o Hr Ho).
    + apply (Hf2 r o'); [lia | done].
Qed.

Lemma evolves_same_store w w' :
  heap w' = heap w -> gameWorldObjects w' = gameWorldObjects w -> evolves w w'.
Proof.
  intros Hh Ho. unfold evolves. rewrite Hh, Ho, Nat.sub_diag. simpl.
  rewrite app_nil_r. repeat split; eauto.
  intros r o' Hr Ho'. apply lookup_lt_Some in Ho'. lia.
Qed.

Lemma evolves_store w r o o' :
  heap w !! r = Some o -> variant o' = variant o -> radius o' = radius o ->
  evolves w (store r o' w).
Proof.
  intros Ho Hv Hr. unfold evolves, store. simpl.
  rewrite length_insert, Nat.sub_diag. simpl. rewrite app_nil_r.
  repeat split; [done | done | |].
  - intros r1 o1 Ho1. destruct (decide (r = r1)) as [<- | Hne].
    + exists o'. rewrite list_lookup_insert_eq by (by eapply lookup_lt_Some).
      rewrite Ho in Ho1. injection Ho1 as <-. done.
    + exists o1. by rewrite list_lookup_insert_ne.
  - intros r1 o1 Hr1 Ho1. apply lookup_lt_Some in Ho1.
    rewrite length_insert in Ho1. lia.
Qed.

Lemma evolves_add_object w o :
  instanceof_Bullet o = false -> evolves w (add_object o w).
Proof.
  intros Hb. unfold evolves, add_object. simpl. rewrite length_app. simpl.
  replace (length (heap w) + 1 - length (heap w))%nat with 1%nat by lia.
  repeat split; [lia | done | |].
  - intros r o1 Ho1. exists o1.
    rewrite lookup_app_l by (by eapply lookup_lt_Some). done.
  - intros r o1 Hr Ho1.
    assert (r = length (heap w)) as ->.
    { apply lookup_lt_Some in Ho1. rewrite length_app in Ho1. simpl in Ho1. lia. }
    rewrite lookup_app_r, Nat.sub_diag in Ho1 by done. by injection Ho1 as <-.
Qed.

Lemma alter_all_field {B} (g : GameWorldObject -> B) f l hp r :
  (forall o, g (f o) = g o) ->
  g <$> alter_all f hp l !! r = g <$> hp !! r.
Proof.
  intros Hg. unfold alter_all. revert hp.
  induction l as [| a l IH]; intros hp; simpl; [done |].
  rewrite IH. rewrite list_lookup_alter.
  destruct (decide (a = r)) as [-> | _]; [| done].
  destruct (hp !! r); simpl; [by rewrite Hg | done].
Qed.

Lemma evolves_destroy w this w' : destroy this w = Some w' -> evolves w w'.
Proof.
  unfold destroy. intros Hd.
  destruct (heap w !! this) as [o |] eqn:Ho; simpl in Hd; [| done].
  destruct (gameWorldIndex o <? 0)%Z; [done |]. injection Hd as <-.
  unfold evolves. simpl.
  fold (alter_all decrement_index (heap w)
          (drop (Z.to_nat (gameWorldIndex o))
                (delete (Z.to_nat (gameWorldIndex o)) (gameWorldObjects w)))).
  rewrite alter_all_length, Nat.sub_diag. simpl. rewrite app_nil_r.
  repeat split; [done | apply sublist_delete | |].
  - intros r o1 Ho1.
    pose proof (alter_all_field variant decrement_index
      (drop (Z.to_nat (gameWorldIndex o))
            (delete (Z.to_nat (gameWorldIndex o)) (gameWorldObjects w)))
      (heap w) r (fun _ => eq_refl)) as Hv.
    pose proof (alter_all_field radius decrement_index
      (drop (Z.to_nat (gameWorldIndex o))
            (delete (Z.to_nat (gameWorldIndex o)) (gameWorldObjects w)))
      (heap w) r (fun _ => eq_refl)) as Hr.
    rewrite Ho1 in Hv, Hr.
    destruct (alter_all _ _ _ !! r) as [o2 |]; simpl in *; [| done].
    exists o2. split; [done |]. split; congruence.
  - intros r o1 Hr Ho1. apply lookup_lt_Some in Ho1.
    rewrite alter_all_length in Ho1. lia.
Qed.
(** ** The Asteroid constructor *)

Lemma with_randomCalls_same w : with_randomCalls (randomCalls w) w = w.
Proof. by destruct w. Qed.

Lemma outline_fold h mn mx (l : list nat) :
  forall o w,
    let res := foldl (outline_step h mn mx) (o, w) l in
    variant res.1 = variant o
    /\ gameWorldIndex res.1 = gameWorldIndex o
    /\ position res.1 = position o
    /\ velocity res.1 = velocity o
    /\ angle res.1 = angle o
    /\ timesWarped res.1 = timesWarped o
    /\ res.2 = with_randomCalls (randomCalls w + 2 * length l) w.
Proof.
  induction l as [| k l IH]; intros o w; simpl.
  - rewrite Nat.add_0_r, with_randomCalls_same. done.
  - specialize (IH (outline_step h mn mx (o, w) k).1 (outline_step h mn mx (o, w) k).2).
    rewrite <- surjective_pairing in IH. simpl in IH.
    destruct IH as (-> & -> & -> & -> & -> & -> & ->).
    repeat split. unfold with_randomCalls. simpl. f_equal. lia.
Qed.

Lemma outline_fold_radius h mn mx (l : list nat) k o w :
  radius (foldl (outline_step h mn mx) (o, w) (l ++ [k])).1
  = Math_floor (Math_random h (S (randomCalls w + 2 * length l)) * (mx - mn)) + mn.
Proof.
  rewrite foldl_app. simpl.
  pose proof (outline_fold h mn mx l o w) as (_ & _ & _ & _ & _ & _ & Hw).
  destruct (foldl (outline_step h mn mx) (o, w) l) as [o1 w1]. simpl in *.
  subst w1. reflexivity.
Qed.

Lemma new_Asteroid_fields h w pos vel ang rad :
  let res := new_Asteroid h w pos vel ang rad in
  instanceof_Asteroid res.1 = true
  /\ instanceof_Bullet res.1 = false
  /\ gameWorldIndex res.1 = Z.of_nat (length (gameWorldObjects w))
  /\ position res.1 = pos
  /\ velocity res.1 = vel
  /\ angle res.1 = ang
  /\ timesWarped res.1 = 0%Z
  /\ res.2 = with_randomCalls (randomCalls w + 41) w.
Proof.
  unfold new_Asteroid, random. cbv beta iota zeta.
  set (w1 := with_randomCalls (S (randomCalls w)) w).
  set (o := new_GameWorldObject w1 _ pos vel ang rad).
  set (mn := radius o * 3 / 4).
  pose proof (outline_fold h mn rad (seq 0 granularity) o w1)
    as (Hv & Hi & Hp & Hvel & Ha & Ht & Hw).
  destruct (foldl _ _ (seq 0 granularity)) as [o2 w2].
  cbv beta iota zeta in Hv, Hi, Hp, Hvel, Ha, Ht, Hw.
  change ((o2, w2).1) with o2 in *. change ((o2, w2).2) with w2 in *.
  unfold instanceof_Asteroid, instanceof_Bullet.
  rewrite Hv, Hi, Hp, Hvel, Ha, Ht, Hw.
  repeat split.
  subst w1. unfold with_randomCalls. cbn. f_equal. lia.
Qed.

Lemma new_Asteroid_radius h w pos vel ang (t : Tier) :
  radius (new_Asteroid h w pos vel ang (AsteroidRadius t)).1
  = tier_radius t (Math_random h (randomCalls w + 40)).
Proof.
  unfold new_Asteroid, random. cbv beta iota zeta.
  set (w1 := with_randomCalls (S (randomCalls w)) w).
  set (o := new_GameWorldObject w1 _ pos vel ang (AsteroidRadius t)).
  set (mn := radius o * 3 / 4).
  pose proof (outline_fold_radius h mn (AsteroidRadius t) (seq 0 19) 19%nat o w1) as Hr.
  change (seq 0 19 ++ [19%nat]) with (seq 0 granularity) in Hr.
  rewrite Hr.
  subst mn o. unfold tier_radius, new_GameWorldObject. cbn [radius].
  replace (Qeq_bool (AsteroidRadius t) 0) with false by (by destruct t).
  replace (S (randomCalls w1 + 2 * length (seq 0 19))) with (randomCalls w + 40)%nat
    by (subst w1; cbn; lia).
  reflexivity.
Qed.

(** ** Spawning children *)


Lemma spawned_zero h t o w : spawned h t o w w 0.
Proof.
  exists []. simpl. rewrite !app_nil_r. repeat split; try done.
Qed.

Lemma spawn_child_spawned h t this o w0 w n :
  heap w0 !! this = Some o ->
  spawned h t o w0 w n ->
  exists w', spawn_child h t this w = Some w' /\ spawned h t o w0 w' (S n).
Proof.
  intros Ho (cs & Hn & Hh & Hobjs & Hs & Hg & Hcs & Hidx).
  unfold spawn_child, random. cbv beta iota zeta.
  set (w2 := with_randomCalls _ (with_randomCalls _ w)).
  assert (Ho2 : heap w2 !! this = Some o).
  { subst w2. cbn [heap with_randomCalls]. rewrite Hh, lookup_app_l; [done |].
    by eapply lookup_lt_Some. }
  rewrite Ho2. cbn [mbind option_bind].
  match goal with
  | |- context [new_Asteroid h w2 ?p ?v 0 (AsteroidRadius t)] =>
      pose proof (new_Asteroid_fields h w2 p v 0 (AsteroidRadius t)) as Hspec;
      pose proof (new_Asteroid_radius h w2 p v 0 t) as Hr;
      destruct (new_Asteroid h w2 p v 0 (AsteroidRadius t)) as [c w3]
  end.
  cbv beta iota zeta in Hspec. cbn [fst snd] in Hspec, Hr.
  destruct Hspec as (Ha & Hb & Hi & Hp & Hv & Hang & Ht & Hw3).
  eexists. split; [reflexivity |].
  exists (cs ++ [c]). subst w3 w2.
  cbn [add_object alloc push heap gameWorldObjects score gameState
       with_heap with_randomCalls with_gameWorldObjects].
  cbn [gameWorldObjects with_randomCalls] in Hi.
  rewrite Hh, Hobjs, !length_app, Hn. cbn [length].
  repeat split.
  - lia.
  - by rewrite <- app_assoc.
  - rewrite <- app_assoc. f_equal.
    replace (S n) with (n + 1)%nat by lia. rewrite seq_app. done.
  - done.
  - done.
  - apply Forall_app. split; [done |]. apply Forall_singleton.
    split; [done |]. split; [rewrite Hp; by destruct (position o) |].
    split; [done |].
    intros Hunit. eexists. split; [apply Hunit |]. split; [apply Hunit |].
    rewrite Hr. reflexivity.
  - intros j c' Hj. destruct (decide (j < length cs)%nat) as [Hlt | Hge].
    + rewrite lookup_app_l in Hj by done. by apply Hidx.
    + assert (j = length cs) as ->.
      { apply lookup_lt_Some in Hj. rewrite length_app in Hj. cbn in Hj. lia. }
      rewrite lookup_app_r, Nat.sub_diag in Hj by done. injection Hj as <-.
      rewrite Hi, Hobjs, length_app, length_seq. f_equal. lia.
Qed.

Lemma spawn_children_spawned h t this o w :
  heap w !! this = Some o ->
  exists w', spawn_children h t this w = Some w' /\ spawned h t o w w' 3.
Proof.
  intros Ho. unfold spawn_children.
  destruct (spawn_child_spawned h t this o w w 0 Ho (spawned_zero h t o w))
    as (w1 & -> & H1). cbn [mbind option_bind].
  destruct (spawn_child_spawned h t this o w w1 1 Ho H1) as (w2 & -> & H2).
  cbn [mbind option_bind].
  destruct (spawn_child_spawned h t this o w w2 2 Ho H2) as (w3 & -> & H3).
  eauto.
Qed.

Lemma spawned_well_indexed h t o w0 w n :
  well_indexed w0 -> spawned h t o w0 w n -> well_indexed w.
Proof.
  intros Hw (cs & Hn & Hh & Hobjs & Hs & Hg & Hcs & Hidx) i r Hi.
  rewrite Hobjs in Hi. rewrite Hh.
  destruct (decide (i < length (gameWorldObjects w0))%nat) as [Hlt | Hge].
  - rewrite lookup_app_l in Hi by done.
    destruct (Hw i r Hi) as (p & Hp & Hpi). exists p.
    rewrite lookup_app_l by (by eapply lookup_lt_Some). done.
  - rewrite lookup_app_r in Hi by lia.
    apply lookup_seq in Hi as [-> Hlt].
    rewrite lookup_app_r by lia.
    replace (length (heap w0) + (i - length (gameWorldObjects w0))
             - length (heap w0))%nat
      with (i - length (gameWorldObjects w0))%nat by lia.
    destruct (lookup_lt_is_Some_2 cs (i - length (gameWorldObjects w0)))
      as [c Hc]; [lia |].
    exists c. split; [done |]. rewrite (Hidx _ _ Hc). f_equal. lia.
Qed.

Lemma spawned_evolves h t o w0 w n : spawned h t o w0 w n -> evolves w0 w.
Proof.
  intros (cs & Hn & Hh & Hobjs & Hs & Hg & Hcs & Hidx).
  unfold evolves. rewrite Hh, Hobjs, length_app, Hn.
  replace (length (heap w0) + n - length (heap w0))%nat with n by lia.
  repeat split; [lia | done | |].
  - intros r p Hp. exists p.
    rewrite lookup_app_l by (by eapply lookup_lt_Some). done.
  - intros r c Hr Hc. rewrite lookup_app_r in Hc by done.
    rewrite Forall_lookup in Hcs. destruct (Hcs _ _ Hc) as (Ha & _).
    unfold instanceof_Asteroid in Ha. unfold instanceof_Bullet.
    by destruct (variant c).
Qed.

(** ** destroy, field by field *)

Lemma same_but_index_refl o : same_but_index o o.
Proof. by destruct o. Qed.

Lemma same_but_index_trans o1 o2 o3 :
  same_but_index o1 o2 -> same_but_index o2 o3 -> same_but_index o1 o3.
Proof.
  unfold same_but_index. intros H12 H23. rewrite <- H12 at 2. rewrite <- H23.
  reflexivity.
Qed.

Lemma same_but_index_decrement o : same_but_index o (decrement_index o).
Proof. by destruct o. Qed.

Lemma alter_all_same_but_index l :
  forall hp r o,
    hp !! r = Some o ->
    exists o', alter_all decrement_index hp l !! r = Some o'
               /\ same_but_index o o'.
Proof.
  unfold alter_all.
  induction l as [| a l IH]; intros hp r o Ho; cbn [foldl].
  - exists o. split; [done | apply same_but_index_refl].
  - destruct (decide (a = r)) as [-> | Hne].
    + destruct (IH (alter decrement_index r hp) r (decrement_index o))
        as (o' & Ho' & Hs).
      { by rewrite list_lookup_alter_eq, Ho. }
      exists o'. split; [done |].
      eapply same_but_index_trans; [apply same_but_index_decrement | done].
    + apply IH. by rewrite list_lookup_alter_ne.
Qed.

Lemma destroy_lookup w this w' r o :
  destroy this w = Some w' -> heap w !! r = Some o ->
  exists o', heap w' !! r = Some o' /\ same_but_index o o'.
Proof.
  unfold destroy. intros Hd Ho.
  destruct (heap w !! this) as [p |]; cbn [mbind option_bind] in Hd; [| done].
  destruct (gameWorldIndex p <? 0)%Z; [done |]. injection Hd as <-.
  cbn [heap with_heap]. by apply alter_all_same_but_index.
Qed.

Lemma destroy_globals w this w' :
  destroy this w = Some w' ->
  score w' = score w /\ gameState w' = gameState w /\ ship w' = ship w
  /\ randomCalls w' = randomCalls w /\ length (heap w') = length (heap w).
Proof.
  unfold destroy. intros Hd.
  destruct (heap w !! this) as [p |]; cbn [mbind option_bind] in Hd; [| done].
  destruct (gameWorldIndex p <? 0)%Z; [done |]. injection Hd as <-.
  cbn. repeat split. apply alter_all_length.
Qed.

(** Destroying an object that sits in the registry removes exactly it. *)
Lemma destroy_live w this i :
  well_indexed w -> gameWorldObjects w !! i = Some this ->
  exists w',
    destroy this w = Some w'
    /\ well_indexed w'
    /\ gameWorldObjects w' = delete i (gameWorldObjects w)
    /\ (this ∉ gameWorldObjects w').
Proof.
  intros Hw Hi. destruct (Hw i this Hi) as (o & Ho & Hio).
  destruct (destroy_well_indexed w this o Hw Ho) as (w' & Hd & Hw' & Hobjs); [lia |].
  rewrite Hio, Nat2Z.id in Hobjs.
  exists w'. repeat split; try done.
  rewrite Hobjs. intros Hin. apply list_elem_of_lookup in Hin as [j Hj].
  rewrite list_lookup_delete in Hj.
  pose proof (well_indexed_NoDup w Hw) as Hnd.
  destruct (decide (j < i)%nat);
    pose proof (NoDup_lookup _ _ _ _ Hnd Hi Hj); lia.
Qed.

Lemma delete_app_l {A} (l k : list A) i :
  (i < length l)%nat -> delete i (l ++ k) = delete i l ++ k.
Proof.
  revert i. induction l as [| x l IH]; intros i Hi; cbn in *; [lia |].
  destruct i as [| i]; [done |]. cbn. f_equal. apply IH. lia.
Qed.

(** ** explode *)

Lemma explode_spec h w this i o :
  well_indexed w ->
  gameWorldObjects w !! i = Some this ->
  heap w !! this = Some o ->
  exists w1 w',
    spawned h (children_tier o) o w w1 (children_count o)
    /\ destroy this w1 = Some w'
    /\ explode h this w = Some w'
    /\ well_indexed w'
    /\ gameWorldObjects w'
       = delete i (gameWorldObjects w)
         ++ seq (length (heap w)) (children_count o)
    /\ (this ∉ gameWorldObjects w').
Proof.
  intros Hw Hi Ho.
  assert (Hsp : exists w1,
             (if Qgeb (radius o) (AsteroidRadius MEDIUM) then
                spawn_children h MEDIUM this w
              else if Qgeb (radius o) (AsteroidRadius SMALL) then
                spawn_children h SMALL this w
              else Some w) = Some w1
             /\ spawned h (children_tier o) o w w1 (children_count o)).
  { unfold children_tier, children_count.
    destruct (Qgeb (radius o) (AsteroidRadius MEDIUM)).
    - apply spawn_children_spawned, Ho.
    - destruct (Qgeb (radius o) (AsteroidRadius SMALL)).
      + apply spawn_children_spawned, Ho.
      + exists w. split; [done | apply spawned_zero]. }
  destruct Hsp as (w1 & Hsp & Hspawned).
  pose proof (spawned_well_indexed _ _ _ _ _ _ Hw Hspawned) as Hw1.
  pose proof Hspawned as (cs & Hn & Hh & Hobjs & _).
  assert (Hi1 : gameWorldObjects w1 !! i = Some this).
  { rewrite Hobjs, lookup_app_l; [done | by eapply lookup_lt_Some]. }
  destruct (destroy_live w1 this i Hw1 Hi1) as (w' & Hd & Hw' & Hobjs' & Hnin).
  exists w1, w'. split; [done |]. split; [done |].
  split; [| split; [done | split; [| done]]].
  - unfold explode. rewrite Ho. cbn [mbind option_bind].
    rewrite Hsp. cbn [mbind option_bind]. exact Hd.
  - rewrite Hobjs', Hobjs. apply delete_app_l. by eapply lookup_lt_Some.
Qed.

(** ** Pushing a new object *)

Lemma well_indexed_same_store w w' :
  heap w' = heap w -> gameWorldObjects w' = gameWorldObjects w ->
  well_indexed w -> well_indexed w'.
Proof. unfold well_indexed. intros -> ->. done. Qed.

Lemma add_object_well_indexed w o :
  well_indexed w ->
  gameWorldIndex o = Z.of_nat (length (gameWorldObjects w)) ->
  well_indexed (add_object o w).
Proof.
  intros Hw Hidx i r Hi. cbn in Hi |- *.
  destruct (decide (i < length (gameWorldObjects w))%nat) as [Hlt | Hge].
  - rewrite lookup_app_l in Hi by done.
    destruct (Hw i r Hi) as (p & Hp & Hpi). exists p.
    rewrite lookup_app_l by (by eapply lookup_lt_Some). done.
  - rewrite lookup_app_r in Hi by lia.
    destruct (i - length (gameWorldObjects w))%nat as [| k] eqn:Hk; [| done].
    injection Hi as <-. exists o.
    rewrite lookup_app_r, Nat.sub_diag by done. split; [done |].
    rewrite Hidx. f_equal. lia.
Qed.

Lemma modify_well_indexed w r f :
  (forall o, gameWorldIndex (f o) = gameWorldIndex o) ->
  well_indexed w -> well_indexed (modify r f w).
Proof.
  intros Hf Hw i r' Hi. cbn in Hi |- *.
  destruct (Hw i r' Hi) as (p & Hp & Hpi).
  rewrite list_lookup_alter. destruct (decide (r = r')) as [-> | _].
  - rewrite Hp. cbn. eexists. split; [done |]. by rewrite Hf.
  - eauto.
Qed.

Lemma store_well_indexed w r o o' :
  well_indexed w -> heap w !! r = Some o ->
  gameWorldIndex o' = gameWorldIndex o ->
  well_indexed (store r o' w).
Proof.
  intros Hw Ho Hidx i r' Hi. cbn in Hi |- *.
  destruct (Hw i r' Hi) as (p & Hp & Hpi).
  destruct (decide (r = r')) as [<- | Hne].
  - rewrite list_lookup_insert_eq by (by eapply lookup_lt_Some).
    exists o'. split; [done |]. congruence.
  - rewrite list_lookup_insert_ne by done. eauto.
Qed.

Lemma set_lastFired_keeps_index t o :
  gameWorldIndex (set_lastFired t o) = gameWorldIndex o.
Proof. unfold set_lastFired. by destruct (variant o). Qed.

Lemma fire_well_indexed h this w w' :
  well_indexed w -> fire h this w = Some w' -> well_indexed w'.
Proof.
  unfold fire. intros Hw Hf.
  destruct (heap w !! this) as [o |]; cbn [mbind option_bind] in Hf; [| done].
  destruct (variant o); try done.
  destruct (_ && _); injection Hf as <-; [| done].
  apply modify_well_indexed; [apply set_lastFired_keeps_index |].
  by apply add_object_well_indexed.
Qed.

Lemma well_indexed_from_lookup w rs :
  forall i0, well_indexed_from w i0 rs = true ->
  forall j r, rs !! j = Some r ->
  exists o, heap w !! r = Some o /\ gameWorldIndex o = Z.of_nat (i0 + j).
Proof.
  induction rs as [| a rs IH]; intros i0 Hc j r Hj; [done |].
  cbn in Hc. apply andb_true_iff in Hc as [Ha Hrs].
  destruct j as [| j]; cbn in Hj.
  - injection Hj as <-. destruct (heap w !! a) as [o |]; [| done].
    exists o. split; [done |]. apply Z.eqb_eq in Ha. rewrite Ha. f_equal. lia.
  - destruct (IH (S i0) Hrs j r Hj) as (o & Ho & Hi). exists o.
    split; [done |]. rewrite Hi. f_equal. lia.
Qed.

Lemma well_indexed_from_sound w :
  well_indexed_from w 0 (gameWorldObjects w) = true -> well_indexed w.
Proof.
  intros Hc i r Hi. apply (well_indexed_from_lookup w _ 0%nat Hc i r Hi).
Qed.

(** ** Registry indices (claim C10) *)

(** C10: starting from a registry in which every object's
    [gameWorldIndex] is its slot, pushing a newly built ship, bullet or
    asteroid, firing, destroying an object of the registry and
    exploding one all leave a registry with the same property. *)
Theorem registry_indices_exact :
  forall (h : Host) (w : GameWorld),
    well_indexed w ->
    (forall pos vel ang rad,
        well_indexed (add_object (new_Ship h w pos vel ang rad) w))
    /\ (forall pos ang, well_indexed (add_object (new_Bullet h w pos ang) w))
    /\ (forall this w', fire h this w = Some w' -> well_indexed w')
    /\ (forall pos vel ang rad,
          well_indexed (add_object (new_Asteroid h w pos vel ang rad).1
                                   (new_Asteroid h w pos vel ang rad).2))
    /\ (forall this i,
          gameWorldObjects w !! i = Some this ->
          exists w', destroy this w = Some w'
                     /\ gameWorldObjects w' = delete i (gameWorldObjects w)
                     /\ well_indexed w')
    /\ (forall this i,
          gameWorldObjects w !! i = Some this ->
          exists w', explode h this w = Some w' /\ well_indexed w').
Proof.
  intros h w Hw. repeat split.
  - intros. by apply add_object_well_indexed.
  - intros. by apply add_object_well_indexed.
  - intros this w'. by apply fire_well_indexed.
  - intros pos vel ang rad.
    pose proof (new_Asteroid_fields h w pos vel ang rad)
      as (_ & _ & Hi & _ & _ & _ & _ & Hw1).
    cbv beta zeta in Hi, Hw1.
    apply add_object_well_indexed.
    + eapply well_indexed_same_store; [| | exact Hw]; by rewrite Hw1.
    + by rewrite Hi, Hw1.
  - intros this i Hi.
    destruct (destroy_live w this i Hw Hi) as (w' & Hd & Hw' & Hobjs & _).
    eauto.
  - intros this i Hi. destruct (Hw i this Hi) as (o & Ho & _).
    destruct (explode_spec h w this i o Hw Hi Ho)
      as (w1 & w' & _ & _ & He & Hw' & _).
    eauto.
Qed.

Lemma registry_indices_exact_witness :
  well_indexed busy_world
  /\ exists w', destroy 2%nat busy_world = Some w'
                /\ gameWorldObjects w' = [0; 1; 3]%nat
                /\ well_indexed w'.
Proof.
  assert (Hw : well_indexed busy_world)
    by (apply well_indexed_from_sound; vm_compute; reflexivity).
  split; [exact Hw |].
  destruct (registry_indices_exact quiet_host busy_world Hw)
    as (_ & _ & _ & _ & Hd & _).
  apply (Hd 2%nat 2%nat). reflexivity.
Defined.

(** ** explode (claim C5) *)

(** C5: exploding an asteroid of the registry removes it in every case;
    an asteroid built at the LARGE tier is replaced by exactly three
    new asteroids appended to the registry, each at the parent's
    position with angle 0 and built at the MEDIUM tier; an asteroid
    built at the SMALL tier leaves no child. *)
Theorem explode_by_tier :
  forall (h : Host) (w : GameWorld) (this i : nat) (o : GameWorldObject),
    well_indexed w ->
    gameWorldObjects w !! i = Some this ->
    heap w !! this = Some o ->
    exists w',
      explode h this w = Some w'
      /\ (this ∉ gameWorldObjects w')
      /\ (built_at_tier o LARGE ->
          gameWorldObjects w'
          = delete i (gameWorldObjects w) ++ seq (length (heap w)) 3
          /\ forall j, (j < 3)%nat ->
               exists c, heap w' !! (length (heap w) + j)%nat = Some c
                         /\ child_of h MEDIUM o c)
      /\ (built_at_tier o SMALL ->
          gameWorldObjects w' = delete i (gameWorldObjects w)).
Proof.
  intros h w this i o Hw Hi Ho.
  destruct (explode_spec h w this i o Hw Hi Ho)
    as (w1 & w' & Hsp & Hd & He & Hw' & Hobjs & Hnin).
  exists w'. split; [done |]. split; [done |]. split.
  - intros (u & H0 & H1 & Hr).
    pose proof (tier_radius_range LARGE u H0 H1) as [Hlo _].
    cbn [AsteroidRadius] in Hlo.
    assert (Hc : children_count o = 3%nat /\ children_tier o = MEDIUM).
    { unfold children_count, children_tier. cbn [AsteroidRadius].
      destruct (Qgeb (radius o) 40) eqn:E; [done |].
      apply Qgeb_false in E. exfalso. lra. }
    destruct Hc as [Hc Ht]. rewrite Hc, Ht in *. split; [done |].
    intros j Hj. destruct Hsp as (cs & Hn & Hh & _ & _ & _ & Hcs & _).
    destruct (lookup_lt_is_Some_2 cs j) as [c Hc']; [lia |].
    assert (Hc1 : heap w1 !! (length (heap w) + j)%nat = Some c).
    { rewrite Hh, lookup_app_r by lia.
      by replace (length (heap w) + j - length (heap w))%nat with j by lia. }
    destruct (destroy_lookup _ _ _ _ _ Hd Hc1) as (c' & Hc'' & Hsame).
    exists c'. split; [done |].
    rewrite Forall_lookup in Hcs. destruct (Hcs _ _ Hc') as (Ha & Hp & Hang & Hb).
    unfold same_but_index in Hsame. rewrite <- Hsame in Ha, Hp, Hang, Hb.
    repeat split; done.
  - intros (u & H0 & H1 & Hr).
    pose proof (tier_radius_range SMALL u H0 H1) as [_ Hhi].
    cbn [AsteroidRadius] in Hhi.
    assert (Hc : children_count o = 0%nat).
    { unfold children_count. cbn [AsteroidRadius].
      destruct (Qgeb (radius o) 40) eqn:E1.
      { apply Qgeb_true in E1. exfalso. lra. }
      destruct (Qgeb (radius o) 20) eqn:E2; [| done].
      apply Qgeb_true in E2. exfalso. lra. }
    rewrite Hc in Hobjs. cbn in Hobjs. by rewrite app_nil_r in Hobjs.
Qed.

Lemma explode_by_tier_witness :
  exists w',
    explode quiet_host 1%nat busy_world = Some w'
    /\ (1%nat ∉ gameWorldObjects w')
    /\ gameWorldObjects w' = [0; 2; 3; 4; 5; 6]%nat.
Proof.
  assert (Hw : well_indexed busy_world)
    by (apply well_indexed_from_sound; vm_compute; reflexivity).
  destruct (explode_by_tier quiet_host busy_world 1%nat 1%nat
              (rock LARGE 1 100 100 0 0) Hw eq_refl eq_refl)
    as (w' & He & Hnin & Hlarge & _).
  exists w'. split; [done |]. split; [done |].
  apply Hlarge. exists (1 # 2). repeat split; vm_compute; congruence.
Defined.

(** ** The collision scan *)

Lemma first_collision_total w this (rs : list nat) :
  (forall r, r ∈ rs -> is_Some (heap w !! r)) ->
  exists res,
    first_collision w this rs = Some res
    /\ match res with
       | Some a =>
           a ∈ rs
           /\ exists p, heap w !! a = Some p
                        /\ instanceof_Asteroid p = true
                        /\ collides this p = true
       | None =>
           forall r p, r ∈ rs -> heap w !! r = Some p ->
                       instanceof_Asteroid p && collides this p = false
       end.
Proof.
  induction rs as [| r rs IH]; intros Hvalid; cbn [first_collision].
  - exists None. split; [done |]. intros r p Hr. by apply elem_of_nil in Hr.
  - destruct (Hvalid r (list_elem_of_here _ _)) as [p Hp].
    rewrite Hp. cbn [mbind option_bind].
    destruct (instanceof_Asteroid p && collides this p) eqn:Hhit.
    + exists (Some r). split; [done |]. split; [apply list_elem_of_here |].
      apply andb_true_iff in Hhit as [? ?]. eauto.
    + destruct IH as (res & Hres & Hspec).
      { intros r' Hr'. apply Hvalid. by apply list_elem_of_further. }
      exists res. split; [done |]. destruct res as [a |].
      * destruct Hspec as (Ha & Hp'). split; [by apply list_elem_of_further | done].
      * intros r' p' Hr' Hp'. apply elem_of_cons in Hr' as [-> | Hr'].
        -- rewrite Hp in Hp'. by injection Hp' as <-.
        -- by eapply Hspec.
Qed.

Lemma well_indexed_is_Some w r :
  well_indexed w -> r ∈ gameWorldObjects w -> is_Some (heap w !! r).
Proof.
  intros Hw Hr. apply list_elem_of_lookup in Hr as [i Hi].
  destruct (Hw i r Hi) as (o & Ho & _). eauto.
Qed.

(** ** One visit of the per-tick loop *)

Lemma apply_friction_keeps f o :
  variant (apply_friction f o) = variant o
  /\ gameWorldIndex (apply_friction f o) = gameWorldIndex o
  /\ radius (apply_friction f o) = radius o.
Proof. done. Qed.

Lemma store_lookup w r o o' :
  heap w !! r = Some o -> heap (store r o' w) !! r = Some o'.
Proof.
  intros Ho. cbn. apply list_lookup_insert_eq. by eapply lookup_lt_Some.
Qed.

Lemma Ship_update_visit h w r o s :
  well_indexed w -> heap w !! r = Some o -> variant o = Ship s ->
  exists w',
    Ship_update h r w = Some w'
    /\ well_indexed w'
    /\ evolves w w'
    /\ gameWorldObjects w' = gameWorldObjects w
    /\ length (heap w') = length (heap w).
Proof.
  intros Hw Ho Hv. unfold Ship_update. rewrite Ho. cbn [mbind option_bind].
  rewrite Hv.
  set (o1 := apply_friction (friction s) (GameWorldObject_update h o)).
  assert (Hw1 : well_indexed (store r o1 w)).
  { eapply store_well_indexed; [done | done |]. apply update_keeps_index. }
  assert (He1 : evolves w (store r o1 w)).
  { eapply evolves_store; [done | apply update_keeps_variant | apply update_keeps_radius]. }
  destruct (first_collision_total (store r o1 w) o1 (gameWorldObjects (store r o1 w)))
    as (res & -> & _).
  { intros r'. by apply well_indexed_is_Some. }
  cbn [mbind option_bind].
  destruct res; eexists; (split; [reflexivity |]); split_and!;
    first [done | apply length_insert].
Qed.

Lemma Asteroid_update_visit h w r o rot :
  well_indexed w -> heap w !! r = Some o -> variant o = Asteroid rot ->
  exists w',
    Asteroid_update h r w = Some w'
    /\ well_indexed w'
    /\ evolves w w'
    /\ gameWorldObjects w' = gameWorldObjects w
    /\ length (heap w') = length (heap w).
Proof.
  intros Hw Ho Hv. unfold Asteroid_update. rewrite Ho. cbn [mbind option_bind].
  rewrite Hv. eexists. split; [reflexivity |]. split_and!; [| | done |].
  - eapply store_well_indexed; [done | done |].
    rewrite rotate_keeps_index. apply update_keeps_index.
  - eapply evolves_store; [done | |].
    + rewrite rotate_keeps_variant. apply update_keeps_variant.
    + rewrite rotate_keeps_radius. apply update_keeps_radius.
  - apply length_insert.
Qed.

Lemma destroy_keeps_self w this i w' :
  well_indexed w -> gameWorldObjects w !! i = Some this ->
  destroy this w = Some w' ->
  heap w' !! this = heap w !! this.
Proof.
  intros Hw Hi Hd. destruct (Hw i this Hi) as (o & Ho & Hio).
  rewrite (destroy_eq w this o Ho) in Hd by lia. injection Hd as <-.
  cbn [heap with_heap with_gameWorldObjects]. rewrite Hio, Nat2Z.id.
  pose proof (well_indexed_NoDup w Hw) as Hnd.
  rewrite alter_all_lookup.
  - rewrite decide_False; [done |]. intros Hin.
    pose proof (elem_of_sublist _ _ _ Hin
                  (sublist_drop (delete i (gameWorldObjects w)) i)) as Hin'.
    apply list_elem_of_lookup in Hin' as [j Hj].
    rewrite list_lookup_delete in Hj.
    destruct (decide (j < i)%nat);
      pose proof (NoDup_lookup _ _ _ _ Hnd Hi Hj); lia.
  - eapply sublist_NoDup; [| apply sublist_drop]. by apply NoDup_delete.
Qed.

Lemma elem_of_delete_other (l : list nat) i k r :
  l !! i = Some r -> i <> k -> r ∈ delete k l.
Proof.
  intros Hi Hne. apply list_elem_of_lookup.
  destruct (decide (i < k)%nat) as [Hlt | Hge].
  - exists i. rewrite list_lookup_delete. by rewrite decide_True.
  - exists (i - 1)%nat. rewrite list_lookup_delete.
    rewrite decide_False by lia. by replace (S (i - 1)) with i by lia.
Qed.

Lemma evolves_lookup w w' r o :
  evolves w w' -> heap w !! r = Some o ->
  exists o', heap w' !! r = Some o' /\ variant o' = variant o /\ radius o' = radius o.
Proof. intros (_ & _ & Hk & _). apply Hk. Qed.

Lemma Bullet_update_visit h w i r o :
  well_indexed w ->
  gameWorldObjects w !! i = Some r ->
  heap w !! r = Some o ->
  instanceof_Bullet o = true ->
  exists w',
    Bullet_update h r w = Some w'
    /\ well_indexed w'
    /\ evolves w w'
    /\ (length (heap w') <= length (heap w) + 3)%nat
    /\ (gameWorldObjects w' = gameWorldObjects w \/ r ∉ gameWorldObjects w').
Proof.
  intros Hw Hi Ho Hb. unfold Bullet_update. rewrite Ho. cbn [mbind option_bind].
  set (o1 := GameWorldObject_update h o).
  set (w0 := store r o1 w).
  assert (Hw0 : well_indexed w0).
  { eapply store_well_indexed; [done | done | apply update_keeps_index]. }
  assert (He0 : evolves w w0).
  { eapply evolves_store; [done | apply update_keeps_variant | apply update_keeps_radius]. }
  assert (Ho1 : heap w0 !! r = Some o1) by (by eapply store_lookup).
  assert (Hi0 : gameWorldObjects w0 !! i = Some r) by done.
  assert (Hl0 : length (heap w0) = length (heap w)) by apply length_insert.
  assert (Hv1 : variant o1 = variant o) by apply update_keeps_variant.
  assert (Hobjs0 : gameWorldObjects w0 = gameWorldObjects w) by done.
  clearbody w0 o1.
  destruct (first_collision_total w0 o1 (gameWorldObjects w0))
    as (res & -> & Hres).
  { intros r'. by apply well_indexed_is_Some. }
  cbn [mbind option_bind].
  destruct res as [a |].
  - (* a hit *)
    destruct Hres as (Ha & p & Hp & Hpa & _).
    apply list_elem_of_lookup in Ha as [ia Hia].
    destruct (explode_spec h w0 a ia p Hw0 Hia Hp)
      as (w1 & w2 & Hsp & Hd2 & He & Hw2 & Hobjs2 & Hnin2).
    assert (He2 : evolves w0 w2).
    { eapply evolves_trans; [eapply spawned_evolves, Hsp | eapply evolves_destroy, Hd2]. }
    assert (Hl2 : (length (heap w2) <= length (heap w0) + 3)%nat).
    { destruct (destroy_globals _ _ _ Hd2) as (_ & _ & _ & _ & ->).
      destruct Hsp as (cs & Hn & -> & _). rewrite length_app, Hn.
      unfold children_count. repeat case_match; lia. }
    unfold resolve_hit. rewrite He. cbn [mbind option_bind].
    destruct (evolves_lookup _ _ _ _ He2 Hp) as (p2 & -> & _).
    cbn [mbind option_bind].
    set (w3 := addToScore (hit_points p2) w2).
    assert (Hw3 : well_indexed w3) by done.
    assert (Hne : i <> ia).
    { intros ->. rewrite Hi0 in Hia. injection Hia as ->.
      rewrite Ho1 in Hp. injection Hp as <-.
      unfold instanceof_Asteroid in Hpa. unfold instanceof_Bullet in Hb.
      rewrite Hv1 in Hpa. by destruct (variant o). }
    assert (Hr3 : r ∈ gameWorldObjects w3).
    { change (gameWorldObjects w3) with (gameWorldObjects w2). rewrite Hobjs2.
      apply elem_of_app. left. by eapply elem_of_delete_other. }
    apply list_elem_of_lookup in Hr3 as [j Hj].
    destruct (destroy_live w3 r j Hw3 Hj) as (w4 & Hd4 & Hw4 & Hobjs4 & Hnin4).
    rewrite Hd4. cbn [mbind option_bind].
    pose proof (destroy_keeps_self w3 r j w4 Hw3 Hj Hd4) as Hself.
    destruct (Hw3 j r Hj) as (q & Hq & Hqj).
    rewrite Hself, Hq. cbn [mbind option_bind].
    assert (He4 : evolves w w4).
    { eapply evolves_trans; [exact He0 |].
      eapply evolves_trans; [exact He2 |].
      eapply evolves_trans; [| eapply evolves_destroy, Hd4].
      by apply evolves_same_store. }
    assert (Hl4 : (length (heap w4) <= length (heap w) + 3)%nat).
    { destruct (destroy_globals _ _ _ Hd4) as (_ & _ & _ & _ & ->).
      change (heap w3) with (heap w2). lia. }
    destruct (1 <=? timesWarped q)%Z.
    + assert (Hq4 : heap w4 !! r = Some q) by (by rewrite Hself).
      destruct (destroy_well_indexed w4 r q Hw4 Hq4) as (w5 & Hd5 & Hw5 & Hobjs5); [lia |].
      exists w5. split_and!; [done | done | | | ].
      * eapply evolves_trans; [exact He4 | eapply evolves_destroy, Hd5].
      * destruct (destroy_globals _ _ _ Hd5) as (_ & _ & _ & _ & ->). done.
      * right. intros Hin. apply Hnin4. rewrite Hobjs5 in Hin.
        eapply elem_of_sublist; [exact Hin | apply sublist_delete].
    + exists w4. split_and!; [done | done | done | done | by right].
  - (* no hit *)
    cbn [mbind option_bind]. rewrite Ho1. cbn [mbind option_bind].
    destruct (1 <=? timesWarped o1)%Z.
    + destruct (destroy_live w0 r i Hw0 Hi0) as (w1 & Hd1 & Hw1 & Hobjs1 & Hnin1).
      exists w1. split_and!; [done | done | | | by right].
      * eapply evolves_trans; [exact He0 | eapply evolves_destroy, Hd1].
      * destruct (destroy_globals _ _ _ Hd1) as (_ & _ & _ & _ & ->). lia.
    + exists w0. split_and!; [done | done | done | lia | by left].
Qed.

Lemma update_visit h w i r :
  well_indexed w ->
  gameWorldObjects w !! i = Some r ->
  exists w',
    update h r w = Some w'
    /\ well_indexed w'
    /\ evolves w w'
    /\ (length (heap w') <= length (heap w) + 3)%nat
    /\ (gameWorldObjects w' = gameWorldObjects w
        \/ (is_bullet w r = true /\ r ∉ gameWorldObjects w')).
Proof.
  intros Hw Hi. destruct (Hw i r Hi) as (o & Ho & _).
  unfold update. rewrite Ho. cbn [mbind option_bind].
  destruct (variant o) as [s | v | rot] eqn:Hv.
  - destruct (Ship_update_visit h w r o s Hw Ho Hv)
      as (w' & Hu & Hw' & He & Hobjs & Hl).
    exists w'. split_and!; [done | done | done | lia | by left].
  - assert (Hb : instanceof_Bullet o = true)
      by (unfold instanceof_Bullet; by rewrite Hv).
    destruct (Bullet_update_visit h w i r o Hw Hi Ho Hb)
      as (w' & Hu & Hw' & He & Hl & Hobjs).
    exists w'. split_and!; [done | done | done | done |].
    destruct Hobjs as [Hsame | Hnin]; [by left | right].
    split; [| done]. unfold is_bullet. by rewrite Ho.
  - destruct (Asteroid_update_visit h w r o rot Hw Ho Hv)
      as (w' & Hu & Hw' & He & Hobjs & Hl).
    exists w'. split_and!; [done | done | done | lia | by left].
Qed.

(** ** Counting bullets *)

Lemma count_bullets_app w l k :
  count_bullets w (l ++ k) = (count_bullets w l + count_bullets w k)%nat.
Proof. induction l as [| r l IH]; cbn; [done | rewrite IH; lia]. Qed.

Lemma count_bullets_sublist w (l k : list nat) :
  l `sublist_of` k -> (count_bullets w l <= count_bullets w k)%nat.
Proof. induction 1; cbn; lia. Qed.

Lemma count_bullets_le_length w l : (count_bullets w l <= length l)%nat.
Proof. induction l as [| r l IH]; cbn; [done | destruct (is_bullet w r); lia]. Qed.

Lemma count_bullets_ext w w' l :
  (forall r, r ∈ l -> is_bullet w' r = is_bullet w r) ->
  count_bullets w' l = count_bullets w l.
Proof.
  induction l as [| r l IH]; intros Hext; cbn; [done |].
  rewrite Hext by apply list_elem_of_here.
  rewrite IH; [done |]. intros r' Hr'. apply Hext. by apply list_elem_of_further.
Qed.

Lemma count_bullets_none w l :
  (forall r, r ∈ l -> is_bullet w r = false) -> count_bullets w l = 0%nat.
Proof.
  induction l as [| r l IH]; intros Hnone; cbn; [done |].
  rewrite Hnone by apply list_elem_of_here.
  rewrite IH; [done |]. intros r' Hr'. apply Hnone. by apply list_elem_of_further.
Qed.

Lemma evolves_is_bullet w w' r :
  evolves w w' -> is_Some (heap w !! r) -> is_bullet w' r = is_bullet w r.
Proof.
  intros He [o Ho]. destruct (evolves_lookup _ _ _ _ He Ho) as (o' & Ho' & Hv & _).
  unfold is_bullet, instanceof_Bullet. by rewrite Ho, Ho', Hv.
Qed.

Lemma evolves_fresh_not_bullet w w' r :
  evolves w w' -> (length (heap w) <= r)%nat -> is_bullet w' r = false.
Proof.
  intros (_ & _ & _ & Hf) Hr. unfold is_bullet.
  destruct (heap w' !! r) as [o' |] eqn:Ho'; [| done]. by eapply Hf.
Qed.

(** The registry of [w'] splits into survivors of the old registry and
    references allocated since. *)
Lemma evolves_split w w' :
  evolves w w' ->
  exists old new,
    gameWorldObjects w' = old ++ new
    /\ old `sublist_of` gameWorldObjects w
    /\ (length new <= length (heap w') - length (heap w))%nat
    /\ (forall r, r ∈ new -> (length (heap w) <= r)%nat).
Proof.
  intros (Hl & Hs & _ & _). apply sublist_app_r in Hs as (old & new & Heq & Ho & Hn).
  exists old, new. split_and!; [done | done | |].
  - apply sublist_length in Hn. by rewrite length_seq in Hn.
  - intros r Hr. eapply elem_of_sublist in Hr; [| exact Hn].
    apply elem_of_seq in Hr. lia.
Qed.

Lemma rounds_left_step w w' i r :
  well_indexed w ->
  gameWorldObjects w !! i = Some r ->
  evolves w w' ->
  (length (heap w') <= length (heap w) + 3)%nat ->
  (gameWorldObjects w' = gameWorldObjects w
   \/ (is_bullet w r = true /\ r ∉ gameWorldObjects w')) ->
  (rounds_left (S i) w' + 1 <= rounds_left i w)%nat.
Proof.
  intros Hw Hi He Hl Hcase. unfold rounds_left.
  pose proof (lookup_lt_Some _ _ _ Hi) as Hlt.
  destruct Hcase as [Hsame | [Hb Hnin]].
  - rewrite Hsame.
    rewrite (count_bullets_ext w w').
    + lia.
    + intros r' Hr'. apply evolves_is_bullet; [done |].
      by apply well_indexed_is_Some.
  - destruct (evolves_split w w' He) as (old & new & Heq & Hold & Hnew & Hfresh).
    rewrite Heq in Hnin |- *. apply not_elem_of_app in Hnin as [Hnin _].
    rewrite count_bullets_app, length_app.
    rewrite (count_bullets_none w' new)
      by (intros r' Hr'; eapply evolves_fresh_not_bullet; eauto).
    rewrite (count_bullets_ext w w' old).
    2:{ intros r' Hr'. apply evolves_is_bullet; [done |].
        apply well_indexed_is_Some; [done |]. by eapply elem_of_sublist. }
    assert (Hr : r ∈ gameWorldObjects w) by (by eapply list_elem_of_lookup_2).
    apply list_elem_of_split in Hr as (l1 & l2 & Hsplit).
    rewrite Hsplit in Hold |- *.
    apply sublist_app_cons_r in Hold as [Hold | (s1 & s2 & -> & _)].
    2:{ exfalso. apply Hnin. apply elem_of_app. right. apply list_elem_of_here. }
    pose proof (count_bullets_sublist w _ _ Hold) as Hc.
    pose proof (sublist_length _ _ Hold) as Hlen.
    rewrite count_bullets_app in Hc |- *. rewrite length_app in Hlen |- *.
    cbn [count_bullets length]. rewrite Hb.
    rewrite Hsplit, length_app in Hlt. cbn [length] in Hlt.
    lia.
Qed.

(** ** The per-tick loop *)

(** With enough rounds the loop finishes, and what it leaves is again a
    well-indexed world that evolved from the first. *)
Lemma updateLoop_finishes h :
  forall fuel i w,
    well_indexed w ->
    (rounds_left i w <= fuel)%nat ->
    exists w' visited,
      updateLoop h fuel i w = Done (w', visited)
      /\ well_indexed w'
      /\ evolves w w'.
Proof.
  induction fuel as [| fuel IH]; intros i w Hw Hfuel.
  - cbn [updateLoop].
    destruct (gameWorldObjects w !! i) as [r |] eqn:Hi.
    + apply lookup_lt_Some in Hi. unfold rounds_left in Hfuel. lia.
    + exists w, []. split_and!; [done | done | apply evolves_refl].
  - cbn [updateLoop].
    destruct (gameWorldObjects w !! i) as [r |] eqn:Hi.
    + destruct (update_visit h w i r Hw Hi) as (w1 & -> & Hw1 & He1 & Hl1 & Hcase).
      pose proof (rounds_left_step w w1 i r Hw Hi He1 Hl1 Hcase) as Hstep.
      destruct (IH (S i) w1 Hw1) as (w' & visited & -> & Hw' & He'); [lia |].
      exists w', (r :: visited). split_and!; [done | done |].
      by eapply evolves_trans.
    + exists w, []. split_and!; [done | done | apply evolves_refl].
Qed.

Lemma loop_fuel_enough w : (rounds_left 0 w <= loop_fuel w)%nat.
Proof.
  unfold rounds_left, loop_fuel.
  pose proof (count_bullets_le_length w (gameWorldObjects w)). lia.
Qed.

(** Whatever the number of rounds, a finished run is a chain of visits. *)
Lemma updateLoop_Done_inv h fuel i w w' visited :
  updateLoop h fuel i w = Done (w', visited) ->
  (gameWorldObjects w !! i = None /\ w' = w /\ visited = [])
  \/ exists fuel' r w1 rest,
       fuel = S fuel'
       /\ gameWorldObjects w !! i = Some r
       /\ update h r w = Some w1
       /\ updateLoop h fuel' (S i) w1 = Done (w', rest)
       /\ visited = r :: rest.
Proof.
  destruct fuel as [| fuel]; cbn [updateLoop];
    destruct (gameWorldObjects w !! i) as [r |] eqn:Hi; intros Hrun;
    try (left; by injection Hrun as <- <-); try done.
  right. destruct (update h r w) as [w1 |] eqn:Hu; [| done].
  destruct (updateLoop h fuel (S i) w1) as [[w2 rest] | |] eqn:Hrest; try done.
  injection Hrun as <- <-. exists fuel, r, w1, rest. done.
Qed.

Lemma updateLoop_evolves h :
  forall fuel i w w' visited,
    well_indexed w ->
    updateLoop h fuel i w = Done (w', visited) ->
    well_indexed w' /\ evolves w w'.
Proof.
  induction fuel as [| fuel IH]; intros i w w' visited Hw Hrun;
    apply updateLoop_Done_inv in Hrun
      as [(_ & -> & _) | (fuel' & r & w1 & rest & Hf & Hi & Hu & Hrest & _)];
    try (split; [done | apply evolves_refl]); [done |].
  injection Hf as <-.
  destruct (update_visit h w i r Hw Hi) as (w1' & Hu' & Hw1 & He1 & _).
  rewrite Hu in Hu'. injection Hu' as <-.
  destruct (IH _ _ _ _ Hw1 Hrest) as [Hw' He']. split; [done |].
  by eapply evolves_trans.
Qed.

Lemma sublist_drop_mono {A} (l k : list A) n :
  l `sublist_of` k -> drop n l `sublist_of` drop n k.
Proof.
  intros Hs. revert n. induction Hs as [| x l k Hs IH | x l k Hs IH]; intros n.
  - by rewrite drop_nil.
  - destruct n as [| n]; cbn; [by constructor | apply IH].
  - destruct n as [| n]; cbn; [by constructor |].
    etrans; [| apply IH].
    destruct (l !! n) as [y |] eqn:Hy.
    + rewrite (drop_S l y n Hy). by constructor.
    + apply lookup_ge_None in Hy. rewrite !drop_ge by lia. done.
Qed.

(** A reference met from slot [S i] on after a visit of slot [i] was in
    the registry beyond slot [i] before, or has been allocated since. *)
Lemma evolves_drop w w' i x :
  evolves w w' ->
  (i < length (gameWorldObjects w))%nat ->
  x ∈ drop (S i) (gameWorldObjects w') ->
  x ∈ drop (S i) (gameWorldObjects w) \/ (length (heap w) <= x)%nat.
Proof.
  intros (_ & Hs & _ & _) Hi Hx.
  apply (sublist_drop_mono _ _ (S i)) in Hs.
  eapply elem_of_sublist in Hx; [| exact Hs].
  rewrite drop_app_le in Hx by lia.
  apply elem_of_app in Hx as [Hx | Hx]; [by left | right].
  apply elem_of_seq in Hx. lia.
Qed.

(** No object is updated twice in one run of the loop. *)
Lemma updateLoop_visits_once h :
  forall fuel i w w' visited,
    well_indexed w ->
    updateLoop h fuel i w = Done (w', visited) ->
    NoDup visited
    /\ forall x, x ∈ visited ->
         x ∈ drop i (gameWorldObjects w) \/ (length (heap w) <= x)%nat.
Proof.
  induction fuel as [| fuel IH]; intros i w w' visited Hw Hrun;
    apply updateLoop_Done_inv in Hrun
      as [(_ & _ & ->) | (fuel' & r & w1 & rest & Hf & Hi & Hu & Hrest & ->)];
    try (split; [constructor | intros x Hx; by apply elem_of_nil in Hx]);
    [done |].
  injection Hf as <-.
  destruct (update_visit h w i r Hw Hi) as (w1' & Hu' & Hw1 & He1 & _).
  rewrite Hu in Hu'. injection Hu' as <-.
  destruct (IH _ _ _ _ Hw1 Hrest) as [Hnd Hfrom].
  pose proof (lookup_lt_Some _ _ _ Hi) as Hlt.
  pose proof (well_indexed_valid w i r Hw Hi) as Hr.
  pose proof He1 as (Hgrow & _).
  assert (Hlater : forall x, x ∈ rest ->
            x ∈ drop (S i) (gameWorldObjects w) \/ (length (heap w) <= x)%nat).
  { intros x Hx. destruct (Hfrom x Hx) as [Hd | Hfresh]; [| right; lia].
    by eapply evolves_drop. }
  split.
  - constructor; [| done]. intros Hin.
    destruct (Hlater r Hin) as [Hd | Hfresh]; [| lia].
    apply list_elem_of_lookup in Hd as [j Hj]. rewrite lookup_drop in Hj.
    pose proof (NoDup_lookup _ _ _ _ (well_indexed_NoDup w Hw) Hi Hj). lia.
  - intros x Hx. apply elem_of_cons in Hx as [-> | Hx].
    + left. rewrite (drop_S _ _ _ Hi). apply list_elem_of_here.
    + destruct (Hlater x Hx) as [Hd | Hfresh]; [left | by right].
      rewrite (drop_S _ _ _ Hi). by apply list_elem_of_further.
Qed.

(** An object that left the registry does not come back. *)
Lemma evolves_gone w w' r :
  evolves w w' -> (r < length (heap w))%nat ->
  r ∉ gameWorldObjects w -> r ∉ gameWorldObjects w'.
Proof.
  intros He Hr Hnin Hin.
  destruct (evolves_split w w' He) as (old & new & Heq & Hold & _ & Hfresh).
  rewrite Heq in Hin. apply elem_of_app in Hin as [Hin | Hin].
  - apply Hnin. by eapply elem_of_sublist.
  - apply Hfresh in Hin. lia.
Qed.

(** When the run removes nothing that was in the registry, it updates
    exactly the slots from [i] on, in order, and leaves the registry as
    it was. *)
Lemma updateLoop_without_removal h :
  forall fuel i w w' visited,
    well_indexed w ->
    updateLoop h fuel i w = Done (w', visited) ->
    (forall r, r ∈ gameWorldObjects w -> r ∈ gameWorldObjects w') ->
    visited = drop i (gameWorldObjects w)
    /\ gameWorldObjects w' = gameWorldObjects w.
Proof.
  induction fuel as [| fuel IH]; intros i w w' visited Hw Hrun Hkeep;
    apply updateLoop_Done_inv in Hrun
      as [(Hi & -> & ->) | (fuel' & r & w1 & rest & Hf & Hi & Hu & Hrest & ->)];
    try (split; [| done]; apply lookup_ge_None in Hi; by rewrite drop_ge);
    [done |].
  injection Hf as <-.
  destruct (update_visit h w i r Hw Hi) as (w1' & Hu' & Hw1 & He1 & _ & Hcase).
  rewrite Hu in Hu'. injection Hu' as <-.
  destruct (updateLoop_evolves h _ _ _ _ _ Hw1 Hrest) as [_ He'].
  destruct Hcase as [Hsame | [_ Hnin]].
  - destruct (IH _ _ _ _ Hw1 Hrest) as [-> Hobjs].
    { intros x Hx. apply Hkeep. by rewrite <- Hsame. }
    rewrite Hsame in *. split; [| done]. by rewrite (drop_S _ _ _ Hi).
  - exfalso. eapply (evolves_gone w1 w' r); [done | | done |].
    + pose proof (well_indexed_valid w i r Hw Hi). destruct He1 as (? & _). lia.
    + apply Hkeep. by eapply list_elem_of_lookup_2.
Qed.

(** ** The two exits of the bullet's update *)

(** The hit branch of [Bullet.prototype.update] adds [hit_points] of the
    asteroid it resolves. *)
Lemma resolve_hit_awards_hit_points h w this a ib ia p :
  well_indexed w ->
  gameWorldObjects w !! ib = Some this ->
  gameWorldObjects w !! ia = Some a ->
  this <> a ->
  heap w !! a = Some p ->
  exists w',
    resolve_hit h this a w = Some w'
    /\ score w' = (score w + hit_points p)%Z
    /\ (this ∉ gameWorldObjects w')
    /\ (a ∉ gameWorldObjects w').
Proof.
  intros Hw Hib Hia Hne Hp.
  destruct (explode_spec h w a ia p Hw Hia Hp)
    as (w1 & w2 & Hsp & Hd2 & He & Hw2 & Hobjs2 & Hnin2).
  unfold resolve_hit. rewrite He. cbn [mbind option_bind].
  destruct Hsp as (cs & _ & Hh1 & _ & Hs1 & _).
  assert (Hp1 : heap w1 !! a = Some p).
  { rewrite Hh1, lookup_app_l; [done | by eapply lookup_lt_Some]. }
  destruct (destroy_lookup _ _ _ _ _ Hd2 Hp1) as (p2 & -> & Hsame).
  cbn [mbind option_bind].
  assert (Hpts : hit_points p2 = hit_points p).
  { unfold same_but_index in Hsame. by rewrite <- Hsame. }
  rewrite Hpts.
  set (w3 := addToScore (hit_points p) w2).
  assert (Hw3 : well_indexed w3) by done.
  assert (Hin3 : this ∈ gameWorldObjects w3).
  { change (gameWorldObjects w3) with (gameWorldObjects w2). rewrite Hobjs2.
    apply elem_of_app. left. eapply elem_of_delete_other; [done |].
    intros ->. rewrite Hib in Hia. by injection Hia. }
  apply list_elem_of_lookup in Hin3 as [j Hj].
  destruct (destroy_live w3 this j Hw3 Hj) as (w4 & Hd4 & _ & Hobjs4 & Hnin4).
  exists w4. split_and!; [done | | done |].
  - destruct (destroy_globals _ _ _ Hd4) as (-> & _).
    destruct (destroy_globals _ _ _ Hd2) as (Hs2 & _).
    cbn. rewrite Hs2, Hs1. done.
  - rewrite Hobjs4. intros Hin. apply Hnin2.
    eapply elem_of_sublist; [exact Hin | apply sublist_delete].
Qed.

(** Without a hit, the expiry test of [Bullet.prototype.update] removes
    the bullet exactly when it has wrapped, and nothing else. *)
Lemma Bullet_update_without_hit h w i r o :
  well_indexed w ->
  gameWorldObjects w !! i = Some r ->
  heap w !! r = Some o ->
  first_collision (store r (GameWorldObject_update h o) w)
                  (GameWorldObject_update h o) (gameWorldObjects w)
  = Some None ->
  exists w',
    Bullet_update h r w = Some w'
    /\ gameWorldObjects w'
       = if (1 <=? timesWarped (GameWorldObject_update h o))%Z
         then delete i (gameWorldObjects w)
         else gameWorldObjects w.
Proof.
  intros Hw Hi Ho Hscan. unfold Bullet_update. rewrite Ho.
  cbn [mbind option_bind].
  change (gameWorldObjects (store r (GameWorldObject_update h o) w))
    with (gameWorldObjects w).
  rewrite Hscan. cbn [mbind option_bind].
  rewrite (store_lookup w r o _ Ho). cbn [mbind option_bind].
  destruct (1 <=? timesWarped (GameWorldObject_update h o))%Z.
  - assert (Hw0 : well_indexed (store r (GameWorldObject_update h o) w)).
    { eapply store_well_indexed; [done | done | apply update_keeps_index]. }
    destruct (destroy_live _ r i Hw0 Hi) as (w' & Hd & _ & Hobjs & _).
    exists w'. done.
  - eexists. done.
Qed.

(** ** Input handling *)

Lemma accelerate_keeps h o :
  variant (accelerate h o) = variant o
  /\ gameWorldIndex (accelerate h o) = gameWorldIndex o.
Proof.
  unfold accelerate. destruct (variant o) eqn:Hv; try done.
  destruct (sqrt_lt _ _); done.
Qed.

Lemma modify_lookup w r f o :
  heap w !! r = Some o -> heap (modify r f w) !! r = Some (f o).
Proof. intros Ho. cbn. by rewrite list_lookup_alter_eq, Ho. Qed.

Lemma fire_total h this w o s :
  heap w !! this = Some o -> variant o = Ship s ->
  exists w', fire h this w = Some w'
             /\ forall r, r ∈ gameWorldObjects w -> r ∈ gameWorldObjects w'.
Proof.
  intros Ho Hv. unfold fire. rewrite Ho. cbn [mbind option_bind]. rewrite Hv.
  destruct (_ && _); eexists; (split; [reflexivity |]); [| done].
  intros r Hr. cbn. apply elem_of_app. by left.
Qed.

Lemma handleUserInput_total h dt w o s :
  well_indexed w -> heap w !! ship w = Some o -> variant o = Ship s ->
  exists w_in,
    handleUserInput h dt w = Some w_in
    /\ well_indexed w_in
    /\ forall r, r ∈ gameWorldObjects w -> r ∈ gameWorldObjects w_in.
Proof.
  intros Hw Ho Hv. unfold handleUserInput. rewrite Ho. cbn [mbind option_bind].
  rewrite Hv.
  set (turn := rotationSpeed s * dt * 100).
  set (w1 := if key_down 37 h then modify (ship w) (rotate (JNum turn)) w
             else if key_down 39 h then modify (ship w) (rotate (JNum (- turn))) w
             else w).
  assert (H1 : well_indexed w1 /\ ship w1 = ship w
               /\ gameWorldObjects w1 = gameWorldObjects w
               /\ exists o1, heap w1 !! ship w = Some o1 /\ variant o1 = Ship s).
  { subst w1. destruct (key_down 37 h); [| destruct (key_down 39 h)].
    - split_and!; [| done | done |].
      + apply modify_well_indexed; [apply rotate_keeps_index | done].
      + eexists. split; [by apply modify_lookup |]. by rewrite rotate_keeps_variant.
    - split_and!; [| done | done |].
      + apply modify_well_indexed; [apply rotate_keeps_index | done].
      + eexists. split; [by apply modify_lookup |]. by rewrite rotate_keeps_variant.
    - split_and!; eauto. }
  clearbody w1. destruct H1 as (Hw1 & Hs1 & Hobjs1 & o1 & Ho1 & Hv1).
  rewrite Hs1.
  set (w2 := if key_down 38 h then modify (ship w) (accelerate h) w1 else w1).
  assert (H2 : well_indexed w2 /\ ship w2 = ship w
               /\ gameWorldObjects w2 = gameWorldObjects w
               /\ exists o2, heap w2 !! ship w = Some o2 /\ variant o2 = Ship s).
  { subst w2. destruct (key_down 38 h).
    - split_and!; [| done | done |].
      + apply modify_well_indexed; [apply accelerate_keeps | done].
      + eexists. split; [by apply modify_lookup |].
        destruct (accelerate_keeps h o1) as [-> _]. done.
    - split_and!; eauto. }
  clearbody w2. destruct H2 as (Hw2 & Hs2 & Hobjs2 & o2 & Ho2 & Hv2).
  rewrite Hs2. destruct (key_down 32 h).
  - destruct (fire_total h (ship w) w2 o2 s Ho2 Hv2) as (w3 & Hf & Hsub).
    exists w3. split_and!; [done | by eapply fire_well_indexed |].
    intros r Hr. apply Hsub. by rewrite Hobjs2.
  - exists w2. split_and!; [done | done |]. intros r Hr. by rewrite Hobjs2.
Qed.

Lemma isWinConditionMet_total w :
  well_indexed w -> exists b, isWinConditionMet w = Some b.
Proof.
  intros Hw. unfold isWinConditionMet.
  assert (Hvalid : forall r, r ∈ gameWorldObjects w -> is_Some (heap w !! r))
    by (intros r; by apply well_indexed_is_Some).
  induction (gameWorldObjects w) as [| r rs IH]; cbn [isWinConditionMet_from].
  - eauto.
  - destruct (Hvalid r (list_elem_of_here _ _)) as [o ->].
    cbn [mbind option_bind]. destruct (instanceof_Asteroid o); [eauto |].
    apply IH. intros r' Hr'. apply Hvalid. by apply list_elem_of_further.
Qed.

(** ** One tick (claim C1) *)

(** C1, as the code has it: a tick started from a well-indexed registry
    completes; no object is updated twice; every object updated was in
    the registry when the loop started (a bullet fired by the input
    handling of the tick included) or was appended during the loop; and
    when nothing that was in the registry at the start of the loop has
    left it at the end, the loop updates exactly the objects of the
    registry, each once, in registry order. *)
Theorem tick_updates_each_object_at_most_once :
  forall (h : Host) (dt : Q) (w : GameWorld) (o : GameWorldObject)
         (s : ShipSettings),
    well_indexed w ->
    heap w !! ship w = Some o ->
    variant o = Ship s ->
    exists w_in w' visited won,
      handleUserInput h dt w = Some w_in
      /\ updateLoop h (loop_fuel w_in) 0 w_in = Done (w', visited)
      /\ isWinConditionMet w' = Some won
      /\ updateGameWorld h dt w
         = Done (if won then setGameState WIN_LEVEL_SCENE w' else w', visited)
      /\ (forall r, r ∈ gameWorldObjects w -> r ∈ gameWorldObjects w_in)
      /\ NoDup visited
      /\ (forall r, r ∈ visited ->
            r ∈ gameWorldObjects w_in \/ (length (heap w_in) <= r)%nat)
      /\ ((forall r, r ∈ gameWorldObjects w_in -> r ∈ gameWorldObjects w') ->
          visited = gameWorldObjects w_in).
Proof.
  intros h dt w o s Hw Ho Hv.
  destruct (handleUserInput_total h dt w o s Hw Ho Hv) as (w_in & Hin & Hw_in & Hsub).
  destruct (updateLoop_finishes h (loop_fuel w_in) 0 w_in Hw_in (loop_fuel_enough w_in))
    as (w' & visited & Hrun & Hw' & _).
  destruct (isWinConditionMet_total w' Hw') as [won Hwon].
  destruct (updateLoop_visits_once h _ _ _ _ _ Hw_in Hrun) as [Hnd Hfrom].
  exists w_in, w', visited, won. split_and!; try done.
  - unfold updateGameWorld. rewrite Hin, Hrun, Hwon. by destruct won.
  - intros Hkeep.
    by destruct (updateLoop_without_removal h _ _ _ _ _ Hw_in Hrun Hkeep).
Qed.

Lemma tick_updates_each_object_at_most_once_witness :
  exists w' visited,
    updateGameWorld quiet_host (1 # 60) busy_world = Done (w', visited)
    /\ NoDup visited.
Proof.
  assert (Hw : well_indexed busy_world)
    by (apply well_indexed_from_sound; vm_compute; reflexivity).
  destruct (tick_updates_each_object_at_most_once quiet_host (1 # 60) busy_world
              (object_at default_ship 0 400 300 0 0 20)
              (mkShipSettings (4 # 10) 5 (8 # 1000) (2 # 10) 999800 10)
              Hw eq_refl eq_refl)
    as (w_in & w' & visited & won & _ & _ & _ & Htick & _ & Hnd & _).
  eexists _, visited. split; [exact Htick | exact Hnd].
Defined.

(** C1 as stated fails.  In [busy_world] the bullet in slot 2 hits the
    rock in slot 1: the rock and the bullet leave the registry, the
    second rock (reference 3) moves from slot 3 to slot 1 and is never
    updated although it stays in the registry, and two of the three
    children spawned in this tick (references 5 and 6) are updated in
    it.  In [calm_world] with the space bar held, the bullet fired by
    the input handling (reference 2) is updated in the same tick. *)
Lemma later_object_skipped_and_new_objects_updated :
  match updateGameWorld quiet_host (1 # 60) busy_world with
  | Done (w', visited) =>
      gameWorldObjects busy_world = [0; 1; 2; 3]%nat
      /\ length (heap busy_world) = 4%nat
      /\ gameWorldObjects w' = [0; 3; 4; 5; 6]%nat
      /\ visited = [0; 1; 2; 5; 6]%nat
  | _ => False
  end
  /\ match updateGameWorld firing_host (1 # 60) calm_world with
     | Done (w', visited) =>
         gameWorldObjects calm_world = [0; 1]%nat
         /\ length (heap calm_world) = 2%nat
         /\ gameWorldObjects w' = [0; 1; 2]%nat
         /\ visited = [0; 1; 2]%nat
     | _ => False
     end.
Proof. vm_compute. repeat split. Qed.

(** ** Ship collision (claim C2) *)

(** C2, as the code has it: when the ship, advanced and slowed down, is
    closer to some asteroid of the registry than 0.9 times the sum of
    the radii, [Ship.update] sets the scene to GameOver and returns;
    the loop of the tick then goes on with the next slot, and the win
    check still runs on the world the loop leaves. *)
Theorem ship_collision_sets_game_over :
  forall (h : Host) (w : GameWorld) (i r a : nat) (o p : GameWorldObject)
         (s : ShipSettings) (fuel : nat),
    well_indexed w ->
    gameWorldObjects w !! i = Some r ->
    heap w !! r = Some o ->
    variant o = Ship s ->
    a ∈ gameWorldObjects w ->
    heap w !! a = Some p ->
    instanceof_Asteroid p = true ->
    collides (apply_friction (friction s) (GameWorldObject_update h o)) p = true ->
    let w1 :=
      setGameState GAME_OVER_SCENE
        (store r (apply_friction (friction s) (GameWorldObject_update h o)) w) in
    update h r w = Some w1
    /\ gameState w1 = GAME_OVER_SCENE
    /\ updateLoop h (S fuel) i w
       = match updateLoop h fuel (S i) w1 with
         | Done (w', visited) => Done (w', r :: visited)
         | Thrown => Thrown
         | OutOfFuel => OutOfFuel
         end
    /\ forall dt w0 w' visited,
         handleUserInput h dt w0 = Some w ->
         updateLoop h (loop_fuel w) 0 w = Done (w', visited) ->
         isWinConditionMet w' = Some true ->
         updateGameWorld h dt w0
         = Done (setGameState WIN_LEVEL_SCENE w', visited).
Proof.
  intros h w i r a o p s fuel Hw Hi Ho Hv Ha Hp Hpa Hc w1.
  set (o1 := apply_friction (friction s) (GameWorldObject_update h o)) in *.
  assert (Hu : update h r w = Some w1).
  { unfold update. rewrite Ho. cbn [mbind option_bind]. rewrite Hv.
    unfold Ship_update. rewrite Ho. cbn [mbind option_bind]. rewrite Hv.
    fold o1.
    assert (Hw1 : well_indexed (store r o1 w)).
    { eapply store_well_indexed; [done | done | apply update_keeps_index]. }
    destruct (first_collision_total (store r o1 w) o1
                (gameWorldObjects (store r o1 w))) as (res & -> & Hres).
    { intros r'. by apply well_indexed_is_Some. }
    cbn [mbind option_bind]. destruct res as [a' |]; [done |].
    exfalso.
    assert (Hne : r <> a).
    { intros ->. rewrite Ho in Hp. injection Hp as <-.
      unfold instanceof_Asteroid in Hpa. by rewrite Hv in Hpa. }
    assert (Hp1 : heap (store r o1 w) !! a = Some p).
    { cbn. by rewrite list_lookup_insert_ne. }
    specialize (Hres a p Ha Hp1). by rewrite Hpa, Hc in Hres. }
  split_and!; [done | done | |].
  - cbn [updateLoop]. by rewrite Hi, Hu.
  - intros dt w0 w' visited Hin Hrun Hwon.
    unfold updateGameWorld. by rewrite Hin, Hrun, Hwon.
Qed.

Lemma ship_collision_sets_game_over_witness :
  exists w1,
    update quiet_host 0%nat doomed_world = Some w1
    /\ gameState w1 = GAME_OVER_SCENE.
Proof.
  assert (Hw : well_indexed doomed_world)
    by (apply well_indexed_from_sound; vm_compute; reflexivity).
  assert (Hin : 1%nat ∈ gameWorldObjects doomed_world)
    by (apply list_elem_of_further, list_elem_of_here).
  destruct (ship_collision_sets_game_over quiet_host doomed_world
              0%nat 0%nat 1%nat
              (object_at default_ship 0 100 100 0 0 20)
              (rock SMALL 1 110 100 0 0)
              (mkShipSettings (4 # 10) 5 (8 # 1000) (2 # 10) 999800 10)
              0%nat Hw eq_refl eq_refl eq_refl Hin eq_refl eq_refl)
    as (Hu & Hs & _).
  { vm_compute. reflexivity. }
  eexists. split; [exact Hu | exact Hs].
Defined.

(** C2 as stated fails.  In [doomed_world] the ship in slot 0 overlaps
    the only rock, so its update sets GameOver; the tick nevertheless
    updates the rock and the bullet, whose hit removes the rock, and
    the win check then replaces GameOver by WinLevel. *)
Lemma game_over_does_not_end_the_tick :
  match update quiet_host 0%nat doomed_world with
  | Some w1 => gameState w1 = GAME_OVER_SCENE
  | None => False
  end
  /\ match updateGameWorld quiet_host (1 # 60) doomed_world with
     | Done (w', visited) =>
         visited = [0; 1; 2]%nat
         /\ gameWorldObjects w' = [0]%nat
         /\ score w' = 100%Z
         /\ gameState w' = WIN_LEVEL_SCENE
     | _ => False
     end.
Proof. vm_compute. repeat split. Qed.

(** ** Bullet expiry (claim C4) *)

(** C4 fails on the code at this input.  In [wrap_hit_world] the
    bullet crosses the right edge and lands inside the rock.  Resolving
    the hit alone leaves the ship and the three children; the expiry
    test that follows calls [destroy] on the bullet a second time, and
    the stale index removes the first child (reference 3), still an
    asteroid in the store, from the registry. *)
Theorem bullet_hit_and_wrap_destroys_twice :
  let bullet := object_at (Bullet 11) 2 795 100 11 0 3 in
  let w0 := store 2%nat (GameWorldObject_update quiet_host bullet) wrap_hit_world in
  timesWarped (GameWorldObject_update quiet_host bullet) = 1%Z
  /\ first_collision w0 (GameWorldObject_update quiet_host bullet)
                     (gameWorldObjects w0) = Some (Some 1%nat)
  /\ match resolve_hit quiet_host 2%nat 1%nat w0 with
     | Some w2 =>
         gameWorldObjects w2 = [0; 3; 4; 5]%nat
         /\ (gameWorldIndex <$> heap w2 !! 2%nat) = Some 1%Z
     | None => False
     end
  /\ match Bullet_update quiet_host 2%nat wrap_hit_world with
     | Some w' =>
         gameWorldObjects w' = [0; 4; 5]%nat
         /\ (instanceof_Asteroid <$> heap w' !! 3%nat) = Some true
     | None => False
     end.
Proof. vm_compute. repeat split. Qed.

(** * Further properties of the code *)

(** ** The win condition *)

Lemma isWinConditionMet_from_true w rs :
  (forall r, r ∈ rs -> is_Some (heap w !! r)) ->
  (isWinConditionMet_from w rs = Some true
   <-> forall r o, r ∈ rs -> heap w !! r = Some o -> instanceof_Asteroid o = false).
Proof.
  induction rs as [| a rs IH]; intros Hvalid; cbn [isWinConditionMet_from].
  - split; [| done]. intros _ r o Hr. by apply elem_of_nil in Hr.
  - destruct (Hvalid a (list_elem_of_here _ _)) as [p Hp]. rewrite Hp.
    cbn [mbind option_bind].
    assert (Hrest : forall r, r ∈ rs -> is_Some (heap w !! r)).
    { intros r Hr. apply Hvalid. by apply list_elem_of_further. }
    specialize (IH Hrest).
    destruct (instanceof_Asteroid p) eqn:Hpa.
    + split; [done |]. intros Hall.
      specialize (Hall a p (list_elem_of_here _ _) Hp). congruence.
    + rewrite IH. split.
      * intros Hall r o Hr Ho. apply elem_of_cons in Hr as [-> | Hr].
        -- rewrite Hp in Ho. by injection Ho as <-.
        -- by eapply Hall.
      * intros Hall r o Hr. apply Hall. by apply list_elem_of_further.
Qed.

(** X1: The win check answers, and it answers [true] exactly when no object
    of the registry is an asteroid, whatever else the registry holds. *)
Theorem win_exactly_without_asteroids :
  forall (w : GameWorld),
    well_indexed w ->
    (exists won, isWinConditionMet w = Some won)
    /\ (isWinConditionMet w = Some true
        <-> forall r o, r ∈ gameWorldObjects w -> heap w !! r = Some o ->
                        instanceof_Asteroid o = false).
Proof.
  intros w Hw. split; [by apply isWinConditionMet_total |].
  apply isWinConditionMet_from_true. intros r. by apply well_indexed_is_Some.
Qed.

Lemma win_exactly_without_asteroids_witness :
  isWinConditionMet busy_world = Some false
  /\ exists won, isWinConditionMet calm_world = Some won.
Proof.
  assert (Hw : well_indexed calm_world)
    by (apply well_indexed_from_sound; vm_compute; reflexivity).
  split; [reflexivity |].
  apply (win_exactly_without_asteroids calm_world Hw).
Defined.

(** ** The outline moves with the position *)

(** X2: One call of [update] keeps the number of outline vertices and moves
    every vertex by exactly what it moves the position: the offset of
    each vertex from the centre is unchanged, wrap or no wrap. *)
Theorem outline_moves_with_position :
  forall (h : Host) (this : GameWorldObject) (k : nat) (g : Vector),
    geometry this !! k = Some g ->
    length (geometry (GameWorldObject_update h this)) = length (geometry this)
    /\ exists g',
         geometry (GameWorldObject_update h this) !! k = Some g'
         /\ X g' - X (position (GameWorldObject_update h this))
            == X g - X (position this)
         /\ Y g' - Y (position (GameWorldObject_update h this))
            == Y g - Y (position this).
Proof.
  intros h this k g Hk.
  edge_cases h this; rewrite ?length_map; (split; [reflexivity |]);
    rewrite ?list_lookup_fmap, Hk; cbn [fmap option_fmap option_map];
    (eexists; split; [reflexivity |]);
    cbn [X Y shift_X shift_Y]; split; ring.
Qed.

Lemma outline_moves_with_position_witness :
  let this :=
    mkObject (Bullet 11) 0 (mkVector 795 100) (mkVector 11 0) 0 3
             [mkVector 795 100] 0 in
  exists g',
    geometry (GameWorldObject_update quiet_host this) !! 0%nat = Some g'
    /\ X g' - X (position (GameWorldObject_update quiet_host this))
       == 795 - 795.
Proof.
  intros this.
  destruct (outline_moves_with_position quiet_host this 0%nat (mkVector 795 100)
              eq_refl) as (_ & g' & Hg & Hx & _).
  exists g'. split; [exact Hg | exact Hx].
Defined.

(** ** Angles stay normalised in play *)


Lemma update_keeps_angle h this :
  angle (GameWorldObject_update h this) = angle this.
Proof. edge_cases h this; reflexivity. Qed.

Lemma new_Asteroid_rotation h w pos vel ang rad :
  variant (new_Asteroid h w pos vel ang rad).1
  = Asteroid (Math_random h (randomCalls w) * 8 - 4).
Proof.
  unfold new_Asteroid, random. cbv beta iota zeta.
  set (w1 := with_randomCalls (S (randomCalls w)) w).
  set (o := new_GameWorldObject w1 _ pos vel ang rad).
  set (mn := radius o * 3 / 4).
  pose proof (outline_fold h mn rad (seq 0 granularity) o w1) as (Hv & _).
  cbv beta iota zeta in Hv. rewrite Hv. reflexivity.
Qed.



(** The constructor side of the same invariant. *)
Lemma new_Asteroid_rotation_range h w pos vel ang rad :
  random_in_unit h ->
  exists rot,
    variant (new_Asteroid h w pos vel ang rad).1 = Asteroid rot
    /\ -4 <= rot /\ rot < 4.
Proof.
  intros Hunit. eexists. split; [apply new_Asteroid_rotation |].
  destruct (Hunit (randomCalls w)). split; lra.
Qed.

(** ** The ship's angle under the keyboard *)

Lemma accelerate_keeps_angle h o : angle (accelerate h o) = angle o.
Proof.
  unfold accelerate. destruct (variant o); try done.
  destruct (sqrt_lt _ _); done.
Qed.

Lemma set_lastFired_keeps_angle t o : angle (set_lastFired t o) = angle o.
Proof. unfold set_lastFired. by destruct (variant o). Qed.

Lemma set_lastFired_Ship t o s :
  variant o = Ship s ->
  variant (set_lastFired t o)
  = Ship (mkShipSettings (acceleration s) (rotationSpeed s) (friction s)
                         (fireRate s) t (maxVelocity s)).
Proof. unfold set_lastFired. by intros ->. Qed.




(** ** The middle tier *)

(** X5: Exploding an asteroid of the registry that was built at the MEDIUM
    tier removes it and appends exactly three asteroids built at the
    SMALL tier, at its position, with angle 0: the registry grows by
    two. *)
Theorem explode_medium :
  forall (h : Host) (w : GameWorld) (this i : nat) (o : GameWorldObject),
    well_indexed w ->
    gameWorldObjects w !! i = Some this ->
    heap w !! this = Some o ->
    built_at_tier o MEDIUM ->
    exists w',
      explode h this w = Some w'
      /\ gameWorldObjects w'
         = delete i (gameWorldObjects w) ++ seq (length (heap w)) 3
      /\ length (gameWorldObjects w') = (length (gameWorldObjects w) + 2)%nat
      /\ forall j, (j < 3)%nat ->
           exists c, heap w' !! (length (heap w) + j)%nat = Some c
                     /\ child_of h SMALL o c.
Proof.
  intros h w this i o Hw Hi Ho (u & H0 & H1 & Hr).
  destruct (explode_spec h w this i o Hw Hi Ho)
    as (w1 & w' & Hsp & Hd & He & Hw' & Hobjs & Hnin).
  pose proof (tier_radius_range MEDIUM u H0 H1) as [Hlo Hhi].
  cbn [AsteroidRadius] in Hlo, Hhi.
  assert (Hc : children_count o = 3%nat /\ children_tier o = SMALL).
  { unfold children_count, children_tier. cbn [AsteroidRadius].
    destruct (Qgeb (radius o) 40) eqn:E1.
    { apply Qgeb_true in E1. exfalso. lra. }
    destruct (Qgeb (radius o) 20) eqn:E2; [done |].
    apply Qgeb_false in E2. exfalso. lra. }
  destruct Hc as [Hc Ht]. rewrite Hc, Ht in *.
  exists w'. split_and!; [done | done | |].
  - rewrite Hobjs, length_app, length_seq.
    rewrite length_delete by (rewrite Hi; eauto).
    apply lookup_lt_Some in Hi. lia.
  - intros j Hj. destruct Hsp as (cs & Hn & Hh & _ & _ & _ & Hcs & _).
    destruct (lookup_lt_is_Some_2 cs j) as [c Hc']; [lia |].
    assert (Hc1 : heap w1 !! (length (heap w) + j)%nat = Some c).
    { rewrite Hh, lookup_app_r by lia.
      by replace (length (heap w) + j - length (heap w))%nat with j by lia. }
    destruct (destroy_lookup _ _ _ _ _ Hd Hc1) as (c' & Hc'' & Hsame).
    exists c'. split; [done |].
    rewrite Forall_lookup in Hcs. destruct (Hcs _ _ Hc') as (Ha & Hp & Hang & Hb).
    unfold same_but_index in Hsame. rewrite <- Hsame in Ha, Hp, Hang, Hb.
    repeat split; done.
Qed.

Lemma explode_medium_witness :
  exists w',
    explode quiet_host 1%nat medium_world = Some w'
    /\ gameWorldObjects w' = [0; 2; 3; 4]%nat.
Proof.
  assert (Hw : well_indexed medium_world)
    by (apply well_indexed_from_sound; vm_compute; reflexivity).
  destruct (explode_medium quiet_host medium_world 1%nat 1%nat
              (rock MEDIUM 1 100 100 0 0) Hw eq_refl eq_refl)
    as (w' & He & Hobjs & _).
  { exists (1 # 2). split_and!; [done | done | reflexivity]. }
  exists w'. split; [exact He | exact Hobjs].
Defined.

(** ** destroy on an object that is no longer in the registry *)

Lemma not_elem_of_delete_twice (l : list nat) i x y :
  NoDup l -> l !! i = Some x -> l !! S i = Some y ->
  (x ∉ delete i (delete i l)) /\ (y ∉ delete i (delete i l)).
Proof.
  intros Hnd Hx Hy.
  assert (Hlook : forall j, delete i (delete i l) !! j
                            = l !! (if decide (j < i)%nat then j else S (S j))).
  { intros j. rewrite !list_lookup_delete.
    destruct (decide (j < i)%nat) as [Hlt | Hge].
    - by rewrite decide_True.
    - by rewrite decide_False by lia. }
  split; intros Hin; apply list_elem_of_lookup in Hin as [j Hj];
    rewrite Hlook in Hj; destruct (decide (j < i)%nat).
  - pose proof (NoDup_lookup _ _ _ _ Hnd Hx Hj). lia.
  - pose proof (NoDup_lookup _ _ _ _ Hnd Hx Hj). lia.
  - pose proof (NoDup_lookup _ _ _ _ Hnd Hy Hj). lia.
  - pose proof (NoDup_lookup _ _ _ _ Hnd Hy Hj). lia.
Qed.

(** X6: [destroy] is not idempotent.  Called a second time on an object it
    has already removed, it does not throw: it reuses the object's old
    slot number, so it removes the object that followed it in the
    registry (nothing when it was last), and the indices of the objects
    that remain are still exact. *)
Theorem destroy_twice_removes_the_successor :
  forall (w : GameWorld) (this i : nat),
    well_indexed w ->
    gameWorldObjects w !! i = Some this ->
    exists w1 w2,
      destroy this w = Some w1
      /\ gameWorldObjects w1 = delete i (gameWorldObjects w)
      /\ destroy this w1 = Some w2
      /\ gameWorldObjects w2 = delete i (delete i (gameWorldObjects w))
      /\ well_indexed w2
      /\ (forall next, gameWorldObjects w !! S i = Some next ->
            next ∉ gameWorldObjects w2)
      /\ (gameWorldObjects w !! S i = None ->
            gameWorldObjects w2 = gameWorldObjects w1).
Proof.
  intros w this i Hw Hi.
  destruct (Hw i this Hi) as (o & Ho & Hio).
  destruct (destroy_live w this i Hw Hi) as (w1 & Hd1 & Hw1 & Hobjs1 & Hnin1).
  pose proof (destroy_keeps_self w this i w1 Hw Hi Hd1) as Hself.
  rewrite Ho in Hself.
  destruct (destroy_well_indexed w1 this o Hw1 Hself) as (w2 & Hd2 & Hw2 & Hobjs2);
    [lia |].
  rewrite Hio, Nat2Z.id, Hobjs1 in Hobjs2.
  exists w1, w2. split_and!; try done.
  - intros next Hnext. rewrite Hobjs2.
    by apply (not_elem_of_delete_twice _ i this next (well_indexed_NoDup w Hw)).
  - intros Hnone. rewrite Hobjs2, Hobjs1.
    apply lookup_ge_None in Hnone.
    assert (Hlen : (length (delete i (gameWorldObjects w)) <= i)%nat).
    { rewrite length_delete by (rewrite Hi; eauto). lia. }
    rewrite (delete_take_drop (delete i _)), drop_ge, take_ge by lia.
    by rewrite app_nil_r.
Qed.

Lemma destroy_twice_removes_the_successor_witness :
  exists w1 w2,
    destroy 1%nat busy_world = Some w1
    /\ destroy 1%nat w1 = Some w2
    /\ gameWorldObjects w2 = [0; 3]%nat.
Proof.
  assert (Hw : well_indexed busy_world)
    by (apply well_indexed_from_sound; vm_compute; reflexivity).
  destruct (destroy_twice_removes_the_successor busy_world 1%nat 1%nat Hw eq_refl)
    as (w1 & w2 & Hd1 & _ & Hd2 & Hobjs & _).
  exists w1, w2. split_and!; [exact Hd1 | exact Hd2 | exact Hobjs].
Defined.

(** ** Firing *)

(** X7: [fire] is rate limited.  When more than [fireRate] seconds have
    passed since a (non-zero) [lastFired], it appends exactly one bullet
    to the registry, at the ship's position, with the ship's angle, an
    exact index and no wrap counted; a second [fire] at the same clock
    reading then changes nothing.  When no more than [fireRate] seconds
    have passed, [fire] changes nothing. *)
Theorem fire_is_rate_limited :
  forall (h : Host) (w : GameWorld) (this : nat) (o : GameWorldObject)
         (s : ShipSettings),
    heap w !! this = Some o ->
    variant o = Ship s ->
    0 <= fireRate s ->
    (Date_now h - lastFired s <= fireRate s * 1000 -> fire h this w = Some w)
    /\ (~ lastFired s == 0 -> fireRate s * 1000 < Date_now h - lastFired s ->
        exists w' b,
          fire h this w = Some w'
          /\ gameWorldObjects w' = gameWorldObjects w ++ [length (heap w)]
          /\ heap w' !! length (heap w) = Some b
          /\ instanceof_Bullet b = true
          /\ position b = position o
          /\ angle b = angle o
          /\ timesWarped b = 0%Z
          /\ gameWorldIndex b = Z.of_nat (length (gameWorldObjects w))
          /\ score w' = score w
          /\ fire h this w' = Some w').
Proof.
  intros h w this o s Ho Hv Hrate. split.
  - intros Hearly. unfold fire. rewrite Ho. cbn [mbind option_bind]. rewrite Hv.
    replace (Qgtb (Date_now h - lastFired s) (fireRate s * 1000)) with false
      by (symmetry; by apply Qgtb_false).
    by rewrite andb_false_r.
  - intros Hnz Hlate.
    set (b := new_Bullet h w (new_Vector (X (position o)) (Y (position o))) (angle o)).
    set (w' := modify this (set_lastFired (Date_now h)) (add_object b w)).
    assert (Hf : fire h this w = Some w').
    { unfold fire. rewrite Ho. cbn [mbind option_bind]. rewrite Hv.
      replace (Qgtb (Date_now h - lastFired s) (fireRate s * 1000)) with true
        by (symmetry; by apply Qgtb_true).
      replace (Qeq_bool (lastFired s) 0) with false; [done |].
      symmetry. apply not_true_is_false. intros Heq. by apply Qeq_bool_iff in Heq. }
    pose proof (lookup_lt_Some _ _ _ Ho) as Hlt.
    assert (Hthis : heap w' !! this = Some (set_lastFired (Date_now h) o)).
    { subst w'. cbn. rewrite list_lookup_alter_eq, lookup_app_l by done.
      by rewrite Ho. }
    exists w', b. split_and!; try done.
    + subst w'. cbn. rewrite list_lookup_alter_ne by lia.
      by rewrite lookup_app_r, Nat.sub_diag.
    + subst b. cbn. by destruct (position o).
    + unfold fire. rewrite Hthis. cbn [mbind option_bind].
      rewrite (set_lastFired_Ship _ _ _ Hv). cbn [lastFired fireRate].
      replace (Qgtb (Date_now h - Date_now h) (fireRate s * 1000)) with false.
      * by rewrite andb_false_r.
      * symmetry. apply Qgtb_false. lra.
Qed.

Lemma fire_is_rate_limited_witness :
  exists w' b,
    fire firing_host 0%nat calm_world = Some w'
    /\ gameWorldObjects w' = [0; 1; 2]%nat
    /\ heap w' !! 2%nat = Some b
    /\ instanceof_Bullet b = true.
Proof.
  destruct (fire_is_rate_limited firing_host calm_world 0%nat
              (object_at default_ship 0 400 300 0 0 20)
              (mkShipSettings (4 # 10) 5 (8 # 1000) (2 # 10) 999800 10)
              eq_refl eq_refl) as [_ Hfire]; [vm_compute; congruence |].
  destruct Hfire as (w' & b & Hf & Hobjs & Hb & Hbullet & _);
    [vm_compute; congruence | vm_compute; congruence |].
  exists w', b. split_and!; [exact Hf | exact Hobjs | exact Hb | exact Hbullet].
Defined.

(** ** Keys *)

Lemma key_down_with_keysDown code keys h :
  key_down code (with_keysDown keys h) = existsb (Z.eqb code) keys.
Proof. reflexivity. Qed.

(** X8: A key counts as held from its [keydown] on, and no longer after its
    [keyup], however often it was pressed; the other keys are not
    touched by either listener. *)
Theorem key_held_until_released :
  forall (h : Host) (ev : KeyEvent) (other : Z),
    key_down (keyCode ev) (press (keyCode ev) h) = true
    /\ key_down (keyCode ev) (onKeyUp ev (press (keyCode ev) h)) = false
    /\ key_down (keyCode ev) (onKeyUp ev h) = false
    /\ (other <> keyCode ev ->
        key_down other (press (keyCode ev) h) = key_down other h
        /\ key_down other (onKeyUp ev h) = key_down other h).
Proof.
  intros h ev other.
  assert (Hup : forall keys,
            existsb (Z.eqb (keyCode ev))
                    (filter (fun k => k <> keyCode ev) keys) = false).
  { intros keys. apply not_true_is_false. intros Hex.
    apply existsb_exists in Hex as (k & Hk & Heq).
    apply Z.eqb_eq in Heq. subst k.
    apply list_elem_of_In, list_elem_of_filter in Hk as [Hne _]. done. }
  split_and!.
  - unfold press. rewrite key_down_with_keysDown. cbn. by rewrite Z.eqb_refl.
  - unfold onKeyUp. rewrite key_down_with_keysDown. apply Hup.
  - unfold onKeyUp. rewrite key_down_with_keysDown. apply Hup.
  - intros Hne. split.
    + unfold press. rewrite key_down_with_keysDown. cbn.
      replace (other =? keyCode ev)%Z with false; [done |].
      symmetry. by apply Z.eqb_neq.
    + unfold onKeyUp. rewrite key_down_with_keysDown. unfold key_down.
      induction (keysDown h) as [| k keys IH]; [done |].
      rewrite filter_cons. destruct (decide (k <> keyCode ev)) as [Hk | Hk].
      * cbn. by rewrite IH.
      * cbn. rewrite IH. apply dec_stable in Hk. subst k.
        replace (other =? keyCode ev)%Z with false; [done |].
        symmetry. by apply Z.eqb_neq.
Qed.

Lemma key_held_until_released_witness :
  key_down 37 (press 38 quiet_host) = key_down 37 quiet_host
  /\ key_down 37 (onKeyUp (mkKeyEvent 38 38) quiet_host) = key_down 37 quiet_host.
Proof.
  apply (key_held_until_released quiet_host (mkKeyEvent 38 38) 37). discriminate.
Defined.

(** ** pointInPolygon *)

(** The division in the loop body is only reached with a non-zero
    denominator. *)
Lemma edge_in_reach_not_level vi vj point :
  edge_in_reach vi vj point = true -> ~ Y vj - Y vi == 0.
Proof.
  unfold edge_in_reach. rewrite !andb_true_iff, !orb_true_iff, !andb_true_iff.
  rewrite !Qltb_true, !Qgeb_true. intros [[[? ?] | [? ?]] _] Heq; lra.
Qed.

Lemma pointInPolygon_from_out_of_reach point rest :
  forall vj odd,
    (forall vi vj', edge_in_reach vi vj' point = true ->
                    vi ∈ vj :: rest -> vj' ∈ vj :: rest -> False) ->
    pointInPolygon_from point rest vj odd = odd.
Proof.
  induction rest as [| vi rest IH]; intros vj odd Hout; cbn [pointInPolygon_from];
    [done |].
  destruct (edge_in_reach vi vj point) eqn:Hreach.
  - exfalso. eapply (Hout vi vj Hreach).
    + apply list_elem_of_further, list_elem_of_here.
    + apply list_elem_of_here.
  - apply IH. intros a b Hab Ha Hb.
    eapply (Hout a b Hab); by apply list_elem_of_further.
Qed.

(** X9: A point is reported outside whenever every vertex has a smaller y
    than the point, or none has, or every vertex has a larger x than
    the point; a polygon without vertices contains no point. *)
Theorem pointInPolygon_outside_the_band :
  forall (point : Vector) (polygon : list Vector),
    (forall g, g ∈ polygon -> Y g < Y point)
    \/ (forall g, g ∈ polygon -> Y point <= Y g)
    \/ (forall g, g ∈ polygon -> X point < X g) ->
    pointInPolygon point polygon = false.
Proof.
  intros point polygon Hside. unfold pointInPolygon.
  destruct (last polygon) as [vj |] eqn:Hlast; [| done].
  assert (Hvj : vj ∈ polygon).
  { apply last_Some in Hlast as [l' ->]. apply elem_of_app. right.
    apply list_elem_of_here. }
  apply pointInPolygon_from_out_of_reach.
  intros a b Hab Ha Hb.
  assert (Ha' : a ∈ polygon) by (apply elem_of_cons in Ha as [-> | ?]; done).
  assert (Hb' : b ∈ polygon) by (apply elem_of_cons in Hb as [-> | ?]; done).
  unfold edge_in_reach in Hab.
  rewrite !andb_true_iff, !orb_true_iff, !andb_true_iff in Hab.
  rewrite !Qltb_true, !Qgeb_true in Hab.
  destruct Hside as [Hs | [Hs | Hs]];
    pose proof (Hs a Ha'); pose proof (Hs b Hb');
    destruct Hab as [[[? ?] | [? ?]] [? | ?]]; lra.
Qed.

Lemma pointInPolygon_outside_the_band_witness :
  pointInPolygon (mkVector 5 50) [mkVector 0 0; mkVector 10 0; mkVector 10 10]
  = false.
Proof.
  apply pointInPolygon_outside_the_band. left. intros g Hg.
  repeat (apply elem_of_cons in Hg as [-> | Hg]; [vm_compute; reflexivity |]).
  by apply elem_of_nil in Hg.
Defined.

(** X10: For an upright rectangle the test answers [true] exactly on the
    half-open box: strictly right of the left side and up to the right
    side, strictly beyond the first row and up to the last. *)
Theorem pointInPolygon_rectangle :
  forall (x0 y0 x1 y1 px py : Q),
    x0 < x1 -> y0 < y1 ->
    (pointInPolygon (mkVector px py) (rectangle x0 y0 x1 y1) = true
     <-> (x0 < px /\ px <= x1) /\ (y0 < py /\ py <= y1)).
Proof.
  intros x0 y0 x1 y1 px py Hx Hy.
  unfold pointInPolygon, rectangle. cbn [last pointInPolygon_from].
  unfold edge_in_reach, edge_left_of. cbn [X Y].
  compare_cases; cbn [andb orb xorb negb]; split; intros H;
    try discriminate; try reflexivity;
    try (exfalso; lra); try (split; split; lra);
    try (destruct H as [[? ?] [? ?]]; exfalso; lra).
Qed.

Lemma pointInPolygon_rectangle_witness :
  pointInPolygon (mkVector 5 5) (rectangle 0 0 10 10) = true.
Proof.
  apply (pointInPolygon_rectangle 0 0 10 10 5 5); vm_compute; repeat split; congruence.
Defined.

(** * The registry during play *)

Lemma same_but_index_field {B} (g : GameWorldObject -> B) o o' :
  (forall k x, g (with_gameWorldIndex k x) = g x) ->
  same_but_index o o' -> g o' = g o.
Proof.
  intros Hg Hs. unfold same_but_index in Hs. rewrite <- Hs. symmetry. apply Hg.
Qed.

Lemma fresh_asteroid_same_but_index h c c' :
  fresh_asteroid h c -> same_but_index c c' -> fresh_asteroid h c'.
Proof.
  intros (w & pos & vel & t & Hc) Hs. exists w, pos, vel, t.
  by eapply same_but_index_trans.
Qed.

Lemma carries_refl h w : carries h w w.
Proof.
  split_and!; [done | lia | by left | |].
  - intros r o Ho. exists o. split; [done | apply same_but_index_refl].
  - intros r c Hr Hc. apply lookup_lt_Some in Hc. lia.
Qed.

Lemma carries_trans h w1 w2 w3 : carries h w1 w2 -> carries h w2 w3 -> carries h w1 w3.
Proof.
  intros (Hs1 & Hp1 & Hg1 & Ho1 & Hf1) (Hs2 & Hp2 & Hg2 & Ho2 & Hf2).
  split_and!.
  - congruence.
  - lia.
  - destruct Hg2 as [-> | ->]; [done | by right].
  - intros r o Ho. destruct (Ho1 r o Ho) as (o2 & Ho2' & Hsame).
    destruct (Ho2 r o2 Ho2') as (o3 & Ho3 & Hsame'). exists o3.
    split; [done | by eapply same_but_index_trans].
  - intros r c Hr Hc.
    destruct (heap w2 !! r) as [c2 |] eqn:Hc2.
    + destruct (Ho2 r c2 Hc2) as (c3 & Hc3 & Hsame).
      rewrite Hc in Hc3. injection Hc3 as <-.
      eapply fresh_asteroid_same_but_index; [eapply Hf1; done | done].
    + apply lookup_ge_None in Hc2. by eapply Hf2.
Qed.

Lemma carries_same_store h w w' :
  heap w' = heap w -> ship w' = ship w -> (score w <= score w')%Z ->
  (gameState w' = gameState w \/ gameState w' = GAME_OVER_SCENE) ->
  carries h w w'.
Proof.
  intros Hh Hs Hp Hg. split_and!; [done | done | done | |].
  - intros r o Ho. exists o. rewrite Hh. split; [done | apply same_but_index_refl].
  - intros r c Hr Hc. rewrite Hh in Hc. apply lookup_lt_Some in Hc. lia.
Qed.

Lemma carries_destroy h w this w' : destroy this w = Some w' -> carries h w w'.
Proof.
  intros Hd. destruct (destroy_globals _ _ _ Hd) as (Hs & Hg & Hsh & _ & Hl).
  split_and!; [done | lia | by left | |].
  - intros r o Ho. by eapply destroy_lookup.
  - intros r c Hr Hc. apply lookup_lt_Some in Hc. lia.
Qed.

Lemma carries_spawn_child h t this w w' :
  spawn_child h t this w = Some w' -> carries h w w'.
Proof.
  unfold spawn_child, random. cbv beta iota zeta.
  set (w2 := with_randomCalls _ (with_randomCalls _ w)).
  assert (Hh2 : heap w2 = heap w) by done.
  assert (Hg2 : ship w2 = ship w /\ score w2 = score w /\ gameState w2 = gameState w)
    by done.
  clearbody w2.
  destruct (heap w2 !! this) as [o |]; [| done]. cbn [mbind option_bind].
  match goal with
  | |- context [new_Asteroid h w2 ?p ?v 0 (AsteroidRadius t)] =>
      pose proof (new_Asteroid_fields h w2 p v 0 (AsteroidRadius t)) as Hspec;
      assert (Hfresh : fresh_asteroid h (new_Asteroid h w2 p v 0 (AsteroidRadius t)).1)
        by (exists w2, p, v, t; apply same_but_index_refl);
      destruct (new_Asteroid h w2 p v 0 (AsteroidRadius t)) as [c w3]
  end.
  cbv beta iota zeta in Hspec. cbn [fst snd] in Hspec, Hfresh.
  destruct Hspec as (_ & _ & _ & _ & _ & _ & _ & ->).
  intros [= <-]. destruct Hg2 as (Hsh & Hsc & Hgs).
  split_and!.
  - done.
  - cbn [add_object alloc push score with_heap with_gameWorldObjects with_randomCalls].
    lia.
  - by left.
  - intros r p Hp. exists p. split; [| apply same_but_index_refl].
    cbn [add_object alloc push heap with_heap with_gameWorldObjects with_randomCalls].
    rewrite Hh2, lookup_app_l; [done | by eapply lookup_lt_Some].
  - intros r c' Hr.
    cbn [add_object alloc push heap with_heap with_gameWorldObjects with_randomCalls].
    rewrite Hh2. intros Hc. rewrite lookup_app_r in Hc by done.
    apply list_lookup_singleton_Some in Hc as [_ <-]. done.
Qed.

Lemma carries_spawn_children h t this w w' :
  spawn_children h t this w = Some w' -> carries h w w'.
Proof.
  unfold spawn_children. intros H.
  destruct (spawn_child h t this w) as [w1 |] eqn:H1; [| done].
  cbn [mbind option_bind] in H.
  destruct (spawn_child h t this w1) as [w2 |] eqn:H2; [| done].
  cbn [mbind option_bind] in H.
  eapply carries_trans; [eapply carries_spawn_child, H1 |].
  eapply carries_trans; [eapply carries_spawn_child, H2 |].
  eapply carries_spawn_child, H.
Qed.

Lemma carries_explode h this w w' : explode h this w = Some w' -> carries h w w'.
Proof.
  unfold explode. intros H.
  destruct (heap w !! this) as [o |]; [| done]. cbn [mbind option_bind] in H.
  match type of H with
  | (?m ≫= _) = _ => destruct m as [w1 |] eqn:H1; [| done]
  end.
  cbn [mbind option_bind] in H.
  eapply carries_trans; [| eapply carries_destroy, H].
  repeat case_match.
  - eapply carries_spawn_children, H1.
  - eapply carries_spawn_children, H1.
  - injection H1 as <-. apply carries_refl.
Qed.

Lemma hit_points_nonneg p : (0 <= hit_points p)%Z.
Proof. unfold hit_points, AsteroidScore. repeat case_match; lia. Qed.

Lemma carries_resolve_hit h this a w w' :
  resolve_hit h this a w = Some w' -> carries h w w'.
Proof.
  unfold resolve_hit. intros H.
  destruct (explode h a w) as [w1 |] eqn:H1; [| done].
  cbn [mbind option_bind] in H.
  destruct (heap w1 !! a) as [p |]; [| done]. cbn [mbind option_bind] in H.
  eapply carries_trans; [eapply carries_explode, H1 |].
  eapply carries_trans; [| eapply carries_destroy, H].
  apply carries_same_store; [done | done | | by left].
  cbn. pose proof (hit_points_nonneg p). lia.
Qed.

(** Every [update] first writes the object's own update and then only
    removes objects from the registry or adds fresh asteroids. *)
Lemma update_carries h r w w' :
  update h r w = Some w' ->
  exists o, heap w !! r = Some o /\ carries h (store r (own_update h o) w) w'.
Proof.
  unfold update. intros H.
  destruct (heap w !! r) as [o |] eqn:Ho; [| done]. cbn [mbind option_bind] in H.
  exists o. split; [done |]. unfold own_update.
  destruct (variant o) as [s | v | rot] eqn:Hv.
  - unfold Ship_update in H. rewrite Ho in H. cbn [mbind option_bind] in H.
    rewrite Hv in H.
    match type of H with
    | (?m ≫= _) = _ => destruct m as [hit |]; [| done]
    end.
    cbn [mbind option_bind] in H. destruct hit; injection H as <-.
    + apply carries_same_store; [done | done | done | by right].
    + apply carries_refl.
  - unfold Bullet_update in H. rewrite Ho in H. cbn [mbind option_bind] in H.
    match type of H with
    | (?m ≫= _) = _ => destruct m as [hit |]; [| done]
    end.
    cbn [mbind option_bind] in H.
    match type of H with
    | (?m ≫= _) = _ => destruct m as [w1 |] eqn:H1; [| done]
    end.
    cbn [mbind option_bind] in H.
    destruct (heap w1 !! r) as [q |]; [| done]. cbn [mbind option_bind] in H.
    assert (Hc1 : carries h (store r (GameWorldObject_update h o) w) w1).
    { destruct hit.
      - eapply carries_resolve_hit, H1.
      - injection H1 as <-. apply carries_refl. }
    destruct (1 <=? timesWarped q)%Z.
    + eapply carries_trans; [exact Hc1 | eapply carries_destroy, H].
    + by injection H as <-.
  - unfold Asteroid_update in H. rewrite Ho in H. cbn [mbind option_bind] in H.
    rewrite Hv in H. injection H as <-. apply carries_refl.
Qed.

Lemma lookup_slot_after_removal (l : list nat) k i r :
  l !! i = Some r -> k <> i -> delete k l !! slot_after_removal k i = Some r.
Proof.
  intros Hi Hne. unfold slot_after_removal. rewrite list_lookup_delete.
  destruct (decide (k < i)%nat).
  - destruct (decide (i - 1 < k)%nat); [lia |].
    replace (S (i - 1)) with i by lia. done.
  - destruct (decide (i < k)%nat); [done | lia].
Qed.

(** The whole effect of [Bullet.prototype.update] on registry and score. *)
Lemma Bullet_update_cases h w i r o :
  well_indexed w ->
  gameWorldObjects w !! i = Some r ->
  heap w !! r = Some o ->
  instanceof_Bullet o = true ->
  let o1 := GameWorldObject_update h o in
  exists w',
    Bullet_update h r w = Some w'
    /\ ((first_collision (store r o1 w) o1 (gameWorldObjects w) = Some None
         /\ score w' = score w
         /\ gameWorldObjects w'
            = if (1 <=? timesWarped o1)%Z then delete i (gameWorldObjects w)
              else gameWorldObjects w)
        \/ exists a ia p,
             first_collision (store r o1 w) o1 (gameWorldObjects w) = Some (Some a)
             /\ gameWorldObjects w !! ia = Some a
             /\ ia <> i
             /\ heap w !! a = Some p
             /\ instanceof_Asteroid p = true
             /\ collides o1 p = true
             /\ score w' = (score w + hit_points p)%Z
             /\ let j := slot_after_removal ia i in
                let hit := delete j (delete ia (gameWorldObjects w))
                           ++ seq (length (heap w)) (children_count p) in
                gameWorldObjects w'
                = if (1 <=? timesWarped o1)%Z then delete j hit else hit).
Proof.
  intros Hw Hi Ho Hb o1. unfold Bullet_update. rewrite Ho. cbn [mbind option_bind].
  fold o1.
  set (w0 := store r o1 w).
  assert (Hw0 : well_indexed w0).
  { eapply store_well_indexed; [done | done | apply update_keeps_index]. }
  assert (Ho1 : heap w0 !! r = Some o1) by (by eapply store_lookup).
  assert (Hi0 : gameWorldObjects w0 !! i = Some r) by done.
  assert (Hl0 : length (heap w0) = length (heap w)) by apply length_insert.
  assert (Hv1 : variant o1 = variant o) by apply update_keeps_variant.
  assert (Hobjs0 : gameWorldObjects w0 = gameWorldObjects w) by done.
  assert (Hs0 : score w0 = score w) by done.
  assert (Hother : forall r' p, r' <> r -> heap w0 !! r' = Some p -> heap w !! r' = Some p).
  { intros r' p Hne Hp. subst w0. unfold store in Hp. cbn [heap with_heap] in Hp.
    by rewrite list_lookup_insert_ne in Hp. }
  rewrite <- Hobjs0.
  clearbody w0.
  destruct (first_collision_total w0 o1 (gameWorldObjects w0))
    as (res & -> & Hres).
  { intros r'. by apply well_indexed_is_Some. }
  cbn [mbind option_bind].
  destruct res as [a |].
  - (* a hit *)
    destruct Hres as (Ha & p & Hp & Hpa & Hcol).
    apply list_elem_of_lookup in Ha as [ia Hia].
    assert (Hne : ia <> i).
    { intros ->. rewrite Hi0 in Hia. injection Hia as ->.
      rewrite Ho1 in Hp. injection Hp as <-.
      unfold instanceof_Asteroid in Hpa. unfold instanceof_Bullet in Hb.
      rewrite Hv1 in Hpa. by destruct (variant o). }
    assert (Hra : a <> r).
    { intros ->. pose proof (well_indexed_NoDup _ Hw0) as Hnd.
      apply Hne. eapply NoDup_lookup; done. }
    destruct (explode_spec h w0 a ia p Hw0 Hia Hp)
      as (w1 & w2 & Hsp & Hd2 & He & Hw2 & Hobjs2 & Hnin2).
    unfold resolve_hit. rewrite He. cbn [mbind option_bind].
    destruct Hsp as (cs & Hn & Hh1 & _ & Hs1 & _).
    assert (Hp1 : heap w1 !! a = Some p).
    { rewrite Hh1, lookup_app_l; [done | by eapply lookup_lt_Some]. }
    destruct (destroy_lookup _ _ _ _ _ Hd2 Hp1) as (p2 & -> & Hsame).
    cbn [mbind option_bind].
    assert (Hpts : hit_points p2 = hit_points p).
    { unfold same_but_index in Hsame. by rewrite <- Hsame. }
    rewrite Hpts.
    assert (Hr1 : heap w1 !! r = Some o1).
    { rewrite Hh1, lookup_app_l; [done | by eapply lookup_lt_Some]. }
    destruct (destroy_lookup _ _ _ _ _ Hd2 Hr1) as (q & Hq & Hsameq).
    assert (Htw : timesWarped q = timesWarped o1).
    { by apply (same_but_index_field timesWarped). }
    set (w3 := addToScore (hit_points p) w2).
    assert (Hw3 : well_indexed w3) by done.
    set (j := slot_after_removal ia i).
    assert (Hj2 : delete ia (gameWorldObjects w0) !! j = Some r).
    { by apply lookup_slot_after_removal. }
    assert (Hj : gameWorldObjects w3 !! j = Some r).
    { change (gameWorldObjects w3) with (gameWorldObjects w2). rewrite Hobjs2.
      rewrite lookup_app_l; [done | by eapply lookup_lt_Some]. }
    destruct (destroy_live w3 r j Hw3 Hj) as (w4 & Hd4 & Hw4 & Hobjs4 & Hnin4).
    rewrite Hd4. cbn [mbind option_bind].
    pose proof (destroy_keeps_self w3 r j w4 Hw3 Hj Hd4) as Hself.
    change (heap w3) with (heap w2) in Hself. rewrite Hq in Hself.
    rewrite Hself. cbn [mbind option_bind]. rewrite Htw.
    assert (Hobjs4' : gameWorldObjects w4
                      = delete j (delete ia (gameWorldObjects w0))
                        ++ seq (length (heap w)) (children_count p)).
    { rewrite Hobjs4. change (gameWorldObjects w3) with (gameWorldObjects w2).
      rewrite Hobjs2, Hl0. apply delete_app_l. by eapply lookup_lt_Some. }
    assert (Hs4 : score w4 = (score w + hit_points p)%Z).
    { destruct (destroy_globals _ _ _ Hd4) as (-> & _).
      destruct (destroy_globals _ _ _ Hd2) as (Hs2 & _).
      cbn. rewrite Hs2, Hs1, Hs0. done. }
    assert (Hpw : heap w !! a = Some p) by (by apply Hother).
    destruct (1 <=? timesWarped o1)%Z.
    + assert (Hqj : gameWorldIndex q = Z.of_nat j).
      { destruct (Hw3 j r Hj) as (x & Hx & Hxj).
        change (heap w3) with (heap w2) in Hx. rewrite Hq in Hx.
        by injection Hx as <-. }
      assert (Hq4 : heap w4 !! r = Some q) by (by rewrite Hself).
      destruct (destroy_well_indexed w4 r q Hw4 Hq4) as (w5 & Hd5 & Hw5 & Hobjs5); [lia |].
      rewrite Hqj, Nat2Z.id in Hobjs5.
      exists w5. split; [done |]. right. exists a, ia, p.
      split_and!; try done.
      * destruct (destroy_globals _ _ _ Hd5) as (-> & _). done.
      * cbv zeta. fold j. rewrite Hobjs5, Hobjs4'. done.
    + exists w4. split; [done |]. right. exists a, ia, p.
      split_and!; try done.
  - (* no hit *)
    cbn [mbind option_bind]. rewrite Ho1. cbn [mbind option_bind].
    destruct (1 <=? timesWarped o1)%Z.
    + destruct (destroy_live w0 r i Hw0 Hi0) as (w1 & Hd1 & Hw1 & Hobjs1 & Hnin1).
      exists w1. split; [done |]. left. split_and!; [done | | done].
      destruct (destroy_globals _ _ _ Hd1) as (-> & _). done.
    + exists w0. split; [done |]. left. done.
Qed.

Lemma steer_keeps h dt o s :
  variant o = Ship s ->
  variant (steer h dt o) = Ship s
  /\ gameWorldIndex (steer h dt o) = gameWorldIndex o.
Proof.
  intros Hv. unfold steer. rewrite Hv. cbv zeta.
  destruct (key_down 38 h).
  - destruct (accelerate_keeps h
                (if key_down 37 h then rotate (JNum (rotationSpeed s * dt * 100)) o
                 else if key_down 39 h
                      then rotate (JNum (- (rotationSpeed s * dt * 100))) o
                      else o)) as [-> ->].
    destruct (key_down 37 h); [| destruct (key_down 39 h)];
      rewrite ?rotate_keeps_variant, ?rotate_keeps_index; done.
  - destruct (key_down 37 h); [| destruct (key_down 39 h)];
      rewrite ?rotate_keeps_variant, ?rotate_keeps_index; done.
Qed.

(** The whole effect of [handleUserInput]: the ship is steered; when a
    shot is due, one bullet is appended and the ship's [lastFired] set;
    nothing else changes. *)
Lemma handleUserInput_effect h dt w o s :
  heap w !! ship w = Some o -> variant o = Ship s ->
  exists w_in o_in,
    handleUserInput h dt w = Some w_in
    /\ ship w_in = ship w
    /\ score w_in = score w
    /\ gameState w_in = gameState w
    /\ heap w_in !! ship w = Some o_in
    /\ (forall r, r <> ship w -> (r < length (heap w))%nat ->
          heap w_in !! r = heap w !! r)
    /\ ((o_in = steer h dt o
         /\ gameWorldObjects w_in = gameWorldObjects w
         /\ length (heap w_in) = length (heap w))
        \/ (o_in = set_lastFired (Date_now h) (steer h dt o)
            /\ gameWorldObjects w_in = gameWorldObjects w ++ [length (heap w)]
            /\ heap w_in !! length (heap w) = Some (bullet_of h w (steer h dt o))
            /\ length (heap w_in) = S (length (heap w)))).
Proof.
  intros Ho Hv. unfold handleUserInput. rewrite Ho. cbn [mbind option_bind].
  rewrite Hv.
  set (turn := rotationSpeed s * dt * 100).
  set (o1 := if key_down 37 h then rotate (JNum turn) o
             else if key_down 39 h then rotate (JNum (- turn)) o else o).
  set (w1 := if key_down 37 h then modify (ship w) (rotate (JNum turn)) w
             else if key_down 39 h then modify (ship w) (rotate (JNum (- turn))) w
             else w).
  assert (H1 : ship w1 = ship w /\ score w1 = score w /\ gameState w1 = gameState w
               /\ gameWorldObjects w1 = gameWorldObjects w
               /\ length (heap w1) = length (heap w)
               /\ heap w1 !! ship w = Some o1
               /\ (forall r, r <> ship w -> heap w1 !! r = heap w !! r)).
  { subst w1 o1. destruct (key_down 37 h); [| destruct (key_down 39 h)].
    - split_and!; try done.
      + apply length_alter.
      + by apply modify_lookup.
      + intros r Hr. apply list_lookup_alter_ne. done.
    - split_and!; try done.
      + apply length_alter.
      + by apply modify_lookup.
      + intros r Hr. apply list_lookup_alter_ne. done.
    - split_and!; done. }
  clearbody w1. destruct H1 as (Hs1 & Hsc1 & Hg1 & Hobjs1 & Hl1 & Ho1 & Hoth1).
  rewrite Hs1.
  set (o2 := if key_down 38 h then accelerate h o1 else o1).
  set (w2 := if key_down 38 h then modify (ship w) (accelerate h) w1 else w1).
  assert (H2 : ship w2 = ship w /\ score w2 = score w /\ gameState w2 = gameState w
               /\ gameWorldObjects w2 = gameWorldObjects w
               /\ length (heap w2) = length (heap w)
               /\ heap w2 !! ship w = Some o2
               /\ (forall r, r <> ship w -> heap w2 !! r = heap w !! r)).
  { subst w2 o2. destruct (key_down 38 h).
    - split_and!; try done.
      + cbn. by rewrite length_alter.
      + by apply modify_lookup.
      + intros r Hr. cbn. rewrite list_lookup_alter_ne by done. by apply Hoth1.
    - split_and!; done. }
  clearbody w2. destruct H2 as (Hs2 & Hsc2 & Hg2 & Hobjs2 & Hl2 & Ho2 & Hoth2).
  assert (Hsteer : o2 = steer h dt o).
  { unfold steer. rewrite Hv. done. }
  assert (Hv2 : variant o2 = Ship s).
  { rewrite Hsteer. by apply steer_keeps. }
  clearbody o2 o1. subst o2.
  rewrite Hs2.
  assert (Hplain : exists w_in o_in,
             Some w2 = Some w_in
             /\ ship w_in = ship w /\ score w_in = score w
             /\ gameState w_in = gameState w
             /\ heap w_in !! ship w = Some o_in
             /\ (forall r, r <> ship w -> (r < length (heap w))%nat ->
                   heap w_in !! r = heap w !! r)
             /\ ((o_in = steer h dt o
                  /\ gameWorldObjects w_in = gameWorldObjects w
                  /\ length (heap w_in) = length (heap w))
                 \/ (o_in = set_lastFired (Date_now h) (steer h dt o)
                     /\ gameWorldObjects w_in
                        = gameWorldObjects w ++ [length (heap w)]
                     /\ heap w_in !! length (heap w)
                        = Some (bullet_of h w (steer h dt o))
                     /\ length (heap w_in) = S (length (heap w))))).
  { exists w2, (steer h dt o). split_and!; try done.
    - intros r Hr _. by apply Hoth2.
    - by left. }
  destruct (key_down 32 h); [| exact Hplain].
  unfold fire. rewrite Ho2. cbn [mbind option_bind]. rewrite Hv2.
  destruct (_ && _); [| exact Hplain]. clear Hplain.
  eexists _, (set_lastFired (Date_now h) (steer h dt o)).
  split; [reflexivity |].
  assert (Hlt : (ship w < length (heap w2))%nat) by (by eapply lookup_lt_Some).
  split_and!; try done.
  - cbn. rewrite list_lookup_alter_eq, lookup_app_l by done. by rewrite Ho2.
  - intros r Hr Hlt'. cbn. rewrite list_lookup_alter_ne by done.
    rewrite lookup_app_l by lia. by apply Hoth2.
  - right. split_and!; [done | | |].
    + cbn. by rewrite Hobjs2, Hl2.
    + cbn. rewrite list_lookup_alter_ne by lia.
      rewrite lookup_app_r by lia. rewrite <- Hl2, Nat.sub_diag. cbn.
      unfold bullet_of, new_Bullet, new_GameWorldObject. by rewrite Hobjs2.
    + cbn. rewrite length_alter, length_app. cbn. lia.
Qed.

Lemma slot_after_removal_positive k i :
  (1 <= k)%nat -> (1 <= i)%nat -> k <> i -> (1 <= slot_after_removal k i)%nat.
Proof. unfold slot_after_removal. intros. case_decide; lia. Qed.

(** A bullet's update never touches slot 0 when slot 0 holds a ship. *)
Lemma Bullet_update_head h w i r o sh osh s w' :
  well_indexed w ->
  gameWorldObjects w !! 0%nat = Some sh ->
  heap w !! sh = Some osh -> variant osh = Ship s ->
  gameWorldObjects w !! i = Some r ->
  heap w !! r = Some o ->
  instanceof_Bullet o = true ->
  Bullet_update h r w = Some w' ->
  gameWorldObjects w' !! 0%nat = Some sh.
Proof.
  intros Hw H0 Hsh Hvs Hi Ho Hb Hu.
  assert (Hi1 : (1 <= i)%nat).
  { destruct i; [| lia]. rewrite H0 in Hi. injection Hi as ->.
    rewrite Hsh in Ho. injection Ho as ->.
    unfold instanceof_Bullet in Hb. by rewrite Hvs in Hb. }
  destruct (Bullet_update_cases h w i r o Hw Hi Ho Hb) as (w'' & Hu' & Hcases).
  rewrite Hu in Hu'. injection Hu' as <-.
  destruct Hcases as [(_ & _ & ->) | (a & ia & p & _ & Hia & Hne & Hp & Hpa & _ & _ & Hobjs)].
  - destruct (1 <=? timesWarped _)%Z; [| done].
    rewrite list_lookup_delete_lt by lia. done.
  - assert (Hia1 : (1 <= ia)%nat).
    { destruct ia; [| lia]. rewrite H0 in Hia. injection Hia as ->.
      rewrite Hsh in Hp. injection Hp as ->.
      unfold instanceof_Asteroid in Hpa. by rewrite Hvs in Hpa. }
    pose proof (slot_after_removal_positive ia i Hia1 Hi1 Hne) as Hj.
    cbv zeta in Hobjs. rewrite Hobjs.
    assert (Hhit : (delete (slot_after_removal ia i) (delete ia (gameWorldObjects w))
                    ++ seq (length (heap w)) (children_count p)) !! 0%nat = Some sh).
    { rewrite lookup_app_l.
      - rewrite !list_lookup_delete_lt by lia. done.
      - apply lookup_lt_is_Some.
        rewrite !list_lookup_delete_lt by lia. by eexists. }
    destruct (1 <=? timesWarped _)%Z; [| done].
    rewrite list_lookup_delete_lt by lia. done.
Qed.

Lemma own_update_keeps_variant h o : variant (own_update h o) = variant o.
Proof.
  unfold own_update. destruct (variant o) eqn:Hv.
  - destruct (apply_friction_keeps (friction s) (GameWorldObject_update h o)) as (-> & _).
    by rewrite update_keeps_variant.
  - by rewrite update_keeps_variant.
  - by rewrite rotate_keeps_variant, update_keeps_variant.
Qed.

Lemma carries_ship h w w' o s :
  carries h w w' -> heap w !! ship w = Some o -> variant o = Ship s ->
  ship w' = ship w /\ exists o', heap w' !! ship w' = Some o' /\ variant o' = Ship s.
Proof.
  intros (Hs & _ & _ & Hold & _) Ho Hv. split; [done |].
  destruct (Hold _ _ Ho) as (o' & Ho' & Hsame). exists o'. rewrite Hs.
  split; [done |]. rewrite <- Hv. by apply (same_but_index_field variant).
Qed.

Lemma update_in_play h w i r :
  in_play w -> gameWorldObjects w !! i = Some r ->
  exists w', update h r w = Some w' /\ in_play w'.
Proof.
  intros (Hw & H0 & osh & s & Hsh & Hvs) Hi.
  destruct (update_visit h w i r Hw Hi) as (w' & Hu & Hw' & Hev & _ & Hobjs).
  exists w'. split; [done |].
  destruct (update_carries h r w w' Hu) as (o & Ho & Hc).
  assert (Hship : exists s', ship w' = ship w
                   /\ exists o', heap w' !! ship w' = Some o' /\ variant o' = Ship s').
  { destruct (decide (ship w = r)) as [<- | Hne].
    - rewrite Hsh in Ho. injection Ho as <-.
      exists s. eapply (carries_ship h (store (ship w) (own_update h osh) w) w');
        [done | by eapply store_lookup |].
      by rewrite own_update_keeps_variant.
    - exists s. eapply (carries_ship h (store r (own_update h o) w) w');
        [done | | done].
      cbn. by rewrite list_lookup_insert_ne. }
  destruct Hship as (s' & Hs' & o' & Ho' & Hv').
  split_and!; [done | | by exists o', s'].
  rewrite Hs'. destruct Hobjs as [-> | [Hb Hnin]]; [done |].
  unfold is_bullet in Hb. rewrite Ho in Hb.
  unfold update in Hu. rewrite Ho in Hu. cbn [mbind option_bind] in Hu.
  unfold instanceof_Bullet in Hb. destruct (variant o) eqn:Hv; try done.
  eapply (Bullet_update_head h w i r o (ship w) osh s); try done.
  unfold instanceof_Bullet. by rewrite Hv.
Qed.

Lemma updateLoop_in_play h :
  forall fuel i w w' visited,
    in_play w ->
    updateLoop h fuel i w = Done (w', visited) ->
    in_play w'.
Proof.
  induction fuel as [| fuel IH]; intros i w w' visited Hp Hrun.
  - apply updateLoop_Done_inv in Hrun
      as [(_ & -> & _) | (fuel' & r & w1 & rest & Hf & _)]; [done | done].
  - apply updateLoop_Done_inv in Hrun
      as [(_ & -> & _) | (fuel' & r & w1 & rest & Hf & Hi & Hu & Hrest & _)]; [done |].
    injection Hf as <-.
    destruct (update_in_play h w i r Hp Hi) as (w1' & Hu' & Hp1).
    rewrite Hu in Hu'. injection Hu' as <-.
    by eapply IH.
Qed.

Lemma handleUserInput_in_play h dt w :
  in_play w -> exists w_in, handleUserInput h dt w = Some w_in /\ in_play w_in.
Proof.
  intros (Hw & H0 & o & s & Ho & Hv).
  destruct (handleUserInput_total h dt w o s Hw Ho Hv) as (w_in & Hin & Hw_in & _).
  destruct (handleUserInput_effect h dt w o s Ho Hv)
    as (w_in' & o_in & Hin' & Hs & _ & _ & Ho_in & _ & Hcases).
  rewrite Hin in Hin'. injection Hin' as <-.
  exists w_in. split; [done |]. rewrite <- Hs in Ho_in.
  destruct (steer_keeps h dt o s Hv) as [Hvs _].
  split_and!; [done | |].
  - rewrite Hs.
    destruct Hcases as [(_ & -> & _) | (_ & -> & _)]; [done |].
    rewrite lookup_app_l; [done | by eapply lookup_lt_Some].
  - destruct Hcases as [(-> & _) | (-> & _)]; [eauto |].
    eexists _, _. split; [done |]. by apply set_lastFired_Ship.
Qed.

Lemma updateGameWorld_in_play h dt w :
  in_play w ->
  exists w_in w1 w' visited won,
    handleUserInput h dt w = Some w_in
    /\ in_play w_in
    /\ updateLoop h (loop_fuel w_in) 0 w_in = Done (w1, visited)
    /\ in_play w1
    /\ isWinConditionMet w1 = Some won
    /\ w' = (if won then setGameState WIN_LEVEL_SCENE w1 else w1)
    /\ updateGameWorld h dt w = Done (w', visited)
    /\ in_play w'.
Proof.
  intros Hp. destruct (handleUserInput_in_play h dt w Hp) as (w_in & Hin & Hp_in).
  destruct (updateLoop_finishes h (loop_fuel w_in) 0 w_in)
    as (w1 & visited & Hrun & Hw1 & _); [apply Hp_in | apply loop_fuel_enough |].
  pose proof (updateLoop_in_play h _ _ _ _ _ Hp_in Hrun) as Hp1.
  destruct (isWinConditionMet_total w1 Hw1) as (won & Hwon).
  exists w_in, w1, (if won then setGameState WIN_LEVEL_SCENE w1 else w1), visited, won.
  split_and!; try done.
  - unfold updateGameWorld. rewrite Hin, Hrun, Hwon. by destruct won.
  - by destruct won.
Qed.

Lemma not_elem_of_delete (l : list nat) i x :
  NoDup l -> l !! i = Some x -> x ∉ delete i l.
Proof.
  intros Hnd Hx Hin. apply list_elem_of_lookup in Hin as [j Hj].
  rewrite list_lookup_delete in Hj.
  destruct (decide (j < i)%nat);
    pose proof (NoDup_lookup _ _ _ _ Hnd Hx Hj); lia.
Qed.

(** A bullet that is still in the registry after its update has hit
    nothing and has not wrapped. *)
Lemma Bullet_remains h w i r o w' :
  well_indexed w ->
  gameWorldObjects w !! i = Some r ->
  heap w !! r = Some o ->
  instanceof_Bullet o = true ->
  Bullet_update h r w = Some w' ->
  r ∈ gameWorldObjects w' ->
  (timesWarped (GameWorldObject_update h o) < 1)%Z
  /\ gameWorldObjects w' = gameWorldObjects w
  /\ score w' = score w.
Proof.
  intros Hw Hi Ho Hb Hu Hin.
  pose proof (well_indexed_NoDup w Hw) as Hnd.
  destruct (Bullet_update_cases h w i r o Hw Hi Ho Hb) as (w'' & Hu' & Hcases).
  rewrite Hu in Hu'. injection Hu' as <-.
  destruct Hcases as [(_ & Hs & Hobjs)
                     | (a & ia & p & _ & Hia & Hne & Hp & _ & _ & _ & Hobjs)].
  - destruct (1 <=? timesWarped _)%Z eqn:Htw.
    + rewrite Hobjs in Hin. by apply not_elem_of_delete in Hin.
    + split_and!; [lia | done | done].
  - exfalso. cbv zeta in Hobjs.
    assert (Hhit : r ∈ delete (slot_after_removal ia i) (delete ia (gameWorldObjects w))
                       ++ seq (length (heap w)) (children_count p)).
    { rewrite Hobjs in Hin. destruct (1 <=? timesWarped _)%Z; [| done].
      eapply elem_of_sublist; [exact Hin | apply sublist_delete]. }
    apply elem_of_app in Hhit as [Hhit | Hhit].
    + revert Hhit. apply not_elem_of_delete.
      * by apply NoDup_delete.
      * by apply lookup_slot_after_removal.
    + apply elem_of_seq in Hhit. apply lookup_lt_Some in Ho. lia.
Qed.

Section registry_invariant.
Variable h : Host.
Variable timeRegulationModifier : Q.
Variable P : GameWorldObject -> Prop.

Hypothesis P_index : forall o k, P o -> P (with_gameWorldIndex k o).
Hypothesis P_update :
  forall o, P o ->
    (instanceof_Bullet o = true ->
     (timesWarped (GameWorldObject_update h o) < 1)%Z) ->
    P (own_update h o).
Hypothesis P_fresh :
  forall w pos vel t, P (new_Asteroid h w pos vel 0 (AsteroidRadius t)).1.
Hypothesis P_steer :
  forall o s, variant o = Ship s -> P o -> P (steer h timeRegulationModifier o).
Hypothesis P_fired :
  forall o s t, variant o = Ship s -> P o -> P (set_lastFired t o).
Hypothesis P_bullet :
  forall w o s, variant o = Ship s -> P o -> P (bullet_of h w o).

Lemma P_same_but_index o o' : same_but_index o o' -> P o -> P o'.
Proof.
  intros Hs Hp. apply (P_index o (gameWorldIndex o')) in Hp.
  unfold same_but_index in Hs. rewrite <- Hs in Hp. by destruct o'.
Qed.

Lemma update_keeps_registry_all w i r w' :
  well_indexed w ->
  gameWorldObjects w !! i = Some r ->
  registry_all P w ->
  update h r w = Some w' ->
  registry_all P w'.
Proof.
  intros Hw Hi HP Hu r' o' Hr' Ho'.
  destruct (update_visit h w i r Hw Hi) as (w'' & Hu' & Hw' & Hev & _ & _).
  rewrite Hu in Hu'. injection Hu' as <-.
  destruct (update_carries h r w w' Hu) as (o & Ho & Hc).
  destruct Hc as (_ & _ & _ & Hold & Hnew).
  destruct (decide (length (heap w) <= r')%nat) as [Hge | Hlt].
  - destruct (Hnew r' o') as (w0 & pos & vel & t & Hsame); [| done |].
    { cbn. by rewrite length_insert. }
    eapply P_same_but_index; [exact Hsame | apply P_fresh].
  - destruct (lookup_lt_is_Some_2 (heap w) r') as [o0 Ho0]; [lia |].
    assert (Hin : r' ∈ gameWorldObjects w).
    { destruct (decide (r' ∈ gameWorldObjects w)) as [| Hnin]; [done |].
      exfalso. eapply (evolves_gone w w' r'); [done | lia | done | done]. }
    pose proof (HP r' o0 Hin Ho0) as Hp0.
    destruct (decide (r' = r)) as [-> | Hne].
    + rewrite Ho in Ho0. injection Ho0 as <-.
      destruct (Hold r (own_update h o)) as (o'' & Ho'' & Hsame).
      { by eapply store_lookup. }
      rewrite Ho' in Ho''. injection Ho'' as <-.
      eapply P_same_but_index; [exact Hsame |].
      apply P_update; [done |]. intros Hb.
      assert (Hub : Bullet_update h r w = Some w').
      { unfold update in Hu. rewrite Ho in Hu. cbn [mbind option_bind] in Hu.
        unfold instanceof_Bullet in Hb. by destruct (variant o). }
      by destruct (Bullet_remains h w i r o w' Hw Hi Ho Hb Hub Hr') as (? & _).
    + destruct (Hold r' o0) as (o'' & Ho'' & Hsame).
      { cbn. by rewrite list_lookup_insert_ne. }
      rewrite Ho' in Ho''. injection Ho'' as <-.
      by eapply P_same_but_index.
Qed.

Lemma updateLoop_keeps_registry_all :
  forall fuel i w w' visited,
    well_indexed w ->
    registry_all P w ->
    updateLoop h fuel i w = Done (w', visited) ->
    registry_all P w'.
Proof.
  induction fuel as [| fuel IH]; intros i w w' visited Hw HP Hrun.
  - apply updateLoop_Done_inv in Hrun
      as [(_ & -> & _) | (fuel' & r & w1 & rest & Hf & _)]; [done | done].
  - apply updateLoop_Done_inv in Hrun
      as [(_ & -> & _) | (fuel' & r & w1 & rest & Hf & Hi & Hu & Hrest & _)];
      [done |].
    injection Hf as <-.
    destruct (update_visit h w i r Hw Hi) as (w1' & Hu' & Hw1 & _).
    rewrite Hu in Hu'. injection Hu' as <-.
    eapply (IH (S i) w1 w' rest Hw1); [| exact Hrest].
    by apply (update_keeps_registry_all w i r w1).
Qed.

Lemma handleUserInput_keeps_registry_all w w_in :
  in_play w ->
  registry_all P w ->
  handleUserInput h timeRegulationModifier w = Some w_in ->
  registry_all P w_in.
Proof.
  intros (Hw & H0 & o & s & Ho & Hv) HP Hin r' o' Hr' Ho'.
  destruct (handleUserInput_effect h timeRegulationModifier w o s Ho Hv)
    as (w_in' & o_in & Hin' & Hs & _ & _ & Ho_in & Hother & Hcases).
  rewrite Hin in Hin'. injection Hin' as <-.
  assert (Hpo : P o).
  { eapply HP; [| done]. by eapply list_elem_of_lookup_2. }
  assert (Hps : P (steer h timeRegulationModifier o)) by (by eapply P_steer).
  assert (Hpin : P o_in).
  { destruct Hcases as [(-> & _) | (-> & _)]; [done |].
    destruct (steer_keeps h timeRegulationModifier o s Hv) as [Hvs _].
    by eapply P_fired. }
  assert (Hold : r' ∈ gameWorldObjects w -> P o').
  { intros Hr. destruct (decide (r' = ship w)) as [-> | Hne].
    - rewrite Ho_in in Ho'. by injection Ho' as <-.
    - destruct (well_indexed_is_Some w r' Hw Hr) as [o0 Ho0].
      rewrite Hother in Ho'; [| done | by eapply lookup_lt_Some].
      by eapply HP. }
  destruct Hcases as [(_ & Hobjs & _) | (_ & Hobjs & Hb & _)].
  - apply Hold. by rewrite <- Hobjs.
  - rewrite Hobjs in Hr'. apply elem_of_app in Hr' as [Hr' | Hr']; [by apply Hold |].
    apply list_elem_of_singleton in Hr' as ->.
    rewrite Hb in Ho'. injection Ho' as <-.
    destruct (steer_keeps h timeRegulationModifier o s Hv) as [Hvs _].
    by eapply P_bullet.
Qed.

(** An invariant of the objects in the registry that the constructors
    establish and the methods keep is kept by a whole tick. *)
Lemma updateGameWorld_keeps_registry_all w :
  in_play w ->
  registry_all P w ->
  exists w' visited,
    updateGameWorld h timeRegulationModifier w = Done (w', visited)
    /\ in_play w'
    /\ registry_all P w'.
Proof.
  intros Hp HP.
  destruct (updateGameWorld_in_play h timeRegulationModifier w Hp)
    as (w_in & w1 & w' & visited & won & Hin & Hp_in & Hrun & Hp1 & Hwon
        & -> & Htick & Hp').
  exists (if won then setGameState WIN_LEVEL_SCENE w1 else w1), visited.
  split_and!; [done | done |].
  assert (HP1 : registry_all P w1).
  { eapply (updateLoop_keeps_registry_all _ 0%nat w_in w1 visited);
      [apply Hp_in | | exact Hrun].
    by apply (handleUserInput_keeps_registry_all w w_in). }
  by destruct won.
Qed.
End registry_invariant.

Lemma registry_all_Forall P w :
  Forall (fun r => forall o, heap w !! r = Some o -> P o) (gameWorldObjects w) ->
  registry_all P w.
Proof. intros H r o Hr Ho. rewrite Forall_forall in H. by eapply H. Qed.

Lemma axes_crossed_nonneg h this : (0 <= axes_crossed h this)%Z.
Proof. unfold axes_crossed. repeat case_match; lia. Qed.

Lemma own_update_Bullet h o :
  instanceof_Bullet o = true -> own_update h o = GameWorldObject_update h o.
Proof.
  unfold instanceof_Bullet, own_update. by destruct (variant o).
Qed.

Lemma instanceof_Bullet_variant o o' :
  variant o' = variant o -> instanceof_Bullet o' = instanceof_Bullet o.
Proof. unfold instanceof_Bullet. by intros ->. Qed.

Lemma instanceof_Asteroid_variant o o' :
  variant o' = variant o -> instanceof_Asteroid o' = instanceof_Asteroid o.
Proof. unfold instanceof_Asteroid. by intros ->. Qed.

(** X11: In play, every bullet in the registry at the start of a frame has
    never crossed an edge: a tick always completes and leaves such a
    registry again, since a bullet is removed in the very update in which
    it wraps. *)
Theorem bullets_in_play_never_wrapped :
  forall (h : Host) (dt : Q) (w : GameWorld),
    in_play w ->
    registry_all unwrapped_bullet w ->
    exists w' visited,
      updateGameWorld h dt w = Done (w', visited)
      /\ in_play w'
      /\ registry_all unwrapped_bullet w'.
Proof.
  intros h dt w Hp HP.
  apply (updateGameWorld_keeps_registry_all h dt unwrapped_bullet);
    [| | | | | | exact Hp | exact HP].
  - intros o k Ho. exact Ho.
  - intros o Ho Hlt Hb.
    rewrite (instanceof_Bullet_variant o) in Hb by apply own_update_keeps_variant.
    rewrite own_update_Bullet by done.
    specialize (Ho Hb). specialize (Hlt Hb).
    rewrite update_timesWarped in *.
    pose proof (axes_crossed_nonneg h o). lia.
  - intros w0 pos vel t Hb.
    destruct (new_Asteroid_fields h w0 pos vel 0 (AsteroidRadius t))
      as (_ & Hnb & _).
    cbv zeta in Hnb. congruence.
  - intros o s Hv _ Hb. destruct (steer_keeps h dt o s Hv) as [Hvs _].
    unfold instanceof_Bullet in Hb. by rewrite Hvs in Hb.
  - intros o s t Hv _ Hb. unfold instanceof_Bullet in Hb.
    by rewrite (set_lastFired_Ship t o s Hv) in Hb.
  - intros w0 o s _ _ _. reflexivity.
Qed.

Lemma bullets_in_play_never_wrapped_witness :
  exists w' visited,
    updateGameWorld quiet_host (1 # 60) busy_world = Done (w', visited)
    /\ in_play w'
    /\ registry_all unwrapped_bullet w'.
Proof.
  apply (bullets_in_play_never_wrapped quiet_host (1 # 60) busy_world).
  - split_and!; [apply well_indexed_from_sound; vm_compute; reflexivity
                | reflexivity |].
    eexists _, _. split; reflexivity.
  - apply registry_all_Forall.
    repeat apply Forall_cons_2; [.. | apply Forall_nil_2];
      intros o [= <-]; intros _; reflexivity.
Defined.

Lemma own_update_keeps_radius h o : radius (own_update h o) = radius o.
Proof.
  unfold own_update. destruct (variant o).
  - destruct (apply_friction_keeps (friction s) (GameWorldObject_update h o))
      as (_ & _ & ->).
    apply update_keeps_radius.
  - apply update_keeps_radius.
  - by rewrite rotate_keeps_radius, update_keeps_radius.
Qed.




(** X13: In play, with random draws in [0, 1), every asteroid in the registry
    has the radius of one of the three tiers, before and after a tick. *)
Theorem asteroids_in_play_have_a_tier :
  forall (h : Host) (dt : Q) (w : GameWorld),
    random_in_unit h ->
    in_play w ->
    registry_all tiered w ->
    exists w' visited,
      updateGameWorld h dt w = Done (w', visited)
      /\ in_play w'
      /\ registry_all tiered w'.
Proof.
  intros h dt w Hunit Hp HP.
  apply (updateGameWorld_keeps_registry_all h dt tiered);
    [| | | | | | exact Hp | exact HP].
  - intros o k Ho. exact Ho.
  - intros o Ho _ Ha.
    rewrite (instanceof_Asteroid_variant o) in Ha by apply own_update_keeps_variant.
    destruct (Ho Ha) as (t & u & Hu0 & Hu1 & Hr). exists t, u.
    rewrite own_update_keeps_radius. done.
  - intros w0 pos vel t _. exists t. eexists. rewrite new_Asteroid_radius.
    split; [apply Hunit |]. split; [apply Hunit | reflexivity].
  - intros o s Hv _ Ha. destruct (steer_keeps h dt o s Hv) as [Hvs _].
    unfold instanceof_Asteroid in Ha. by rewrite Hvs in Ha.
  - intros o s t Hv _ Ha. unfold instanceof_Asteroid in Ha.
    by rewrite (set_lastFired_Ship t o s Hv) in Ha.
  - intros w0 o s _ _ Ha. discriminate Ha.
Qed.

Lemma asteroids_in_play_have_a_tier_witness :
  exists w' visited,
    updateGameWorld quiet_host (1 # 60) busy_world = Done (w', visited)
    /\ in_play w'
    /\ registry_all tiered w'.
Proof.
  apply (asteroids_in_play_have_a_tier quiet_host (1 # 60) busy_world).
  - intros n. vm_compute. split; congruence.
  - split_and!; [apply well_indexed_from_sound; vm_compute; reflexivity
                | reflexivity |].
    eexists _, _. split; reflexivity.
  - apply registry_all_Forall.
    repeat apply Forall_cons_2; [.. | apply Forall_nil_2];
      intros o [= <-] Ha; try discriminate Ha;
      exists LARGE, (1 # 2); vm_compute; repeat split; congruence.
Defined.

Lemma update_globals h r w w' :
  update h r w = Some w' ->
  ship w' = ship w
  /\ (score w <= score w')%Z
  /\ (gameState w' = gameState w \/ gameState w' = GAME_OVER_SCENE).
Proof.
  intros Hu. destruct (update_carries h r w w' Hu) as (o & _ & Hs & Hp & Hg & _).
  done.
Qed.

Lemma updateLoop_globals h :
  forall fuel i w w' visited,
    updateLoop h fuel i w = Done (w', visited) ->
    ship w' = ship w
    /\ (score w <= score w')%Z
    /\ (gameState w' = gameState w \/ gameState w' = GAME_OVER_SCENE).
Proof.
  induction fuel as [| fuel IH]; intros i w w' visited Hrun.
  - apply updateLoop_Done_inv in Hrun
      as [(_ & -> & _) | (fuel' & r & w1 & rest & Hf & _)]; [| done].
    split_and!; [done | lia | by left].
  - apply updateLoop_Done_inv in Hrun
      as [(_ & -> & _) | (fuel' & r & w1 & rest & Hf & Hi & Hu & Hrest & _)].
    { split_and!; [done | lia | by left]. }
    injection Hf as <-.
    destruct (update_globals h r w w1 Hu) as (Hs1 & Hp1 & Hg1).
    destruct (IH _ _ _ _ Hrest) as (Hs2 & Hp2 & Hg2).
    split_and!; [congruence | lia |].
    destruct Hg2 as [-> | ->]; [done | by right].
Qed.

(** X14: A tick in play always completes and leaves the registry in play.
    The ship reference stays, the score never drops, and the scene
    afterwards is the win scene when no asteroid is left in the
    registry, and otherwise the scene before or the game-over scene. *)
Theorem tick_in_play :
  forall (h : Host) (dt : Q) (w : GameWorld),
    in_play w ->
    exists w' visited,
      updateGameWorld h dt w = Done (w', visited)
      /\ in_play w'
      /\ ship w' = ship w
      /\ (score w <= score w')%Z
      /\ ((forall r o, r ∈ gameWorldObjects w' -> heap w' !! r = Some o ->
             instanceof_Asteroid o = false) ->
          gameState w' = WIN_LEVEL_SCENE)
      /\ ((exists r o, r ∈ gameWorldObjects w' /\ heap w' !! r = Some o
                       /\ instanceof_Asteroid o = true) ->
          gameState w' = gameState w \/ gameState w' = GAME_OVER_SCENE).
Proof.
  intros h dt w Hp.
  destruct (updateGameWorld_in_play h dt w Hp)
    as (w_in & w1 & w' & visited & won & Hin & Hp_in & Hrun & Hp1 & Hwon
        & -> & Htick & Hp').
  destruct Hp as (Hw & H0 & o & s & Ho & Hv).
  destruct (handleUserInput_effect h dt w o s Ho Hv)
    as (w_in' & o_in & Hin' & Hs_in & Hsc_in & Hg_in & _).
  rewrite Hin in Hin'. injection Hin' as <-.
  destruct (updateLoop_globals h _ _ _ _ _ Hrun) as (Hs1 & Hsc1 & Hg1).
  rewrite Hs_in in Hs1. rewrite Hsc_in in Hsc1. rewrite Hg_in in Hg1.
  assert (Hiff : won = true
                 <-> forall r o, r ∈ gameWorldObjects w1 -> heap w1 !! r = Some o ->
                                 instanceof_Asteroid o = false).
  { unfold isWinConditionMet in Hwon.
    rewrite <- (isWinConditionMet_from_true w1 (gameWorldObjects w1)).
    - rewrite Hwon. split; congruence.
    - intros r. apply well_indexed_is_Some. apply Hp1. }
  exists (if won then setGameState WIN_LEVEL_SCENE w1 else w1), visited.
  split_and!; [done | done | by destruct won | by destruct won | |].
  - intros Hnone. destruct won; [done |].
    assert (false = true); [| done]. apply Hiff. exact Hnone.
  - intros (r & p & Hr & Hp & Ha). destruct won; [| done].
    destruct Hiff as [Hiff _]. rewrite (Hiff eq_refl r p Hr Hp) in Ha. done.
Qed.

Lemma tick_in_play_witness :
  exists w' visited,
    updateGameWorld quiet_host (1 # 60) busy_world = Done (w', visited)
    /\ in_play w'
    /\ (score busy_world <= score w')%Z.
Proof.
  destruct (tick_in_play quiet_host (1 # 60) busy_world)
    as (w' & visited & H & Hp & _ & Hs & _).
  - split_and!; [apply well_indexed_from_sound; vm_compute; reflexivity
                | reflexivity |].
    eexists _, _. split; reflexivity.
  - exists w', visited. exact (conj H (conj Hp Hs)).
Defined.

(** X15: The effect of [Bullet.prototype.update] on registry and score.
    Without a hit the bullet is removed exactly when it has wrapped.  On
    a hit, the first colliding asteroid and the bullet are removed, the
    asteroid's children appended and its points added; if the bullet has
    also wrapped, the entry that has moved into the bullet's slot is
    removed as well. *)
Theorem bullet_update_outcome :
  forall (h : Host) (w : GameWorld) (i r : nat) (o : GameWorldObject),
    well_indexed w ->
    gameWorldObjects w !! i = Some r ->
    heap w !! r = Some o ->
    instanceof_Bullet o = true ->
    let o1 := GameWorldObject_update h o in
    exists w',
      Bullet_update h r w = Some w'
      /\ well_indexed w'
      /\ ((first_collision (store r o1 w) o1 (gameWorldObjects w) = Some None
           /\ score w' = score w
           /\ gameWorldObjects w'
              = if (1 <=? timesWarped o1)%Z then delete i (gameWorldObjects w)
                else gameWorldObjects w)
          \/ exists a ia p,
               first_collision (store r o1 w) o1 (gameWorldObjects w)
               = Some (Some a)
               /\ gameWorldObjects w !! ia = Some a
               /\ ia <> i
               /\ heap w !! a = Some p
               /\ instanceof_Asteroid p = true
               /\ collides o1 p = true
               /\ score w' = (score w + hit_points p)%Z
               /\ let j := slot_after_removal ia i in
                  let hit := delete j (delete ia (gameWorldObjects w))
                             ++ seq (length (heap w)) (children_count p) in
                  gameWorldObjects w'
                  = if (1 <=? timesWarped o1)%Z then delete j hit else hit).
Proof.
  intros h w i r o Hw Hi Ho Hb o1.
  destruct (Bullet_update_cases h w i r o Hw Hi Ho Hb) as (w' & Hu & Hcases).
  destruct (Bullet_update_visit h w i r o Hw Hi Ho Hb) as (w'' & Hu' & Hw' & _).
  rewrite Hu in Hu'. injection Hu' as <-.
  exists w'. done.
Qed.

Lemma bullet_update_outcome_witness :
  exists w',
    Bullet_update quiet_host 2%nat wrap_hit_world = Some w'
    /\ well_indexed w'.
Proof.
  destruct (bullet_update_outcome quiet_host wrap_hit_world 2 2
              (object_at (Bullet 11) 2 795 100 11 0 3))
    as (w' & Hu & Hw' & _).
  - apply well_indexed_from_sound. vm_compute. reflexivity.
  - reflexivity.
  - reflexivity.
  - reflexivity.
  - exists w'. exact (conj Hu Hw').
Defined.

(** * Levels, scenes and the keyboard *)

(** ** Clearing the registry *)

Lemma destroy_all_clears :
  forall fuel w,
    well_indexed w ->
    (length (gameWorldObjects w) <= fuel)%nat ->
    exists w',
      destroy_all fuel w = Done w'
      /\ gameWorldObjects w' = []
      /\ score w' = score w
      /\ gameState w' = gameState w
      /\ ship w' = ship w
      /\ randomCalls w' = randomCalls w
      /\ length (heap w') = length (heap w).
Proof.
  induction fuel as [| fuel IH]; intros w Hw Hlen.
  - destruct (gameWorldObjects w) as [| r rest] eqn:Hobjs; [| cbn in Hlen; lia].
    exists w. cbn. rewrite Hobjs. done.
  - destruct (gameWorldObjects w) as [| r rest] eqn:Hobjs.
    + exists w. cbn. rewrite Hobjs. done.
    + assert (H0 : gameWorldObjects w !! 0%nat = Some r) by (by rewrite Hobjs).
      destruct (destroy_live w r 0 Hw H0) as (w1 & Hd & Hw1 & Hobjs1 & _).
      rewrite Hobjs in Hobjs1. cbn in Hobjs1.
      destruct (IH w1 Hw1) as (w' & Hrun & Hnil & Hs & Hg & Hsh & Hrc & Hl).
      { rewrite Hobjs1. cbn in Hlen. lia. }
      destruct (destroy_globals _ _ _ Hd) as (Hs1 & Hg1 & Hsh1 & Hrc1 & Hl1).
      exists w'. cbn [destroy_all]. rewrite Hobjs, Hd.
      split_and!; [done | done | congruence | congruence | congruence
                  | congruence | congruence].
Qed.

(** X16: From a well-indexed registry [resetGame] completes: the registry is
    empty, the score 0, the level 1 and the scene the title screen. *)
Theorem resetGame_clears_the_game :
  forall (fuel : nat) (s : Session),
    well_indexed (world s) ->
    (length (gameWorldObjects (world s)) <= fuel)%nat ->
    exists s',
      resetGame fuel s = Done s'
      /\ gameWorldObjects (world s') = []
      /\ score (world s') = 0%Z
      /\ currentLevel s' = 1%Z
      /\ gameState (world s') = TITLE_SCREEN_SCENE
      /\ then_ s' = then_ s
      /\ well_indexed (world s').
Proof.
  intros fuel s Hw Hlen.
  destruct (destroy_all_clears fuel (world s) Hw Hlen)
    as (w' & Hrun & Hnil & _).
  unfold resetGame. rewrite Hrun. eexists. split; [reflexivity |].
  cbn. split_and!; try done.
  intros i r Hi. cbn in Hi. rewrite Hnil in Hi. done.
Qed.

Lemma resetGame_clears_the_game_witness :
  exists s',
    resetGame 4 (mkSession busy_world 3 0) = Done s'
    /\ gameWorldObjects (world s') = []
    /\ score (world s') = 0%Z
    /\ currentLevel s' = 1%Z.
Proof.
  destruct (resetGame_clears_the_game 4 (mkSession busy_world 3 0))
    as (s' & H & Hnil & Hs & Hl & _).
  - apply well_indexed_from_sound. vm_compute. reflexivity.
  - vm_compute. lia.
  - exists s'. exact (conj H (conj Hnil (conj Hs Hl))).
Defined.

(** ** Placing the asteroids of a level *)

Lemma sqrt_lt_false sq bound :
  0 < bound -> sqrt_lt sq bound = false -> bound * bound <= sq.
Proof.
  intros Hb H. unfold sqrt_lt in H. apply andb_false_iff in H as [H | H].
  - apply Qltb_false in H. lra.
  - by apply Qltb_false in H.
Qed.

Lemma too_close_false px py c o :
  position c = mkVector px py -> too_close px py o = false -> far_apart c o.
Proof.
  intros Hc H. unfold far_apart. rewrite Hc. cbn [X Y].
  apply sqrt_lt_false in H; [done |]. unfold AsteroidRadius. lra.
Qed.

Lemma placement_too_close_total w px py (rs : list nat) :
  (forall r, r ∈ rs -> is_Some (heap w !! r)) ->
  exists b,
    placement_too_close w px py rs = Some b
    /\ (b = false ->
        forall r o, r ∈ rs -> heap w !! r = Some o -> too_close px py o = false).
Proof.
  induction rs as [| r rs IH]; intros Hval.
  - exists false. split; [done |]. intros _ r o Hr. by apply elem_of_nil in Hr.
  - destruct (Hval r) as [o Ho]; [apply list_elem_of_here |].
    cbn [placement_too_close]. rewrite Ho. cbn [mbind option_bind].
    destruct (too_close px py o) eqn:Hclose.
    + exists true. split; [done |]. done.
    + destruct IH as (b & -> & Hb).
      { intros r' Hr'. apply Hval. by apply list_elem_of_further. }
      exists b. split; [done |]. intros -> r' o' Hr' Ho'.
      apply elem_of_cons in Hr' as [-> | Hr'].
      * rewrite Ho in Ho'. by injection Ho' as <-.
      * by eapply Hb.
Qed.

Lemma choose_placement_eq h more w :
  choose_placement h more w
  = (let w2 := with_randomCalls (S (S (randomCalls w))) w in
     let px := Math_random h (randomCalls w) * canvas_width h in
     let py := Math_random h (S (randomCalls w)) * canvas_height h in
     tooClose ← placement_too_close w2 px py (gameWorldObjects w);
     if (tooClose : bool) then
       match more with
       | O => Some (px, py, true, w2)
       | S more => choose_placement h more w2
       end
     else Some (px, py, false, w2)).
Proof. destruct more; reflexivity. Qed.

Lemma choose_placement_spec h :
  forall more w,
    (forall r, r ∈ gameWorldObjects w -> is_Some (heap w !! r)) ->
    exists px py g n k,
      choose_placement h more w = Some (px, py, g, with_randomCalls n w)
      /\ px = Math_random h k * canvas_width h
      /\ py = Math_random h (S k) * canvas_height h
      /\ (g = false ->
          forall r o, r ∈ gameWorldObjects w -> heap w !! r = Some o ->
                      too_close px py o = false).
Proof.
  induction more as [| more IH]; intros w Hval; rewrite choose_placement_eq;
    cbv zeta;
    destruct (placement_too_close_total
                (with_randomCalls (S (S (randomCalls w))) w)
                (Math_random h (randomCalls w) * canvas_width h)
                (Math_random h (S (randomCalls w)) * canvas_height h)
                (gameWorldObjects w) Hval) as (b & -> & Hb);
    cbn [mbind option_bind]; destruct b.
  - eexists _, _, true, _, _. split_and!; [reflexivity | done | done | done].
  - eexists _, _, false, _, _. split_and!; [reflexivity | done | done | done].
  - destruct (IH (with_randomCalls (S (S (randomCalls w))) w) Hval)
      as (px & py & g & n & k & Hrun & Hpx & Hpy & Hg).
    exists px, py, g, n, k. split_and!; [exact Hrun | done | done | done].
  - eexists _, _, false, _, _. split_and!; [reflexivity | done | done | done].
Qed.

Lemma generateAsteroid_spec h w :
  well_indexed w ->
  exists w' c g,
    generateAsteroid h w = Some (w', g)
    /\ heap w' = heap w ++ [c]
    /\ gameWorldObjects w' = gameWorldObjects w ++ [length (heap w)]
    /\ score w' = score w
    /\ gameState w' = gameState w
    /\ ship w' = ship w
    /\ gameWorldIndex c = Z.of_nat (length (gameWorldObjects w))
    /\ level_asteroid h c
    /\ (g = false ->
        forall r o, r ∈ gameWorldObjects w -> heap w !! r = Some o ->
                    far_apart c o).
Proof.
  intros Hw. unfold generateAsteroid.
  destruct (choose_placement_spec h 99 w)
    as (px & py & g & n & k & -> & Hpx & Hpy & Hg).
  { intros r. by apply well_indexed_is_Some. }
  cbn [mbind option_bind]. unfold random. cbv beta iota zeta.
  cbn [randomCalls with_randomCalls].
  set (w2 := with_randomCalls (S (S n)) (with_randomCalls (S n) (with_randomCalls n w))).
  assert (Hh2 : heap w2 = heap w) by done.
  assert (Hobjs2 : gameWorldObjects w2 = gameWorldObjects w) by done.
  assert (Hg2 : score w2 = score w /\ gameState w2 = gameState w /\ ship w2 = ship w)
    by done.
  clearbody w2.
  match goal with
  | |- context [new_Asteroid h w2 ?p ?v 0 (AsteroidRadius LARGE)] =>
      pose proof (new_Asteroid_fields h w2 p v 0 (AsteroidRadius LARGE)) as Hspec;
      pose proof (new_Asteroid_radius h w2 p v 0 LARGE) as Hr;
      pose proof (new_Asteroid_rotation_range h w2 p v 0 (AsteroidRadius LARGE)) as Hrot;
      destruct (new_Asteroid h w2 p v 0 (AsteroidRadius LARGE)) as [c w3]
  end.
  cbv beta iota zeta in Hspec. cbn [fst snd] in Hspec, Hr, Hrot.
  destruct Hspec as (Ha & Hb & Hi & Hp & Hv & Hang & Ht & ->).
  destruct Hg2 as (Hsc & Hgs & Hsh).
  exists (add_object c (with_randomCalls (randomCalls w2 + 41) w2)), c, g.
  split; [reflexivity |].
  cbn [add_object alloc push heap gameWorldObjects score gameState ship
       with_heap with_randomCalls with_gameWorldObjects].
  rewrite Hh2, Hobjs2. rewrite Hobjs2 in Hi.
  split_and!; [done | done | done | done | done | done | |].
  - split_and!; [done | done | done |]. intros Hunit.
    assert (Hhalf : 3 / 2 == 3 # 2) by (vm_compute; reflexivity).
    destruct (Hrot Hunit) as (rot & Hvar & Hrot0 & Hrot1).
    split_and!.
    + eexists. split; [apply Hunit |]. split; [apply Hunit |].
      rewrite Hr. reflexivity.
    + unfold normalised. rewrite Hang, Hvar. split; [lra | done].
    + exists (Math_random h k), (Math_random h (S k)).
      split; [apply Hunit |]. split; [apply Hunit |].
      rewrite Hp, Hpx, Hpy. done.
    + rewrite Hv. cbn [X new_Vector]. unfold AsteroidMaxVelocity.
      rewrite Hhalf. destruct (Hunit n). lra.
    + rewrite Hv. cbn [X new_Vector]. unfold AsteroidMaxVelocity.
      rewrite Hhalf. destruct (Hunit n). lra.
    + rewrite Hv. cbn [Y new_Vector]. unfold AsteroidMaxVelocity.
      rewrite Hhalf. destruct (Hunit (S n)). lra.
    + rewrite Hv. cbn [Y new_Vector]. unfold AsteroidMaxVelocity.
      rewrite Hhalf. destruct (Hunit (S n)). lra.
  - intros -> r o Hr' Ho. eapply too_close_false; [exact Hp |].
    by eapply Hg.
Qed.

Lemma generate_rounds_spec h :
  forall n w,
    well_indexed w ->
    exists w' gave_up cs,
      generate_rounds h n w = Some (w', gave_up)
      /\ length cs = n
      /\ length gave_up = n
      /\ heap w' = heap w ++ cs
      /\ gameWorldObjects w' = gameWorldObjects w ++ seq (length (heap w)) n
      /\ score w' = score w
      /\ gameState w' = gameState w
      /\ ship w' = ship w
      /\ well_indexed w'
      /\ forall j c,
           cs !! j = Some c ->
           level_asteroid h c
           /\ (gave_up !! j = Some false ->
               forall r o,
                 r ∈ gameWorldObjects w ++ seq (length (heap w)) j ->
                 heap w' !! r = Some o -> far_apart c o).
Proof.
  induction n as [| n IH]; intros w Hw.
  - exists w, [], []. cbn. rewrite !app_nil_r. split_and!; try done.
  - destruct (generateAsteroid_spec h w Hw)
      as (w1 & c0 & g0 & Hstep & Hh1 & Hobjs1 & Hsc1 & Hgs1 & Hsh1 & Hi0 & Hlev0 & Hfar0).
    assert (Hw1 : well_indexed w1).
    { intros i r Hi. rewrite Hobjs1 in Hi. rewrite Hh1.
      destruct (decide (i < length (gameWorldObjects w))%nat) as [Hlt | Hge].
      - rewrite lookup_app_l in Hi by done.
        destruct (Hw i r Hi) as (o & Ho & Hoi). exists o.
        rewrite lookup_app_l by (by eapply lookup_lt_Some). done.
      - rewrite lookup_app_r in Hi by lia.
        apply list_lookup_singleton_Some in Hi as [Hi <-].
        exists c0. rewrite lookup_app_r by lia. rewrite Nat.sub_diag.
        split; [done |]. rewrite Hi0. f_equal. lia. }
    destruct (IH w1 Hw1)
      as (w' & gave_up & cs & Hrun & Hlen & Hlen' & Hh & Hobjs & Hsc & Hgs & Hsh
          & Hw' & Hcs).
    exists w', (g0 :: gave_up), (c0 :: cs).
    cbn [generate_rounds]. rewrite Hstep. cbn [mbind option_bind fst snd].
    rewrite Hrun. cbn [mbind option_bind fst snd].
    assert (Hl1 : length (heap w1) = S (length (heap w))).
    { rewrite Hh1, length_app. cbn. lia. }
    split_and!; [done | cbn; lia | cbn; lia | | | congruence | congruence
                | congruence | done |].
    + rewrite Hh, Hh1, <- app_assoc. done.
    + rewrite Hobjs, Hobjs1, Hl1, <- app_assoc. done.
    + intros j c Hj. destruct j as [| j].
      * injection Hj as <-. split; [done |].
        intros [= ->] r o Hr Ho. cbn in Hr. rewrite app_nil_r in Hr.
        eapply Hfar0; [done | done |].
        rewrite Hh, Hh1, <- app_assoc in Ho.
        rewrite lookup_app_l in Ho; [done |].
        apply (well_indexed_is_Some w r Hw) in Hr as [o' Ho'].
        by eapply lookup_lt_Some.
      * cbn in Hj. destruct (Hcs j c Hj) as (Hlev & Hfar). split; [done |].
        intros Hg r o Hr Ho. eapply Hfar; [exact Hg | | exact Ho].
        rewrite Hobjs1, Hl1, <- app_assoc. exact Hr.
Qed.

(** X17: [generateAsteroids(n)] on a well-indexed registry always returns.
    It appends [n] asteroids (five when [n] is 0, none when [n] is
    negative) with exact indices and changes nothing else.  Each is an
    asteroid at angle 0; with random draws in [0, 1) it has a radius of
    the large tier, a position that is a fraction in [0, 1) of the
    canvas on each axis and velocity components in [-1.5, 1.5).  Unless
    its placement gave up after 100 draws, its centre lies at least four
    large radii from the centre of every object that was in the registry
    before it. *)
Theorem generateAsteroids_places_a_level :
  forall (h : Host) (numAsteroids : Z) (w : GameWorld),
    well_indexed w ->
    exists w' gave_up cs,
      generateAsteroids h numAsteroids w = Some (w', gave_up)
      /\ length cs = asteroids_for numAsteroids
      /\ length gave_up = asteroids_for numAsteroids
      /\ heap w' = heap w ++ cs
      /\ gameWorldObjects w'
         = gameWorldObjects w ++ seq (length (heap w)) (asteroids_for numAsteroids)
      /\ score w' = score w
      /\ gameState w' = gameState w
      /\ ship w' = ship w
      /\ well_indexed w'
      /\ forall j c,
           cs !! j = Some c ->
           level_asteroid h c
           /\ (gave_up !! j = Some false ->
               forall r o,
                 r ∈ gameWorldObjects w ++ seq (length (heap w)) j ->
                 heap w' !! r = Some o -> far_apart c o).
Proof.
  intros h n w Hw. unfold generateAsteroids. fold (asteroids_for n).
  apply generate_rounds_spec. exact Hw.
Qed.

Lemma generateAsteroids_places_a_level_witness :
  exists w' gave_up,
    generateAsteroids quiet_host 0 calm_world = Some (w', gave_up)
    /\ gameWorldObjects w' = [0; 1; 2; 3; 4; 5; 6]%nat.
Proof.
  destruct (generateAsteroids_places_a_level quiet_host 0 calm_world)
    as (w' & gave_up & cs & H & _ & _ & _ & Hobjs & _).
  - apply well_indexed_from_sound. vm_compute. reflexivity.
  - exists w', gave_up. exact (conj H Hobjs).
Defined.

Lemma initializeGameWorldObjects_spec :
  forall (fuel : nat) (h : Host) (s : Session),
    well_indexed (world s) ->
    (length (gameWorldObjects (world s)) <= fuel)%nat ->
    let base := length (heap (world s)) in
    let k := asteroids_for (currentLevel s) in
    exists s' gave_up o,
      initializeGameWorldObjects fuel h s = Done (s', gave_up)
      /\ currentLevel s' = currentLevel s
      /\ then_ s' = then_ s
      /\ score (world s') = score (world s)
      /\ gameState (world s') = gameState (world s)
      /\ in_play (world s')
      /\ ship (world s') = base
      /\ gameWorldObjects (world s') = seq base (S k)
      /\ length (heap (world s')) = (base + S k)%nat
      /\ length gave_up = k
      /\ heap (world s') !! base = Some o
      /\ (exists st, variant o = Ship st /\ rotationSpeed st = 5
                     /\ lastFired st = Date_now h - (2 # 10) * 1000)
      /\ position o = mkVector (canvas_width h / 2) (canvas_height h / 2)
      /\ velocity o = mkVector 0 0
      /\ angle o = 90
      /\ radius o = 20
      /\ (forall j c,
            (j < k)%nat ->
            heap (world s') !! (base + S j)%nat = Some c ->
            level_asteroid h c
            /\ (gave_up !! j = Some false ->
                forall r o',
                  r ∈ seq base (S j) ->
                  heap (world s') !! r = Some o' -> far_apart c o'))
      /\ (random_in_unit h ->
          registry_all normalised (world s')
          /\ registry_all tiered (world s')
          /\ registry_all unwrapped_bullet (world s')).
Proof.
  intros fuel h s Hw Hfuel base k.
  destruct (destroy_all_clears fuel (world s) Hw Hfuel)
    as (w0 & Hrun & Hnil & Hsc0 & Hgs0 & Hsh0 & _ & Hl0).
  unfold initializeGameWorldObjects. rewrite Hrun.
  set (o := new_Ship h w0 (new_Vector (canvas_width h / 2) (canvas_height h / 2))
                     (new_Vector 0 0) 90 20).
  assert (Hoi : gameWorldIndex o = 0%Z).
  { subst o. unfold new_Ship, new_GameWorldObject. cbn. by rewrite Hnil. }
  assert (Hov : exists st, variant o = Ship st /\ rotationSpeed st = 5
                           /\ lastFired st = Date_now h - (2 # 10) * 1000).
  { eexists. split; [reflexivity |]. done. }
  assert (Hofields : position o = mkVector (canvas_width h / 2) (canvas_height h / 2)
                     /\ velocity o = mkVector 0 0 /\ angle o = 90 /\ radius o = 20
                     /\ timesWarped o = 0%Z) by done.
  clearbody o. unfold alloc.
  set (w2 := push (length (heap w0)) (with_ship (length (heap w0))
                                        (with_heap (heap w0 ++ [o]) w0))).
  assert (Hh2 : heap w2 = heap w0 ++ [o]) by done.
  assert (Hobjs2 : gameWorldObjects w2 = [length (heap w0)]).
  { subst w2. cbn. by rewrite Hnil. }
  assert (Hg2 : score w2 = score w0 /\ gameState w2 = gameState w0
                /\ ship w2 = length (heap w0)) by done.
  assert (Hw2 : well_indexed w2).
  { intros i r Hi. rewrite Hobjs2 in Hi.
    apply list_lookup_singleton_Some in Hi as [-> <-].
    exists o. rewrite Hh2, lookup_app_r by lia. rewrite Nat.sub_diag. done. }
  clearbody w2.
  destruct (generate_rounds_spec h (asteroids_for (currentLevel s)) w2 Hw2)
    as (w' & gave_up & cs & Hgen & Hlen & Hlen' & Hh & Hobjs & Hsc & Hgs & Hsh
        & Hw' & Hcs).
  unfold generateAsteroids. fold (asteroids_for (currentLevel s)).
  rewrite Hgen. destruct Hg2 as (Hsc2 & Hgs2 & Hsh2).
  fold k in Hlen, Hlen', Hobjs.
  assert (Hl2 : length (heap w2) = S base).
  { rewrite Hh2, length_app, Hl0. cbn. subst base. lia. }
  assert (Hobjs' : gameWorldObjects w' = seq base (S k)).
  { rewrite Hobjs, Hobjs2, Hl2, Hl0. done. }
  assert (Hship : heap w' !! base = Some o).
  { rewrite Hh, Hh2, <- app_assoc, lookup_app_r by (subst base; lia).
    subst base. rewrite Hl0, Nat.sub_diag. done. }
  assert (Hchild : forall j c, heap w' !! (base + S j)%nat = Some c -> cs !! j = Some c).
  { intros j c Hc. rewrite Hh, lookup_app_r in Hc by lia.
    rewrite Hl2 in Hc. replace (base + S j - S base)%nat with j in Hc by lia. done. }
  exists (mkSession w' (currentLevel s) (then_ s)), gave_up, o.
  cbn [world currentLevel then_].
  destruct Hofields as (Hpos & Hvel & Hang & Hrad & Htw).
  split_and!; try done; try congruence.
  - split_and!; [done | | ].
    + rewrite Hobjs', Hsh, Hsh2, Hl0. done.
    + destruct Hov as (st & Hv & _). exists o, st.
      rewrite Hsh, Hsh2, Hl0. done.
  - rewrite Hsh, Hsh2, Hl0. done.
  - rewrite Hh, length_app, Hl2, Hlen. lia.
  - intros j c Hj Hc. apply Hchild in Hc.
    destruct (Hcs j c Hc) as (Hlev & Hfar). split; [done |].
    intros Hg r o' Hr Ho'. eapply Hfar; [done | | done].
    rewrite Hobjs2, Hl2, Hl0. exact Hr.
  - intros Hunit.
    assert (Hall : forall r c, r ∈ gameWorldObjects w' -> heap w' !! r = Some c ->
                     c = o \/ level_asteroid h c).
    { intros r c Hr Hc. rewrite Hobjs' in Hr. apply elem_of_seq in Hr.
      destruct (decide (r = base)) as [-> | Hne].
      - left. rewrite Hship in Hc. by injection Hc.
      - right. replace r with (base + S (r - S base))%nat in Hc by lia.
        apply Hchild in Hc. by destruct (Hcs _ _ Hc). }
    destruct Hov as (st & Hv & Hrs & _).
    split_and!; intros r c Hr Hc; destruct (Hall r c Hr Hc) as [-> | Hlev].
    + unfold normalised. rewrite Hang, Hv, Hrs. split; [lra | reflexivity].
    + destruct Hlev as (_ & _ & _ & Hlev). by destruct (Hlev Hunit) as (_ & ? & _).
    + intros Ha. unfold instanceof_Asteroid in Ha. by rewrite Hv in Ha.
    + intros _. destruct Hlev as (_ & _ & _ & Hlev).
      destruct (Hlev Hunit) as (? & _). by exists LARGE.
    + intros _. done.
    + intros _. by destruct Hlev as (_ & _ & ? & _).
Qed.

(** X18: [initializeGameWorldObjects] on a well-indexed registry always
    returns with a registry in play: the new ship in slot 0, at the
    centre of the canvas, at rest, at angle 90 and radius 20, followed
    by the asteroids of the level; level, score and scene are
    untouched.  With random draws in [0, 1) the registry satisfies the
    invariants of play. *)
Theorem initializeGameWorldObjects_sets_up_a_level :
  forall (fuel : nat) (h : Host) (s : Session),
    well_indexed (world s) ->
    (length (gameWorldObjects (world s)) <= fuel)%nat ->
    let base := length (heap (world s)) in
    exists s' gave_up o,
      initializeGameWorldObjects fuel h s = Done (s', gave_up)
      /\ currentLevel s' = currentLevel s
      /\ then_ s' = then_ s
      /\ score (world s') = score (world s)
      /\ gameState (world s') = gameState (world s)
      /\ in_play (world s')
      /\ ship (world s') = base
      /\ gameWorldObjects (world s')
         = seq base (S (asteroids_for (currentLevel s)))
      /\ heap (world s') !! base = Some o
      /\ position o = mkVector (canvas_width h / 2) (canvas_height h / 2)
      /\ velocity o = mkVector 0 0
      /\ angle o = 90
      /\ radius o = 20
      /\ (random_in_unit h ->
          registry_all normalised (world s')
          /\ registry_all tiered (world s')
          /\ registry_all unwrapped_bullet (world s')).
Proof.
  intros fuel h s Hw Hfuel base.
  destruct (initializeGameWorldObjects_spec fuel h s Hw Hfuel)
    as (s' & gave_up & o & Hrun & Hlev & Hthen & Hsc & Hgs & Hp & Hsh & Hobjs
        & _ & _ & Ho & _ & Hpos & Hvel & Hang & Hrad & _ & Hinv).
  exists s', gave_up, o. split_and!; done.
Qed.

Lemma initializeGameWorldObjects_sets_up_a_level_witness :
  exists s' gave_up,
    initializeGameWorldObjects 4 quiet_host (mkSession busy_world 2 0)
    = Done (s', gave_up)
    /\ in_play (world s')
    /\ gameWorldObjects (world s') = [4; 5; 6]%nat.
Proof.
  destruct (initializeGameWorldObjects_sets_up_a_level
              4 quiet_host (mkSession busy_world 2 0))
    as (s' & gave_up & o & H & _ & _ & _ & _ & Hp & _ & Hobjs & _).
  - apply well_indexed_from_sound. vm_compute. reflexivity.
  - vm_compute. lia.
  - exists s', gave_up. exact (conj H (conj Hp Hobjs)).
Defined.

Lemma updateGameWorld_globals h dt w w' visited :
  updateGameWorld h dt w = Done (w', visited) ->
  ship w' = ship w
  /\ (score w <= score w')%Z
  /\ (gameState w' = gameState w \/ gameState w' = GAME_OVER_SCENE
      \/ gameState w' = WIN_LEVEL_SCENE).
Proof.
  unfold updateGameWorld. intros H.
  destruct (handleUserInput h dt w) as [w_in |] eqn:Hin; [| done].
  assert (Hglob : ship w_in = ship w /\ score w_in = score w
                  /\ gameState w_in = gameState w).
  { assert (Hin' := Hin). unfold handleUserInput in Hin'.
    destruct (heap w !! ship w) as [o |] eqn:Ho; [| done].
    cbn [mbind option_bind] in Hin'.
    destruct (variant o) as [st | |] eqn:Hv; [| done | done]. clear Hin'.
    destruct (handleUserInput_effect h dt w o st Ho Hv)
      as (w_in' & o_in & Hin' & Hs & Hsc & Hgs & _).
    rewrite Hin in Hin'. injection Hin' as <-. done. }
  destruct Hglob as (Hs & Hsc & Hgs).
  destruct (updateLoop h (loop_fuel w_in) 0 w_in) as [[w1 vis] | |] eqn:Hrun;
    [| done | done].
  destruct (updateLoop_globals h _ _ _ _ _ Hrun) as (Hs1 & Hsc1 & Hgs1).
  destruct (isWinConditionMet w1) as [[|] |]; [| | done]; injection H as <- <-.
  - split_and!; [cbn; congruence | cbn; lia | right; by right].
  - split_and!; [congruence | lia |].
    destruct Hgs1 as [-> | ->]; [by left | right; by left].
Qed.

Lemma startGame_runs fuel h s :
  well_indexed (world s) ->
  (length (gameWorldObjects (world s)) <= fuel)%nat ->
  exists s2 gave_up w' visited,
    initializeGameWorldObjects fuel h (in_main_level s) = Done (s2, gave_up)
    /\ gameState (world s2) = MAIN_LEVEL_SCENE
    /\ currentLevel s2 = currentLevel s
    /\ then_ s2 = then_ s
    /\ in_play (world s2)
    /\ updateGameWorld h ((Date_now h - then_ s) / 1000) (world s2)
       = Done (w', visited)
    /\ in_play w'
    /\ startGame fuel h s
       = Done (mkSession w' (currentLevel s) (Date_now h), RequestsNextFrame).
Proof.
  intros Hw Hfuel.
  destruct (initializeGameWorldObjects_spec fuel h (in_main_level s) Hw Hfuel)
    as (s2 & gave_up & o & Hrun & Hlev & Hthen & _ & Hgs & Hp & _).
  cbn [in_main_level world currentLevel then_ setGameState gameState] in *.
  destruct (updateGameWorld_in_play h ((Date_now h - then_ s) / 1000) (world s2) Hp)
    as (w_in & w1 & w' & visited & won & _ & _ & _ & _ & _ & _ & Htick & Hp').
  exists s2, gave_up, w', visited.
  split_and!; try done.
  unfold startGame. fold (in_main_level s). rewrite Hrun.
  unfold playMainLevelScene. rewrite Hgs, Hthen, Htick, Hlev. done.
Qed.

(** X19: From a well-indexed registry [startGame] always completes: it sets
    up the level, runs one frame and asks for the next.  The registry is
    then in play with a new ship, the level is unchanged, [then] is the
    current time and the score has not dropped.  [playNextLevel] does
    the same one level up. *)
Theorem startGame_runs_the_first_frame :
  forall (fuel : nat) (h : Host) (s : Session),
    well_indexed (world s) ->
    (length (gameWorldObjects (world s)) <= fuel)%nat ->
    (exists s',
       startGame fuel h s = Done (s', RequestsNextFrame)
       /\ in_play (world s')
       /\ currentLevel s' = currentLevel s
       /\ then_ s' = Date_now h
       /\ ship (world s') = length (heap (world s))
       /\ (score (world s) <= score (world s'))%Z
       /\ level_scene (gameState (world s')))
    /\ (exists s',
          playNextLevel fuel h s = Done (s', RequestsNextFrame)
          /\ in_play (world s')
          /\ currentLevel s' = (currentLevel s + 1)%Z
          /\ level_scene (gameState (world s'))).
Proof.
  assert (Hstart : forall fuel h s,
             well_indexed (world s) ->
             (length (gameWorldObjects (world s)) <= fuel)%nat ->
             exists s',
               startGame fuel h s = Done (s', RequestsNextFrame)
               /\ in_play (world s')
               /\ currentLevel s' = currentLevel s
               /\ then_ s' = Date_now h
               /\ ship (world s') = length (heap (world s))
               /\ (score (world s) <= score (world s'))%Z
               /\ level_scene (gameState (world s'))).
  { intros fuel h s Hw Hfuel.
    destruct (startGame_runs fuel h s Hw Hfuel)
      as (s2 & gave_up & w' & visited & Hinit & Hgs & _ & _ & _ & Htick & Hp' & Hrun).
    destruct (initializeGameWorldObjects_spec fuel h (in_main_level s) Hw Hfuel)
      as (s2' & gave_up' & o & Hinit' & _ & _ & Hsc & _ & _ & Hsh & _).
    rewrite Hinit in Hinit'. injection Hinit' as <- <-.
    destruct (updateGameWorld_globals _ _ _ _ _ Htick) as (Hs' & Hsc' & Hgs').
    eexists. split; [exact Hrun |]. cbn [world currentLevel then_].
    cbn [in_main_level world setGameState score heap] in Hsc, Hsh.
    split_and!; [done | done | done | congruence | lia |].
    unfold level_scene. rewrite Hgs in Hgs'. tauto. }
  intros fuel h s Hw Hfuel. split; [by apply Hstart |].
  destruct (Hstart fuel h (mkSession (world s) (currentLevel s + 1) (then_ s)) Hw Hfuel)
    as (s' & Hrun & Hp & Hlev & _ & _ & _ & Hscene).
  exists s'. split_and!; done.
Qed.

Lemma startGame_runs_the_first_frame_witness :
  exists s',
    startGame 4 quiet_host (mkSession busy_world 2 0) = Done (s', RequestsNextFrame)
    /\ in_play (world s')
    /\ currentLevel s' = 2%Z.
Proof.
  destruct (startGame_runs_the_first_frame 4 quiet_host (mkSession busy_world 2 0))
    as [(s' & H & Hp & Hl & _) _].
  - apply well_indexed_from_sound. vm_compute. reflexivity.
  - vm_compute. lia.
  - exists s'. exact (conj H (conj Hp Hl)).
Defined.

Lemma steer_turns_right h dt o st :
  variant o = Ship st ->
  key_down 37 h = false -> key_down 39 h = true ->
  angle (steer h dt o) = angle (rotate (JNum (- (rotationSpeed st * dt * 100))) o).
Proof.
  intros Hv H37 H39. unfold steer. rewrite Hv. cbv zeta. rewrite H37, H39.
  destruct (key_down 38 h); [apply accelerate_keeps_angle | done].
Qed.

(** X20: The first frame of a level measures its time step from the stale
    [then].  When [startGame] runs more than 0.9 seconds after [then]
    with the right-arrow key held and the left one not, the new ship,
    built at angle 90, is turned once by half a degree per millisecond
    and is left at a negative angle. *)
Theorem first_frame_turn_leaves_a_negative_angle :
  forall (fuel : nat) (h : Host) (s : Session),
    well_indexed (world s) ->
    (length (gameWorldObjects (world s)) <= fuel)%nat ->
    key_down 37 h = false ->
    key_down 39 h = true ->
    900 < Date_now h - then_ s ->
    exists s' o,
      startGame fuel h s = Done (s', RequestsNextFrame)
      /\ heap (world s') !! ship (world s') = Some o
      /\ angle o == 450 - (Date_now h - then_ s) / 2
      /\ angle o < 0.
Proof.
  intros fuel h s Hw Hfuel H37 H39 Hlate.
  destruct (startGame_runs fuel h s Hw Hfuel)
    as (s2 & gave_up & w' & visited & Hinit & Hgs & _ & _ & Hp2 & Htick & Hp' & Hrun).
  destruct (initializeGameWorldObjects_spec fuel h (in_main_level s) Hw Hfuel)
    as (s2' & gave_up' & o & Hinit' & _ & _ & _ & _ & _ & Hsh & Hobjs & _ & _ & Ho
        & (st & Hv & Hrs & _) & _ & _ & Hang & _ & Hast & _).
  rewrite Hinit in Hinit'. injection Hinit' as <- <-.
  cbn [in_main_level world setGameState heap currentLevel] in Hsh, Hobjs, Ho, Hast.
  set (base := length (heap (world s))) in *.
  set (dt := (Date_now h - then_ s) / 1000) in *.
  set (A := angle (steer h dt o)).
  set (P := fun x : GameWorldObject => forall st', variant x = Ship st' -> angle x = A).
  destruct (updateGameWorld_in_play h dt (world s2) Hp2)
    as (w_in & w1 & w'' & visited' & won & Hin & Hp_in & Hloop & Hp1 & _ & Hw''
        & Htick' & _).
  rewrite Htick in Htick'. injection Htick' as <- <-.
  rewrite <- Hsh in Ho.
  destruct (handleUserInput_effect h dt (world s2) o st Ho Hv)
    as (w_in' & o_in & Hin' & Hs_in & _ & _ & Ho_in & Hother & Hcases).
  rewrite Hin in Hin'. injection Hin' as <-.
  assert (HP_in : registry_all P w_in).
  { intros r x Hr Hx.
    assert (Hold : r ∈ gameWorldObjects (world s2) -> P x).
    { intros Hr2. destruct (decide (r = ship (world s2))) as [-> | Hne].
      - rewrite Ho_in in Hx. injection Hx as <-. intros st' _.
        destruct Hcases as [(-> & _) | (-> & _)];
          [done | apply set_lastFired_keeps_angle].
      - rewrite Hobjs in Hr2. apply elem_of_seq in Hr2. rewrite Hsh in Hne.
        rewrite Hother in Hx; [| by rewrite Hsh |].
        + replace r with (base + S (r - S base))%nat in Hx by lia.
          apply Hast in Hx as [(Ha & _) _]; [| lia].
          intros st' Hst'. unfold instanceof_Asteroid in Ha. by rewrite Hst' in Ha.
        + destruct Hp2 as (Hw2 & _).
          assert (Hin2 : r ∈ gameWorldObjects (world s2)).
          { rewrite Hobjs. apply elem_of_seq. lia. }
          apply (well_indexed_is_Some _ _ Hw2) in Hin2 as [y Hy].
          by eapply lookup_lt_Some. }
    destruct Hcases as [(_ & Hobjs_in & _) | (_ & Hobjs_in & Hb & _)].
    - apply Hold. by rewrite <- Hobjs_in.
    - rewrite Hobjs_in in Hr. apply elem_of_app in Hr as [Hr | Hr]; [by apply Hold |].
      apply list_elem_of_singleton in Hr as ->.
      rewrite Hb in Hx. injection Hx as <-. intros st' Hst'. done. }
  assert (HP1 : registry_all P w1).
  { eapply (updateLoop_keeps_registry_all h P);
      [| | | apply Hp_in | exact HP_in | exact Hloop].
    - intros x k Hx. exact Hx.
    - intros x Hx _ st' Hst'. rewrite own_update_keeps_variant in Hst'.
      rewrite <- (Hx st' Hst'). unfold own_update. rewrite Hst'.
      change (angle (apply_friction (friction st') (GameWorldObject_update h x)))
        with (angle (GameWorldObject_update h x)).
      apply update_keeps_angle.
    - intros w0 pos vel t st' Hst'.
      destruct (new_Asteroid_fields h w0 pos vel 0 (AsteroidRadius t)) as (Ha & _).
      cbv zeta in Ha. unfold instanceof_Asteroid in Ha. by rewrite Hst' in Ha. }
  destruct Hp1 as (Hw1 & H0 & o1 & st1 & Ho1 & Hv1).
  assert (Hangle : angle o1 = A).
  { eapply (HP1 (ship w1) o1); [by eapply list_elem_of_lookup_2 | done | done]. }
  assert (HA : A == 450 - (Date_now h - then_ s) / 2 /\ A < 0).
  { subst A. rewrite (steer_turns_right h dt o st Hv H37 H39), rotate_angle.
    rewrite Hang, Hrs.
    assert (Hdt : dt * 1000 == Date_now h - then_ s) by (subst dt; field).
    assert (Hhalf : (Date_now h - then_ s) / 2 == 500 * dt) by (subst dt; field).
    rewrite Hhalf. clearbody dt.
    destruct (Qgeb (90 + - (5 * dt * 100)) 360) eqn:E1.
    { apply Qgeb_true in E1. lra. }
    destruct (Qltb (90 + - (5 * dt * 100)) 0) eqn:E2.
    - split; lra.
    - apply Qltb_false in E2. lra. }
  exists (mkSession w' (currentLevel s) (Date_now h)), o1.
  cbn [world]. rewrite Hangle.
  split_and!; [done | | apply HA | apply HA].
  rewrite Hw''. by destruct won.
Qed.

Lemma first_frame_turn_leaves_a_negative_angle_witness :
  exists s' o,
    startGame 4 (press 39 quiet_host) (mkSession busy_world 1 998000)
    = Done (s', RequestsNextFrame)
    /\ heap (world s') !! ship (world s') = Some o
    /\ angle o == -550.
Proof.
  destruct (first_frame_turn_leaves_a_negative_angle
              4 (press 39 quiet_host) (mkSession busy_world 1 998000))
    as (s' & o & H & Ho & Ha & _).
  - apply well_indexed_from_sound. vm_compute. reflexivity.
  - vm_compute. lia.
  - reflexivity.
  - reflexivity.
  - vm_compute. reflexivity.
  - exists s', o. split; [exact H |]. split; [exact Ho |].
    rewrite Ha. vm_compute. reflexivity.
Defined.

Lemma resetGame_spec fuel s :
  well_indexed (world s) ->
  (length (gameWorldObjects (world s)) <= fuel)%nat ->
  exists s',
    resetGame fuel s = Done s'
    /\ gameWorldObjects (world s') = []
    /\ score (world s') = 0%Z
    /\ currentLevel s' = 1%Z
    /\ gameState (world s') = TITLE_SCREEN_SCENE.
Proof.
  intros Hw Hlen.
  destruct (destroy_all_clears fuel (world s) Hw Hlen) as (w' & Hrun & Hnil & _).
  unfold resetGame. rewrite Hrun. eexists. split; [reflexivity |]. done.
Qed.

(** X21: The [keydown] listener.  It records the key.  The pause keys always
    make it throw, since [pauseGame] is not defined.  Keys without a
    binding, and Enter during the main level, change nothing else.  The
    reset keys, and Enter on the game-over or credits scene, clear the
    game when the registry is well indexed. *)
Theorem keydown_effects :
  forall (fuel : nat) (ev : KeyEvent) (h : Host) (s : Session),
    key_down (keyCode ev) (press (keyCode ev) h) = true
    /\ (which ev = 80%Z \/ which ev = 112%Z ->
        onKeyDown fuel ev h s = Thrown)
    /\ (which ev <> 13%Z -> which ev <> 80%Z -> which ev <> 112%Z ->
        which ev <> 82%Z -> which ev <> 114%Z ->
        onKeyDown fuel ev h s = Done (press (keyCode ev) h, s))
    /\ (which ev = 13%Z -> gameState (world s) = MAIN_LEVEL_SCENE ->
        onKeyDown fuel ev h s = Done (press (keyCode ev) h, s))
    /\ (well_indexed (world s) ->
        (length (gameWorldObjects (world s)) <= fuel)%nat ->
        which ev = 82%Z \/ which ev = 114%Z
        \/ (which ev = 13%Z
            /\ (gameState (world s) = GAME_OVER_SCENE
                \/ gameState (world s) = CREDITS_SCENE)) ->
        exists s',
          onKeyDown fuel ev h s = Done (press (keyCode ev) h, s')
          /\ gameWorldObjects (world s') = []
          /\ score (world s') = 0%Z
          /\ currentLevel s' = 1%Z
          /\ gameState (world s') = TITLE_SCREEN_SCENE).
Proof.
  intros fuel [code wh] h s. cbn [keyCode which]. split_and!.
  - unfold key_down, press, with_keysDown. cbn. by rewrite Z.eqb_refl.
  - intros [-> | ->]; reflexivity.
  - intros H13 H80 H112 H82 H114. unfold onKeyDown, which_is. cbn [which keyCode].
    apply Z.eqb_neq in H13, H80, H112, H82, H114.
    rewrite H13, H80, H112, H82, H114. reflexivity.
  - intros -> Hgs. unfold onKeyDown. cbn [which keyCode]. rewrite Hgs. reflexivity.
  - intros Hw Hfuel Hkey.
    destruct (resetGame_spec fuel s Hw Hfuel) as (s' & Hreset & Hclear).
    exists s'. split; [| exact Hclear].
    unfold onKeyDown. cbn [which keyCode].
    destruct Hkey as [-> | [-> | [-> [Hgs | Hgs]]]]; cbn; rewrite ?Hgs, Hreset;
      reflexivity.
Qed.

Lemma keydown_effects_witness :
  exists s',
    onKeyDown 4 (mkKeyEvent 82 82) quiet_host (mkSession busy_world 3 0)
    = Done (press 82 quiet_host, s')
    /\ gameWorldObjects (world s') = []
    /\ currentLevel s' = 1%Z.
Proof.
  destruct (keydown_effects 4 (mkKeyEvent 82 82) quiet_host (mkSession busy_world 3 0))
    as (_ & _ & _ & _ & Hreset).
  destruct Hreset as (s' & H & Hnil & _ & Hl & _).
  - apply well_indexed_from_sound. vm_compute. reflexivity.
  - vm_compute. lia.
  - left. reflexivity.
  - exists s'. exact (conj H (conj Hnil Hl)).
Defined.

(** ** The clearing loop on a registry that is not well indexed *)

Lemma destroy_out_of_range w this o :
  heap w !! this = Some o ->
  (Z.of_nat (length (gameWorldObjects w)) <= gameWorldIndex o)%Z ->
  destroy this w = Some w.
Proof.
  intros Ho Hidx. unfold destroy. rewrite Ho. cbn [mbind option_bind].
  destruct (gameWorldIndex o <? 0)%Z eqn:E; [lia |].
  assert (Hdel : delete (Z.to_nat (gameWorldIndex o)) (gameWorldObjects w)
                 = gameWorldObjects w).
  { rewrite delete_take_drop, take_ge, drop_ge by lia. apply app_nil_r. }
  rewrite Hdel, drop_ge by lia. cbn. by destruct w.
Qed.

(** X22: When the object in slot 0 carries an index at or past the end of
    the registry, [destroy] on it removes nothing, and the clearing loop
    of [resetGame] and [initializeGameWorldObjects] never ends: it runs
    out of every fuel. *)
Theorem clearing_loop_hangs_on_a_stale_index :
  forall (fuel : nat) (h : Host) (s : Session) (r : nat) (o : GameWorldObject),
    gameWorldObjects (world s) !! 0%nat = Some r ->
    heap (world s) !! r = Some o ->
    (Z.of_nat (length (gameWorldObjects (world s))) <= gameWorldIndex o)%Z ->
    destroy r (world s) = Some (world s)
    /\ resetGame fuel s = OutOfFuel
    /\ initializeGameWorldObjects fuel h s = OutOfFuel.
Proof.
  intros fuel h s r o H0 Ho Hidx.
  pose proof (destroy_out_of_range (world s) r o Ho Hidx) as Hd.
  assert (Hloop : forall n, destroy_all n (world s) = OutOfFuel).
  { destruct (gameWorldObjects (world s)) as [| r' rest] eqn:Hobjs; [done |].
    injection H0 as ->.
    induction n as [| n IH]; cbn [destroy_all]; rewrite Hobjs; [done |].
    by rewrite Hd. }
  split_and!; [done | |].
  - unfold resetGame. by rewrite Hloop.
  - unfold initializeGameWorldObjects. by rewrite Hloop.
Qed.

Lemma clearing_loop_hangs_on_a_stale_index_witness :
  let w := mkWorld [object_at default_ship 5 400 300 0 0 20] [0%nat]
                   GAME_OVER_SCENE 0 0%nat 0 in
  resetGame 1000 (mkSession w 1 0) = OutOfFuel.
Proof.
  apply (clearing_loop_hangs_on_a_stale_index 1000 quiet_host _ 0
           (object_at default_ship 5 400 300 0 0 20)).
  - reflexivity.
  - reflexivity.
  - vm_compute. congruence.
Defined.
